(** * micro_sam: the overlap metric, the embedding cache and the volume
      propagation engine

    A shallow embedding of

    - [micro_sam/util.py]: [compute_iou], [_compute_2d], [_precompute_2d],
      [_compute_3d], [_precompute_3d], [precompute_image_embeddings],
      [_download], [_get_checkpoint], [_to_image];
    - [micro_sam/sam_annotator/annotator_3d.py]: [_segment_volume] with its
      local helpers [_update_progress] and [segment_range], and the choice
      of the projection in [segment_volume_widget].

    Python integers are [Z], numpy label arrays are lists of rows of [Z],
    the persisted zarr container is a record passed in and out explicitly,
    and the [while True] loop of [segment_range] is a fixpoint on a fuel
    argument.  The IOU that the engine compares with its threshold is
    computed on binary64 numbers (primitive floats), as in the code; the
    value of the same quotient in exact arithmetic is a rational [Q]. *)

From Stdlib Require Import ZArith QArith Lia Bool Uint63 PrimFloat Floats.
From stdpp Require Import base list gmap strings.

Local Open Scope Z_scope.

(** ** Outcomes of a Python call *)

(** The exceptions the modelled code can raise.  The names follow the error
    taxonomy of the design; the Python exception behind each one is given. *)
Inductive error : Type :=
| InvalidProjection    (* AssertionError: [assert projection in (...)] *)
| EmptyAnnotationSet   (* ValueError: numpy [min()] of a zero-size array *)
| IndexError           (* IndexError: index out of bounds for axis 0 *)
| KeyError             (* KeyError: [f["features"]] on a missing dataset *)
| TypeError            (* TypeError: [None[:]] *)
| ContainsArrayError   (* zarr: [create_dataset] on an existing array *)
| InvalidImage         (* ValueError raised by [_to_image] *)
| InvalidDimensionality (* ValueError: ndim is neither 2 nor 3 *)
| EmptyStack.          (* RuntimeError: [torch.cat] of an empty list *)

(** [Timeout] is not a Python outcome: it marks a loop cut off by its fuel. *)
Inductive outcome (A : Type) : Type :=
| Done (a : A)
| Raise (e : error)
| Timeout.
Arguments Done {A} a.
Arguments Raise {A} e.
Arguments Timeout {A}.

Definition bind {A B : Type} (m : outcome A) (k : A -> outcome B) : outcome B :=
  match m with
  | Done a => k a
  | Raise e => Raise e
  | Timeout => Timeout
  end.

#[global] Instance outcome_ret : MRet outcome := @Done.
#[global] Instance outcome_bind : MBind outcome := fun A B k m => bind m k.
#[global] Instance outcome_fmap : FMap outcome :=
  fun A B f m => bind m (fun a => Done (f a)).

(** ** Label arrays *)

(** A 2D label array: rows of pixel labels.  A boolean array is the same
    thing with entries 0 and 1 ([True == 1] in numpy). *)
Definition mask : Type := list (list Z).

Definition of_bool (b : bool) : Z := if b then 1 else 0.

(** [m == 1] *)
Definition is_one (x : Z) : bool := x =? 1.
Arguments is_one : simpl never.
Definition eq1 (m : mask) : list (list bool) := map (map is_one) m.

(** [np.logical_and] / [np.logical_or] on boolean arrays of one shape. *)
Definition logical_and (a b : list (list bool)) : list (list bool) :=
  zip_with (zip_with andb) a b.
Definition logical_or (a b : list (list bool)) : list (list bool) :=
  zip_with (zip_with orb) a b.

(** [a.sum()] of a boolean array: the number of [True] entries. *)
Fixpoint count_true (row : list bool) : Z :=
  match row with
  | [] => 0
  | b :: row' => of_bool b + count_true row'
  end.
Fixpoint sum (a : list (list bool)) : Z :=
  match a with
  | [] => 0
  | row :: a' => count_true row + sum a'
  end.

(** The positions of the [True] entries of a boolean array: those of one
    row [r], counted from column [c], and those of the rows from [r] on. *)
Fixpoint row_positions (r c : nat) (row : list bool) : gset (nat * nat) :=
  match row with
  | [] => ∅
  | b :: row' => (if b then {[ (r, c) ]} else ∅) ∪ row_positions r (S c) row'
  end.
Fixpoint positions (r : nat) (a : list (list bool)) : gset (nat * nat) :=
  match a with
  | [] => ∅
  | row :: a' => row_positions r 0 row ∪ positions (S r) a'
  end.

(** The foreground of a mask: the set of its pixels with label 1. *)
Definition foreground (m : mask) : gset (nat * nat) := positions 0 (eq1 m).

(** Two arrays have the same shape. *)
Definition same_shape {A B} (a : list (list A)) (b : list (list B)) : Prop :=
  Forall2 (fun r s => length r = length s) a b.

(** A boolean array used as a prompt (entries 0 and 1). *)
Definition as_mask (a : list (list bool)) : mask := map (map of_bool) a.

Module Util.

(** [eps = 1e-7] *)
Definition eps : Q := 1 # 10000000.

(** The value of [compute_iou(mask1, mask2)] in exact arithmetic: the
    quotient the code approximates, with [eps] the rational 1/10^7. *)
Definition compute_iou (mask1 mask2 : mask) : Q :=
  let overlap := sum (logical_and (eq1 mask1) (eq1 mask2)) in
  let union := sum (logical_or (eq1 mask1) (eq1 mask2)) in
  (inject_Z overlap / (inject_Z union + eps))%Q.

(** The conversion of a count (a numpy integer of 64 bits, never negative)
    to binary64 in the division. *)
Definition float_of_Z (n : Z) : float := PrimFloat.of_uint63 (Uint63.of_Z n).

(** [compute_iou(mask1, mask2)] as the code computes it, on binary64
    numbers: [float(overlap) / (float(union) + eps)], where
    [0x1.ad7f29abcaf48p-24] is the binary64 number that [1e-7] denotes. *)
Definition compute_iou_f64 (mask1 mask2 : mask) : float :=
  let overlap := sum (logical_and (eq1 mask1) (eq1 mask2)) in
  let union := sum (logical_or (eq1 mask1) (eq1 mask2)) in
  (float_of_Z overlap / (float_of_Z union + 0x1.ad7f29abcaf48p-24))%float.

(** The sign bit of a binary64 value is unset, or the value is not a
    number. *)
Definition unsigned_or_nan (f : spec_float) : Prop :=
  match f with
  | S754_zero s | S754_infinity s | S754_finite s _ _ => s = false
  | S754_nan => True
  end.

(** Pixel-level predicates used to state the properties of [compute_iou]. *)


(** No pixel has label 1. *)
Definition is_empty (m : mask) : bool :=
  forallb (forallb (fun x => negb (is_one x))) m.


(** *** The embedding cache *)

(** An embedding is a tensor of numbers; only the positions of its zeros
    matter here, so it is kept as the flat list of its entries. *)
Definition embedding : Type := list Z.

(** [np.count_nonzero(emb)] *)
Definition count_nonzero (emb : embedding) : nat :=
  length (filter (fun x => x ≠ 0) emb).

(** A chunk that was allocated and never written reads as zeros. *)
Definition zeros_like (emb : embedding) : embedding := map (fun _ => 0) emb.

(** [original_size] and [input_size] are pairs of integers. *)
Definition image_size : Type := Z * Z.

(** What happened to a container, in order. *)
Inductive store_event : Type :=
| CreateDataset
| SetChunk (z : nat)
| SetAttr (key : string).

(** The zarr container behind [save_path]: the array ["features"] when it
    exists (one chunk per slice, a single chunk for a 2D image) and the
    attributes, whose values can be [None].  [journal] records the writes. *)
Record container : Type := mkContainer {
  features : option (list embedding);
  attrs : gmap string (option image_size);
  journal : list store_event
}.

(** A container that was just created by [zarr.open(save_path, "a")]. *)
Definition empty_container : container := mkContainer None ∅ [].

(** The value under ["features"] of the returned dictionary. *)
Inductive features_value : Type :=
| InMemory (chunks : list embedding)  (* a numpy array or tensor *)
| OnDisk                              (* the zarr array of the container *)
| NoFeatures.                         (* [None] *)

(** The dictionary [image_embeddings]. *)
Record image_embeddings : Type := mkEmbeddings {
  emb_features : features_value;
  emb_input_size : option image_size;
  emb_original_size : option image_size
}.

(** [f.attrs[key]] *)
Definition getattr (f : container) (key : string) : outcome (option image_size) :=
  match attrs f !! key with
  | Some v => Done v
  | None => Raise KeyError
  end.

(** [f.attrs[key] = v] *)
Definition setattr (f : container) (key : string) (v : option image_size) : container :=
  mkContainer (features f) (<[key := v]> (attrs f)) (journal f ++ [SetAttr key]).

(** [f["features"]] *)
Definition getfeatures (f : container) : outcome (list embedding) :=
  match features f with
  | Some chunks => Done chunks
  | None => Raise KeyError
  end.

(** [features[z]] for [0 <= z] *)
Definition getchunk (chunks : list embedding) (z : nat) : outcome embedding :=
  match chunks !! z with
  | Some emb => Done emb
  | None => Raise IndexError
  end.

(** [features[z] = embedding] on the array of the container *)
Definition setchunk (f : container) (z : nat) (emb : embedding) : outcome container :=
  match features f with
  | Some chunks =>
      if decide (z < length chunks)%nat
      then Done (mkContainer (Some (<[z := emb]> chunks)) (attrs f)
                             (journal f ++ [SetChunk z]))
      else Raise IndexError
  | None => Raise TypeError
  end.

(** [f.create_dataset("features", ...)] with the given initial chunks *)
Definition create_dataset (f : container) (chunks : list embedding) : outcome container :=
  match features f with
  | Some _ => Raise ContainsArrayError
  | None => Done (mkContainer (Some chunks) (attrs f) (journal f ++ [CreateDataset]))
  end.

Section Embeddings.

(** Arrays handed in by the caller, and the encoder, are external. *)
Variable ndarray : Type.
(** [input_.ndim] *)
Variable ndim_of : ndarray -> Z.
(** iteration over the first axis: [for z_slice in input_] *)
Variable slices_of : ndarray -> list ndarray.
(** [_to_image]: [None] stands for its [ValueError] *)
Variable _to_image : ndarray -> option ndarray.
(** [np.concatenate([z_slice[..., None]] * 3, axis=-1)] *)
Variable to_rgb : ndarray -> ndarray.
(** [predictor.set_image(image)] followed by reading
    [get_image_embedding()], [original_size] and [input_size] *)
Variable sam : ndarray -> embedding * image_size * image_size.

(** The predictor is observed through the images given to [set_image]. *)
Definition predictor : Type := list ndarray.

Definition set_image (p : predictor) (image : ndarray)
  : predictor * (embedding * image_size * image_size) :=
  (p ++ [image], sam image).

(** [_compute_2d(input_, predictor)] *)
Definition _compute_2d (input_ : ndarray) (p : predictor)
  : outcome (image_embeddings * predictor) :=
  match _to_image input_ with
  | None => Raise InvalidImage
  | Some image =>
      let '(p, (feats, original_size, input_size)) := set_image p image in
      Done (mkEmbeddings (InMemory [feats]) (Some input_size) (Some original_size), p)
  end.

(** [_precompute_2d(input_, predictor, save_path)] *)
Definition _precompute_2d (input_ : ndarray) (p : predictor) (f : container)
  : outcome (image_embeddings * predictor * container) :=
  if decide (is_Some (attrs f !! "input_size")) then
    feats ← getfeatures f;
    original_size ← getattr f "original_size";
    input_size ← getattr f "input_size";
    Done (mkEmbeddings (InMemory feats) input_size original_size, p, f)
  else
    match _to_image input_ with
    | None => Raise InvalidImage
    | Some image =>
        let '(p, (feats, original_size, input_size)) := set_image p image in
        f ← create_dataset f [feats];
        let f := setattr f "input_size" (Some input_size) in
        let f := setattr f "original_size" (Some original_size) in
        Done (mkEmbeddings (InMemory [feats]) (Some input_size) (Some original_size),
              p, f)
    end.

(** The local variables of the slice loop of [_precompute_3d]; [l_store]
    is the container, which holds the array that [features] refers to. *)
Record loop_state : Type := mkLoop {
  l_predictor : predictor;
  l_store : container;
  l_original_size : option image_size;
  l_input_size : option image_size
}.

(** One iteration of the loop of [_compute_3d] on its local variables
    [features], [original_size], [input_size] and the predictor: it appends
    the embedding and sets each size only while it is [None]. *)
Definition _compute_3d_step
           (acc : list embedding * option image_size * option image_size * predictor)
           (z_slice : ndarray)
  : list embedding * option image_size * option image_size * predictor :=
  let '(feats, original_size, input_size, p) := acc in
  let '(p, (emb, original_size', input_size')) := set_image p (to_rgb z_slice) in
  (feats ++ [emb],
   match original_size with None => Some original_size' | o => o end,
   match input_size with None => Some input_size' | o => o end,
   p).

(** [_compute_3d(input_, predictor)] *)
Definition _compute_3d (input_ : ndarray) (p : predictor)
  : outcome (image_embeddings * predictor) :=
  let '(feats, original_size, input_size, p) :=
    fold_left _compute_3d_step (slices_of input_) ([], None, None, p) in
  (* concatenate across the z axis *)
  match feats with
  | [] => Raise EmptyStack
  | _ => Done (mkEmbeddings (InMemory feats) input_size original_size, p)
  end.

(** One iteration of the loop of [_precompute_3d] for slice [z] of
    [total] slices.  The local [features] is the array of the container
    or [None], which is what [features (l_store st)] holds. *)
Definition _precompute_3d_step (total : nat) (st : loop_state)
           (z : nat) (z_slice : ndarray) : outcome loop_state :=
  skip ← match features (l_store st) with
          | Some chunks =>
              emb ← getchunk chunks z;
              Done (negb (Nat.eqb (count_nonzero emb) 0))
          | None => Done false
          end;
  if skip : bool then Done st
  else
    let '(p, (emb, original_size, input_size)) :=
      set_image (l_predictor st) (to_rgb z_slice) in
    f ← match features (l_store st) with
         | None => create_dataset (l_store st) (replicate total (zeros_like emb))
         | Some _ => Done (l_store st)
         end;
    f ← setchunk f z emb;
    mret (mkLoop p f (Some original_size) (Some input_size)).

(** [for z, z_slice in enumerate(input_)], from index [z] on. *)
Fixpoint _precompute_3d_loop (total : nat) (st : loop_state)
         (z : nat) (rest : list ndarray) : outcome loop_state :=
  match rest with
  | [] => Done st
  | z_slice :: rest' =>
      st ← _precompute_3d_step total st z z_slice;
      _precompute_3d_loop total st (S z) rest'
  end.

(** [_precompute_3d(input_, predictor, save_path, lazy_loading)] *)
Definition _precompute_3d (input_ : ndarray) (p : predictor) (f : container)
           (lazy_loading : bool)
  : outcome (image_embeddings * predictor * container) :=
  '(feats, original_size, input_size, p, f) ←
    (if decide (is_Some (attrs f !! "input_size")) then
       _ ← getfeatures f;
       original_size ← getattr f "original_size";
       input_size ← getattr f "input_size";
       Done (OnDisk, original_size, input_size, p, f)
     else
       st ← _precompute_3d_loop (length (slices_of input_))
               (mkLoop p f None None) 0%nat (slices_of input_);
       let f := setattr (l_store st) "input_size" (l_input_size st) in
       let f := setattr f "original_size" (l_original_size st) in
       Done (match features f with Some _ => OnDisk | None => NoFeatures end,
             l_original_size st, l_input_size st, l_predictor st, f));
  feats ← (if lazy_loading then Done feats
            else match feats with
                 | OnDisk => chunks ← getfeatures f; Done (InMemory chunks)
                 | InMemory chunks => Done (InMemory chunks)
                 | NoFeatures => Raise TypeError
                 end);
  Done (mkEmbeddings feats input_size original_size, p, f).

(** [precompute_image_embeddings(predictor, input_, save_path,
    lazy_loading, ndim)].  Without a [save_path] no container is touched. *)
Definition precompute_image_embeddings (p : predictor) (input_ : ndarray)
           (save_path : option container) (lazy_loading : bool) (ndim : option Z)
  : outcome (image_embeddings * predictor * option container) :=
  let ndim := match ndim with None => ndim_of input_ | Some n => n end in
  if ndim =? 2 then
    match save_path with
    | None => '(r, p) ← _compute_2d input_ p; Done (r, p, None)
    | Some f => '(r, p, f) ← _precompute_2d input_ p f; Done (r, p, Some f)
    end
  else if ndim =? 3 then
    match save_path with
    | None => '(r, p) ← _compute_3d input_ p; Done (r, p, None)
    | Some f =>
        '(r, p, f) ← _precompute_3d input_ p f lazy_loading; Done (r, p, Some f)
    end
  else Raise InvalidDimensionality.

(** *** Vocabulary for the properties of the cache *)

(** What the encoder yields for slice [z_slice] of a stack. *)
Definition embed (z_slice : ndarray) : embedding := (sam (to_rgb z_slice)).1.1.
Definition original_size_of (z_slice : ndarray) : image_size := (sam (to_rgb z_slice)).1.2.
Definition input_size_of (z_slice : ndarray) : image_size := (sam (to_rgb z_slice)).2.

(** A stored chunk that the loop takes for not yet computed. *)
Definition stale (chunk : embedding) : bool := Nat.eqb (count_nonzero chunk) 0.

(** The slices the loop computes when it meets the chunks [todo] for the
    slices [rest] from index [z] on: those whose chunk is all zero. *)
Fixpoint pending (z : nat) (todo : list embedding) (rest : list ndarray)
  : list (nat * ndarray) :=
  match todo, rest with
  | chunk :: todo', z_slice :: rest' =>
      (if stale chunk then [(z, z_slice)] else []) ++ pending (S z) todo' rest'
  | _, _ => []
  end.

(** The slices a run on the container [f] computes: all of them when the
    container has no array yet, else those whose chunk is all zero. *)
Definition recomputed (f : container) (all : list ndarray) : list (nat * ndarray) :=
  match features f with
  | Some chunks => pending 0 chunks all
  | None => zip (seq 0 (length all)) all
  end.

(** A container on which a computation of the stack [all] can be resumed:
    not marked complete, and each chunk it holds is the embedding of its
    slice or still all zero. *)
Definition resumable (f : container) (all : list ndarray) : Prop :=
  attrs f !! "input_size" = None
  /\ match features f with
     | Some chunks =>
         Forall2 (fun chunk z_slice => chunk = embed z_slice \/ stale chunk = true)
                 chunks all
     | None => True
     end.

(** The sizes left in the local variables by the slices computed. *)
Definition last_size (size_of : ndarray -> image_size) (computed : list (nat * ndarray))
           (before : option image_size) : option image_size :=
  match last computed with
  | Some (_, z_slice) => Some (size_of z_slice)
  | None => before
  end.

End Embeddings.

(** Stubs for concrete runs: an array is a list of integers, a stack has
    one slice per integer, and the encoder embeds a slice to its content
    and reports sizes that depend on the slice. *)
Definition stub_ndim (a : list Z) : Z := 3.
Definition stub_slices (a : list Z) : list (list Z) := map (fun x => [x]) a.
Definition stub_to_image (a : list Z) : option (list Z) := Some a.
Definition stub_to_rgb (a : list Z) : list Z := a.
Definition stub_sam (a : list Z) : embedding * image_size * image_size :=
  (a, (hd 0 a, hd 0 a), (hd 0 a + 1, hd 0 a + 1)).

(** The attribute writes of a journal, in order. *)
Definition attr_writes (j : list store_event) : list string :=
  omap (fun e => match e with SetAttr key => Some key | _ => None end) j.

End Util.

(** ** micro_sam/sam_annotator/annotator_3d.py *)

Module Annotator3d.

(** Where the prompt of a written slice came from: the slice next to it
    ([segment_range]) or the union of two slices (the combined mask). *)
Inductive source : Type :=
| FromSlice (z : Z)
| FromUnion (a b : Z).

(** The volume [seg], mutated in place, and the progress bar: [None] when
    [progress_bar is None], else the number of [update(1)] calls.  [trace]
    is not a Python value: it records every assignment [seg[z] = ...] made
    so far, in order, with the source of the prompt of the slice. *)
Record state : Type := mkState {
  seg : list mask;
  trace : list (Z * source);
  progress_bar : option nat
}.

(** numpy indexing along axis 0: a negative index counts from the end. *)
Definition index (n : nat) (i : Z) : outcome nat :=
  if (0 <=? i) && (i <? Z.of_nat n) then Done (Z.to_nat i)
  else if (- Z.of_nat n <=? i) && (i <? 0) then Done (Z.to_nat (Z.of_nat n + i))
  else Raise IndexError.

(** [seg[i]] *)
Definition getitem (v : list mask) (i : Z) : outcome mask :=
  k ← index (length v) i;
  match v !! k with
  | Some m => Done m
  | None => Raise IndexError
  end.

(** [seg[i] = m]; the trace gets the position that was assigned. *)
Definition setitem (st : state) (i : Z) (m : mask) (src : source) : outcome state :=
  k ← index (length (seg st)) i;
  Done (mkState (<[k := m]> (seg st)) (trace st ++ [(Z.of_nat k, src)])
                (progress_bar st)).

(** [_update_progress()] *)
Definition _update_progress (st : state) : state :=
  mkState (seg st) (trace st)
          (match progress_bar st with
           | Some n => Some (S n)
           | None => None
           end).

(** [iou < threshold] on binary64 numbers, when a threshold is given *)
Definition below_threshold (iou : float) (threshold : option float) : bool :=
  match threshold with
  | Some t => PrimFloat.ltb iou t
  | None => false
  end.

(** [np.logical_or(seg[a] == 1, seg[b] == 1)] *)
Definition combined_prompt (ma mb : mask) : mask :=
  as_mask (logical_or (eq1 ma) (eq1 mb)).

Section SegmentVolume.

(** [segment_from_mask(predictor, prompt, image_embeddings=..., i=z,
    use_mask=..., use_box=...)], with the predictor and the embeddings of
    the call fixed: the segmentation oracle. *)
Variable segment_from_mask : mask -> Z -> bool -> bool -> mask.

(** The body of [while True] in [segment_range], entered with the
    current [z]. *)
Fixpoint segment_range_loop (fuel : nat) (use_mask use_box : bool)
         (z_stop increment : Z) (stopping_criterion : Z -> Z -> bool)
         (threshold : option float) (z : Z) (st : state) : outcome state :=
  match fuel with
  | O => Timeout
  | S fuel' =>
      seg_prev ← getitem (seg st) (z - increment);
      let seg_z := segment_from_mask seg_prev z use_mask use_box in
      if below_threshold (Util.compute_iou_f64 seg_prev seg_z) threshold
      then Done st
      else
        st ← setitem st z seg_z (FromSlice (z - increment));
        let z := z + increment in
        if stopping_criterion z z_stop then Done st
        else segment_range_loop fuel' use_mask use_box z_stop increment
                                stopping_criterion threshold z
                                (_update_progress st)
  end.

(** [segment_range(z_start, z_stop, increment, stopping_criterion,
    threshold)] *)
Definition segment_range (fuel : nat) (use_mask use_box : bool)
           (z_start z_stop increment : Z) (stopping_criterion : Z -> Z -> bool)
           (threshold : option float) (st : state) : outcome state :=
  segment_range_loop fuel use_mask use_box z_stop increment
                     stopping_criterion threshold (z_start + increment) st.

(** Segmenting slice [z] from the combined mask of slices [a] and [b]. *)
Definition segment_combined (use_mask use_box : bool) (z a b : Z) (st : state)
  : outcome state :=
  ma ← getitem (seg st) a;
  mb ← getitem (seg st) b;
  let seg_prompt := combined_prompt ma mb in
  st ← setitem st z (segment_from_mask seg_prompt z use_mask use_box)
               (FromUnion a b);
  Done (_update_progress st).

(** The body of the loop over [zip(segmented_slices[:-1],
    segmented_slices[1:])]. *)
Definition segment_between (fuel : nat) (use_mask use_box : bool)
           (z0 z1 : Z) (stop_lower stop_upper : bool)
           (st : state) (pair : Z * Z) : outcome state :=
  let '(z_start, z_stop) := pair in
  let slice_diff := z_stop - z_start in
  let z_mid := (z_start + z_stop) `div` 2 in
  if slice_diff =? 1 then Done st
  else if (z_start =? z0) && stop_lower then
    segment_range fuel use_mask use_box z_stop z_start (-1) Z.leb None st
  else if (z_stop =? z1) && stop_upper then
    segment_range fuel use_mask use_box z_start z_stop 1 Z.geb None st
  else if slice_diff =? 2 then
    segment_combined use_mask use_box (z_start + 1) z_start z_stop st
  else
    st ← segment_range fuel use_mask use_box z_start z_mid 1
           (if slice_diff `mod` 2 =? 0 then Z.geb else Z.gtb) None st;
    st ← segment_range fuel use_mask use_box z_stop z_mid (-1) Z.leb None st;
    if slice_diff `mod` 2 =? 0
    then segment_combined use_mask use_box z_mid (z_mid - 1) (z_mid + 1) st
    else Done st.

(** A [for] loop whose body can raise. *)
Fixpoint for_each {A : Type} (body : state -> A -> outcome state)
         (items : list A) (st : state) : outcome state :=
  match items with
  | [] => Done st
  | x :: items' => st ← body st x; for_each body items' st
  end.

(** [zip(segmented_slices[:-1], segmented_slices[1:])] *)
Definition consecutive (segmented_slices : list Z) : list (Z * Z) :=
  zip (take (length segmented_slices - 1) segmented_slices)
      (drop 1 segmented_slices).

(** [segmented_slices.min()] and [.max()] of a non-empty array *)
Definition array_min (x : Z) (xs : list Z) : Z := foldr Z.min x xs.
Definition array_max (x : Z) (xs : list Z) : Z := foldr Z.max x xs.

(** [_segment_volume(seg, predictor, image_embeddings, segmented_slices,
    stop_lower, stop_upper, iou_threshold, projection, progress_bar)] *)
Definition _segment_volume (fuel : nat) (seg0 : list mask)
           (segmented_slices : list Z) (stop_lower stop_upper : bool)
           (iou_threshold : float) (projection : string)
           (progress_bar0 : option nat) : outcome state :=
  if negb (String.eqb projection "mask" || String.eqb projection "bounding_box")
  then Raise InvalidProjection
  else
    let '(use_mask, use_box) :=
      if String.eqb projection "mask" then (true, true) else (false, true) in
    match segmented_slices with
    | [] => Raise EmptyAnnotationSet
    | s :: rest =>
        let z0 := array_min s rest in
        let z1 := array_max s rest in
        let st := mkState seg0 [] progress_bar0 in
        (* segment below the min slice *)
        st ← (if (0 <? z0) && negb stop_lower
              then segment_range fuel use_mask use_box z0 0 (-1) Z.ltb
                                 (Some iou_threshold) st
              else Done st);
        (* segment above the max slice *)
        st ← (if (z1 <? Z.of_nat (length (seg st)) - 1) && negb stop_upper
              then segment_range fuel use_mask use_box z1
                                 (Z.of_nat (length (seg st)) - 1) 1 Z.gtb
                                 (Some iou_threshold) st
              else Done st);
        (* segment in between min and max slice *)
        if negb (z0 =? z1)
        then for_each (segment_between fuel use_mask use_box z0 z1
                                       stop_lower stop_upper)
                      (consecutive segmented_slices) st
        else Done st
    end.

(** [segment_volume_widget(v, iou_threshold, projection)] from the point
    where [segment_slices_with_prompts] has returned [seg], the annotated
    slices and the two stop flags and has left the progress bar at
    [updates]; [shape] is [v.layers["raw"].data.shape]. *)
Definition segment_volume_widget (fuel : nat) (shape : Z * Z * Z)
           (prompted : list mask * list Z * bool * bool) (updates : nat)
           (iou_threshold : float) (projection : string) : outcome state :=
  let projection_ :=
    if String.eqb projection "default"
    then (if shape.1.2 =? shape.2 then "mask" else "bounding_box")
    else projection in
  let '(seg, slices, stop_lower, stop_upper) := prompted in
  _segment_volume fuel seg slices stop_lower stop_upper iou_threshold
                  projection_ (Some updates).

End SegmentVolume.

(** *** Vocabulary for the properties of the engine *)

(** The mask at position [z] of a volume, for [0 <= z]. *)
Definition slice_at (v : list mask) (z : Z) : option mask :=
  if 0 <=? z then v !! Z.to_nat z else None.

(** The positions [z], [z + inc], ..., visited by [k] steps of a walk. *)
Definition steps (inc z : Z) (k : nat) : list Z :=
  map (fun i => z + inc * Z.of_nat i) (seq 0 k).

(** What [k] steps of a walk add to the trace: each slice is prompted by
    the one written just before it. *)
Definition walk_events (inc z : Z) (k : nat) : list (Z * source) :=
  map (fun p => (p, FromSlice (p - inc))) (steps inc z k).

(** [n] more calls of [progress_bar.update(1)]. *)
Definition add_progress (n : nat) (bar : option nat) : option nat :=
  match bar with
  | Some m => Some (n + m)%nat
  | None => None
  end.

(** What a call of [segment_range] that starts writing at [z], moves by
    [inc] and would meet its stopping criterion after [n] slices has done
    when it leaves [st'] from [st] after writing [k] slices. *)
Record walked (oracle : mask -> Z -> bool -> bool -> mask)
       (use_mask use_box : bool) (inc : Z) (threshold : option float)
       (n : nat) (z : Z) (st st' : state) (k : nat) : Prop := mkWalked {
  (* at most [n] slices are written, all of them without a threshold *)
  w_le : (k <= n)%nat;
  w_full : threshold = None -> k = n;
  w_length : length (seg st') = length (seg st);
  (* the slices written, in order, each prompted by its neighbour *)
  w_trace : trace st' = trace st ++ walk_events inc z k;
  (* the progress bar misses the slice that meets the stopping criterion *)
  w_progress :
    progress_bar st'
    = add_progress (if decide (k = n) then n - 1 else k) (progress_bar st);
  (* nothing else changes *)
  w_frame : forall j, j ∉ steps inc z k -> slice_at (seg st') j = slice_at (seg st) j;
  (* every written slice is the oracle's answer to the final mask of its
     neighbour, and passed the threshold *)
  w_data : forall p, p ∈ steps inc z k ->
    exists prev,
      slice_at (seg st') (p - inc) = Some prev
      /\ slice_at (seg st') p = Some (oracle prev p use_mask use_box)
      /\ below_threshold
           (Util.compute_iou_f64 prev (oracle prev p use_mask use_box)) threshold
         = false;
  (* an early stop is due to the threshold, at the first slice not written *)
  w_stop : (k < n)%nat ->
    exists prev,
      slice_at (seg st') (z + inc * Z.of_nat k - inc) = Some prev
      /\ below_threshold
           (Util.compute_iou_f64 prev
              (oracle prev (z + inc * Z.of_nat k) use_mask use_box)) threshold
         = true
}.

(** [st'] comes from [st] by assignments inside the volume, with at most
    one progress update per assignment. *)
Definition extends (st st' : state) : Prop :=
  length (seg st') = length (seg st)
  /\ exists added d,
      trace st' = trace st ++ added
      /\ Forall (fun e => 0 <= e.1 < Z.of_nat (length (seg st))) added
      /\ progress_bar st' = add_progress d (progress_bar st)
      /\ (d <= length added)%nat.

(** The shape of a slice: the lengths of its rows. *)
Definition shape_of (m : mask) : list nat := map length m.

(** The only exception a call can end in is an [IndexError]. *)
Definition only_index_error {A} (o : outcome A) : Prop :=
  match o with
  | Raise e => e = IndexError
  | _ => True
  end.

(** The slices the general case ([slice_diff > 2]) writes between
    [z_start] and [z_stop], in order, each with the source of its prompt:
    the forward walk, the backward walk, and the middle slice from the
    union of its neighbours when the gap is even. *)
Definition general_events (z_start z_stop : Z) : list (Z * source) :=
  let z_mid := (z_start + z_stop) `div` 2 in
  let even := (z_stop - z_start) `mod` 2 =? 0 in
  let up_end := if even then z_mid - 1 else z_mid in
  walk_events 1 (z_start + 1) (Z.to_nat (up_end - z_start))
  ++ walk_events (-1) (z_stop - 1) (Z.to_nat (z_stop - 1 - z_mid))
  ++ (if even then [(z_mid, FromUnion (z_mid - 1) (z_mid + 1))] else []).

(** The slices written between one pair of annotated slices. *)
Definition gap_events (z0 z1 : Z) (stop_lower stop_upper : bool)
           (pair : Z * Z) : list (Z * source) :=
  let '(z_start, z_stop) := pair in
  let slice_diff := z_stop - z_start in
  if slice_diff =? 1 then []
  else if (z_start =? z0) && stop_lower
       then walk_events (-1) (z_stop - 1) (Z.to_nat (slice_diff - 1))
  else if (z_stop =? z1) && stop_upper
       then walk_events 1 (z_start + 1) (Z.to_nat (slice_diff - 1))
  else if slice_diff =? 2 then [(z_start + 1, FromUnion z_start z_stop)]
  else general_events z_start z_stop.

(** The annotated slices are sorted in ascending order, without repeats. *)
Fixpoint ascending (l : list Z) : bool :=
  match l with
  | a :: (b :: _) as t => (a <? b) && ascending t
  | _ => true
  end.

(** The two projection modes and the strings that select them. *)
Inductive projection_mode : Type := MaskProjection | BoundingBoxProjection.

Definition projection_name (p : projection_mode) : string :=
  match p with
  | MaskProjection => "mask"
  | BoundingBoxProjection => "bounding_box"
  end.

(** [use_mask] as [_segment_volume] derives it; [use_box] is always set. *)
Definition use_mask_of (p : projection_mode) : bool :=
  match p with
  | MaskProjection => true
  | BoundingBoxProjection => false
  end.

(** A stub oracle that returns its prompt unchanged. *)
Definition echo (prompt : mask) (z : Z) (use_mask use_box : bool) : mask := prompt.

(** A stub oracle that returns its prompt on the slices [keep] and an
    empty 3x3 mask on every other slice. *)
Definition fading (keep : list Z) (prompt : mask) (z : Z)
           (use_mask use_box : bool) : mask :=
  if bool_decide (z ∈ keep) then prompt else [[0; 0; 0]; [0; 0; 0]; [0; 0; 0]].

(** Three 3x3 masks: foreground [{(1,1)}], foreground [{(2,2)}], empty. *)
Definition mask_A : mask := [[0; 0; 0]; [0; 1; 0]; [0; 0; 0]].
Definition mask_B : mask := [[0; 0; 0]; [0; 0; 0]; [0; 0; 1]].
Definition mask_0 : mask := [[0; 0; 0]; [0; 0; 0]; [0; 0; 0]].

(** The pixel in row [r], column [c]. *)
Definition pixel (m : mask) (r c : nat) : option Z :=
  match m !! r with
  | Some row => row !! c
  | None => None
  end.

End Annotator3d.

(** ** micro_sam/util.py: the model checkpoints *)

Module Checkpoint.

(** [MODEL_URLS] and [CHECKSUMS]; the value of a Python dictionary can be
    [None]. *)
Definition MODEL_URLS : gmap string string :=
  list_to_map
    [("vit_h", "https://dl.fbaipublicfiles.com/segment_anything/sam_vit_h_4b8939.pth");
     ("vit_l", "https://dl.fbaipublicfiles.com/segment_anything/sam_vit_l_0b3195.pth");
     ("vit_b", "https://dl.fbaipublicfiles.com/segment_anything/sam_vit_b_01ec64.pth")].

Definition CHECKSUMS : gmap string (option string) :=
  list_to_map
    [("vit_h", Some "a7bf3b02f3ebf1267aba913ff637d9a2d5c33d3173bb679e46d9f338c26f262e");
     ("vit_l", Some "3adcc4315b642a4d2101128f611684e8734c41232a17c648ed1693702a49a622");
     ("vit_b", Some "ec2df62732614e57411cdcf32a23ffdf28910380d03139ee0f4fcbe91eb8c912")].

(** The character ["/"]. *)
Definition sep : Ascii.ascii := Ascii.ascii_of_nat 47.

(** [s.split("/")[-1]]: what follows the last ["/"] of [s]. *)
Fixpoint split_last (acc s : string) : string :=
  match s with
  | EmptyString => acc
  | String c s' =>
      if Ascii.eqb c sep then split_last EmptyString s'
      else split_last (acc +:+ String c EmptyString) s'
  end.

Definition startswith_sep (s : string) : bool :=
  match s with
  | String c _ => Ascii.eqb c sep
  | EmptyString => false
  end.

Fixpoint endswith_sep (s : string) : bool :=
  match s with
  | EmptyString => false
  | String c EmptyString => Ascii.eqb c sep
  | String _ s' => endswith_sep s'
  end.

(** [os.path.join(a, b)] of [posixpath] *)
Definition join (a b : string) : string :=
  if startswith_sep b then b
  else if String.eqb a EmptyString || endswith_sep a then a +:+ b
  else a +:+ "/" +:+ b.

(** The content of a file or of a response. *)
Definition content : Type := list Byte.byte.

(** What the functions see and change outside the program: the files by
    path, and the URLs requested so far, in order.  Directories are not
    modelled: [os.makedirs(CHECKPOINT_FOLDER, exist_ok=True)] succeeds and
    a file can be created at any path. *)
Record world : Type := mkWorld {
  files : gmap string content;
  requests : list string
}.

(** The exceptions of [_download] and [_get_checkpoint]. *)
Inductive exn : Type :=
| ConnectionError        (* [requests.get] itself failed *)
| HTTPError              (* [r.raise_for_status()] on a 4xx or 5xx status *)
| RuntimeError_status    (* any other status that is not 200 *)
| RuntimeError_checksum  (* the checksums differ *)
| FileNotFoundError      (* [open(path, "rb")] on a missing file *)
| ValueError             (* the checkpoint path passed does not exist *)
| KeyError.              (* [MODEL_URLS[model_type]], [CHECKSUMS[model_type]] *)

(** A call returns or raises, and leaves a world in both cases. *)
Inductive result (A : Type) : Type :=
| Ok (a : A) (w : world)
| Err (e : exn) (w : world).
Arguments Ok {A} a w.
Arguments Err {A} e w.

Definition world_of {A} (r : result A) : world :=
  match r with
  | Ok _ w => w
  | Err _ w => w
  end.

(** [os.path.exists(path)] *)
Definition exists_ (w : world) (path : string) : bool :=
  bool_decide (is_Some (files w !! path)).

Section Download.

(** [CHECKPOINT_FOLDER], read from the environment at import time. *)
Variable CHECKPOINT_FOLDER : string.
(** The network: the status code and the body that a GET of a URL yields,
    or [None] when the request itself fails. *)
Variable server : string -> option (Z * content).
(** [hashlib.sha256(file_).hexdigest()] *)
Variable sha256 : content -> string.

(** [_download(url, path, model_type)] *)
Definition _download (url path model_type : string) (w : world) : result unit :=
  let w := mkWorld (files w) (requests w ++ [url]) in
  match server url with
  | None => Err ConnectionError w
  | Some (status_code, body) =>
      if negb (status_code =? 200) then
        if (400 <=? status_code) && (status_code <? 600)
        then Err HTTPError w
        else Err RuntimeError_status w
      else
        (* [copyfileobj(r_raw, f)] on [open(path, "wb")] *)
        let w := mkWorld (<[path := body]> (files w)) (requests w) in
        (* validate the checksum *)
        match CHECKSUMS !! model_type with
        | None => Err KeyError w
        | Some None => Ok tt w
        | Some (Some expected_checksum) =>
            match files w !! path with
            | None => Err FileNotFoundError w
            | Some file_ =>
                if negb (String.eqb (sha256 file_) expected_checksum)
                then Err RuntimeError_checksum w
                else Ok tt w
            end
        end
  end.

(** [_get_checkpoint(model_type, checkpoint_path)] *)
Definition _get_checkpoint (model_type : string) (checkpoint_path : option string)
           (w : world) : result string :=
  match checkpoint_path with
  | None =>
      match MODEL_URLS !! model_type with
      | None => Err KeyError w
      | Some checkpoint_url =>
          let checkpoint_name := split_last EmptyString checkpoint_url in
          let checkpoint_path := join CHECKPOINT_FOLDER checkpoint_name in
          (* download the checkpoint if necessary *)
          if negb (exists_ w checkpoint_path) then
            match _download checkpoint_url checkpoint_path model_type w with
            | Ok _ w => Ok checkpoint_path w
            | Err e w => Err e w
            end
          else Ok checkpoint_path w
      end
  | Some checkpoint_path =>
      if negb (exists_ w checkpoint_path) then Err ValueError w
      else Ok checkpoint_path w
  end.

(** The path under which the checkpoint of a model type is kept. *)
Definition default_path (model_type : string) : option string :=
  url ← MODEL_URLS !! model_type;
  Some (join CHECKPOINT_FOLDER (split_last EmptyString url)).

End Download.

(** Stubs for concrete runs: a server that answers every request with the
    status 200 and a one-byte body, and a digest that is never one of the
    expected checksums. *)
Definition stub_server (url : string) : option (Z * content) :=
  Some (200, [Byte.x2a]).
Definition stub_sha256 (c : content) : string := "00".
(** A digest that gives every file the checksum expected for [vit_b]. *)
Definition vit_b_sha256 (c : content) : string :=
  "ec2df62732614e57411cdcf32a23ffdf28910380d03139ee0f4fcbe91eb8c912".
Definition new_world : world := mkWorld ∅ [].

End Checkpoint.

(** ** micro_sam/util.py: images *)

Module Image.

(** The element type of an array: [uint8] or anything else. *)
Inductive dtype : Type := UInt8 | OtherDtype.

(** A numpy array: its element type, its shape and its elements in row-major
    order.  Every finite element is a rational. *)
Record ndarray : Type := mkArray {
  dtype_of : dtype;
  shape : list nat;
  data : list Q
}.

(** The number of elements fits the shape. *)
Definition well_formed (a : ndarray) : Prop :=
  length (data a) = foldr Nat.mul 1%nat (shape a).

(** [a.ndim] *)
Definition ndim (a : ndarray) : Z := Z.of_nat (length (shape a)).

(** [np.concatenate([a[..., None]] * 3, axis=-1)]: a new last axis of
    length 3 that repeats every element. *)
Definition stack3 (a : ndarray) : ndarray :=
  mkArray (dtype_of a) (shape a ++ [3%nat]) (flat_map (fun x => [x; x; x]) (data a)).

(** [n] consecutive pieces of [k] elements. *)
Fixpoint pieces {A} (k n : nat) (l : list A) : list (list A) :=
  match n with
  | O => []
  | S n' => take k l :: pieces k n' (drop k l)
  end.

(** Iteration over the first axis: [for z_slice in a]. *)
Definition slices_of (a : ndarray) : list ndarray :=
  match shape a with
  | [] => []
  | n :: rest =>
      map (mkArray (dtype_of a) rest) (pieces (foldr Nat.mul 1%nat rest) n (data a))
  end.

Section ToImage.

(** The normalisation of [_to_image] in [float32] arithmetic,
    [((a - a.min()) / (a - a.min()).max() * 255).astype("uint8")], on the
    elements of an array. *)
Variable rescale : list Q -> list Q.

(** [_to_image(input_)]; [None] stands for a [ValueError]: its own, or
    the one of [input_.min()] on an array without elements. *)
Definition _to_image (input_ : ndarray) : option ndarray :=
  (* we require the input to be uint8 *)
  input_ ← match dtype_of input_, data input_ with
            | UInt8, _ => Some input_
            | OtherDtype, [] => None
            | OtherDtype, _ =>
                Some (mkArray UInt8 (shape input_) (rescale (data input_)))
            end;
  if ndim input_ =? 2 then Some (stack3 input_)
  else if (ndim input_ =? 3) && bool_decide (last (shape input_) = Some 3%nat)
  then Some input_
  else None.

(** The array [_to_image] goes on with after its first step, when that
    step does not raise. *)
Definition as_uint8 (a : ndarray) : ndarray :=
  match dtype_of a with
  | UInt8 => a
  | OtherDtype => mkArray UInt8 (shape a) (rescale (data a))
  end.

End ToImage.

(** A stub for concrete runs: the normalisation leaves the elements as
    they are. *)
Definition stub_rescale (l : list Q) : list Q := l.
(** A 2x2 grayscale image and a 1x2 RGB image. *)
Definition gray_2x2 : ndarray := mkArray UInt8 [2; 2]%nat [1; 2; 3; 4]%Q.
Definition rgb_1x2 : ndarray := mkArray UInt8 [1; 2; 3]%nat [1; 2; 3; 4; 5; 6]%Q.

End Image.

(** * Properties *)

(** ** The overlap metric *)

Module UtilFacts.
Import Util.

Lemma count_true_nonneg (row : list bool) : 0 <= count_true row.
Proof. induction row as [|[] row IH]; simpl; lia. Qed.

Lemma sum_nonneg (a : list (list bool)) : 0 <= sum a.
Proof.
  induction a as [|row a IH]; simpl; [lia|].
  pose proof (count_true_nonneg row). lia.
Qed.








Lemma is_empty_union (a b : mask) :
  is_empty a = true -> is_empty b = true ->
  sum (logical_or (eq1 a) (eq1 b)) = 0.
Proof.
  unfold is_empty, logical_or, eq1. revert b.
  induction a as [|r a IH]; intros [|s b]; simpl; try done.
  intros [Hr Ha]%andb_prop [Hs Hb]%andb_prop. rewrite (IH b Ha Hb).
  enough (count_true (zip_with orb (map is_one r) (map is_one s)) = 0) by lia.
  clear -Hr Hs. revert s Hr Hs.
  induction r as [|x r IHr]; intros [|y s]; simpl; try done.
  intros [Hx Hr]%andb_prop [Hy Hs]%andb_prop. rewrite (IHr s Hr Hs).
  destruct (is_one x), (is_one y); simpl in *; done.
Qed.

(** The counts of [compute_iou] are the sizes of the intersection and of
    the union of the two foregrounds. *)
Lemma elem_of_row_positions (r c : nat) (row : list bool) (q : nat * nat) :
  q ∈ row_positions r c row
  <-> q.1 = r /\ (c <= q.2)%nat /\ row !! (q.2 - c)%nat = Some true.
Proof.
  revert c. induction row as [|b row IH]; intros c; simpl.
  { rewrite elem_of_empty. split; [done|]. by intros (_ & _ & ?). }
  rewrite elem_of_union, IH. destruct q as [r' c']. simpl. split.
  - intros [H|(-> & Hc & H)].
    + destruct b; [|by apply elem_of_empty in H].
      apply elem_of_singleton in H. injection H as -> ->.
      by rewrite Nat.sub_diag.
    + split; [done|]. split; [lia|].
      by replace (c' - c)%nat with (S (c' - S c)) by lia.
  - intros (-> & Hc & H). destruct (decide (c' = c)) as [->|Hne].
    + rewrite Nat.sub_diag in H. injection H as ->. left.
      by apply elem_of_singleton.
    + right. split; [done|]. split; [lia|].
      by replace (c' - c)%nat with (S (c' - S c)) in H by lia.
Qed.

Lemma elem_of_positions (r : nat) (a : list (list bool)) (q : nat * nat) :
  q ∈ positions r a
  <-> (r <= q.1)%nat
      /\ exists row, a !! (q.1 - r)%nat = Some row /\ row !! q.2 = Some true.
Proof.
  revert r. induction a as [|row a IH]; intros r; simpl.
  { rewrite elem_of_empty. split; [done|]. by intros (_ & ? & ? & _). }
  rewrite elem_of_union, IH, elem_of_row_positions.
  destruct q as [r' c']. simpl. rewrite Nat.sub_0_r. split.
  - intros [(-> & _ & H)|(Hr & row' & H1 & H2)].
    + split; [done|]. exists row. by rewrite Nat.sub_diag.
    + split; [lia|]. exists row'.
      by replace (r' - r)%nat with (S (r' - S r)) by lia.
  - intros (Hr & row' & H1 & H2). destruct (decide (r' = r)) as [->|Hne].
    + rewrite Nat.sub_diag in H1. injection H1 as ->. left.
      split; [done|]. split; [lia|done].
    + right. split; [lia|]. exists row'.
      by replace (r' - r)%nat with (S (r' - S r)) in H1 by lia.
Qed.

Lemma elem_of_foreground (m : mask) (r c : nat) :
  (r, c) ∈ foreground m
  <-> exists row x, m !! r = Some row /\ row !! c = Some x /\ x = 1.
Proof.
  unfold foreground, eq1, mask in *. rewrite elem_of_positions. simpl.
  rewrite Nat.sub_0_r. split.
  - intros (_ & brow & H1 & H2).
    change (map (map is_one) m) with (map is_one <$> m) in H1.
    rewrite list_lookup_fmap in H1.
    destruct (m !! r) as [row|] eqn:Hrow; [|done]. injection H1 as <-.
    change (map is_one row) with (is_one <$> row) in H2.
    rewrite list_lookup_fmap in H2.
    destruct (row !! c) as [x|] eqn:Hx; [|done]. injection H2 as H2.
    exists row, x. split; [done|]. split; [done|].
    unfold is_one in H2. by apply Z.eqb_eq.
  - intros (row & x & H1 & H2 & ->). split; [lia|].
    exists (map is_one row).
    change (map (map is_one) m) with (map is_one <$> m).
    change (map is_one row) with (is_one <$> row).
    by rewrite !list_lookup_fmap, H1, H2.
Qed.

Lemma size_row_positions (r c : nat) (row : list bool) :
  Z.of_nat (size (row_positions r c row)) = count_true row.
Proof.
  revert c. induction row as [|b row IH]; intros c; simpl; [done|].
  rewrite size_union.
  - rewrite Nat2Z.inj_add, IH. f_equal.
    destruct b; [by rewrite size_singleton|by rewrite size_empty].
  - intros q Hq (_ & Hc & _)%elem_of_row_positions.
    destruct b; [|by apply elem_of_empty in Hq].
    apply elem_of_singleton in Hq as ->. simpl in Hc. lia.
Qed.

Lemma size_positions (r : nat) (a : list (list bool)) :
  Z.of_nat (size (positions r a)) = sum a.
Proof.
  revert r. induction a as [|row a IH]; intros r; simpl; [done|].
  rewrite size_union.
  - by rewrite Nat2Z.inj_add, IH, size_row_positions.
  - intros q (Hr & _)%elem_of_row_positions (Hr' & _)%elem_of_positions. lia.
Qed.

Lemma positions_and (a b : list (list bool)) :
  positions 0 (logical_and a b) = positions 0 a ∩ positions 0 b.
Proof.
  apply set_eq. intros [r c].
  rewrite elem_of_intersection, !elem_of_positions. simpl.
  rewrite Nat.sub_0_r. unfold logical_and. rewrite lookup_zip_with.
  destruct (a !! r) as [ra|], (b !! r) as [rb|]; simpl;
    try (split; [by intros (_ & ? & ? & _)
                | by intros [(_ & ? & ? & _) (_ & ? & ? & _)]]).
  split.
  - intros (_ & row & H1 & H2). injection H1 as <-.
    rewrite lookup_zip_with in H2.
    destruct (ra !! c) as [x|] eqn:Hx, (rb !! c) as [y|] eqn:Hy;
      simpl in H2; try done.
    injection H2 as H2. apply andb_prop in H2 as [-> ->].
    split; (split; [lia|eauto]).
  - intros [(_ & row1 & H1 & H2) (_ & row2 & H3 & H4)].
    injection H1 as <-. injection H3 as <-. split; [lia|].
    eexists. split; [done|]. by rewrite lookup_zip_with, H2, H4.
Qed.

Lemma positions_or (a b : list (list bool)) :
  same_shape a b ->
  positions 0 (logical_or a b) = positions 0 a ∪ positions 0 b.
Proof.
  intros Hshape. apply set_eq. intros [r c].
  rewrite elem_of_union, !elem_of_positions. simpl.
  rewrite Nat.sub_0_r. unfold logical_or. rewrite lookup_zip_with.
  destruct (a !! r) as [ra|] eqn:Ha, (b !! r) as [rb|] eqn:Hb; simpl.
  - assert (Hlen : length ra = length rb).
    { by apply (Forall2_lookup_lr _ _ _ r ra rb Hshape). }
    split.
    + intros (_ & row & H1 & H2). injection H1 as <-.
      rewrite lookup_zip_with in H2.
      destruct (ra !! c) as [x|] eqn:Hx, (rb !! c) as [y|] eqn:Hy;
        simpl in H2; try done.
      injection H2 as H2. apply orb_prop in H2 as [-> | ->];
        [left|right]; (split; [lia|eauto]).
    + intros H. split; [lia|]. eexists. split; [done|].
      rewrite lookup_zip_with.
      destruct (ra !! c) as [x|] eqn:Hx, (rb !! c) as [y|] eqn:Hy; simpl.
      * destruct H as [(_ & ? & H1 & H2)|(_ & ? & H1 & H2)];
          injection H1 as <-; [rewrite Hx in H2|rewrite Hy in H2];
          injection H2 as ->; [done|by destruct x].
      * apply lookup_lt_Some in Hx. apply lookup_ge_None in Hy. lia.
      * apply lookup_lt_Some in Hy. apply lookup_ge_None in Hx. lia.
      * destruct H as [(_ & ? & H1 & H2)|(_ & ? & H1 & H2)];
          injection H1 as <-; congruence.
  - exfalso. apply (Forall2_length _ _ _) in Hshape as Hlen.
    apply lookup_lt_Some in Ha. apply lookup_ge_None in Hb. lia.
  - exfalso. apply (Forall2_length _ _ _) in Hshape as Hlen.
    apply lookup_lt_Some in Hb. apply lookup_ge_None in Ha. lia.
  - split; [by intros (_ & ? & ? & _)|].
    by intros [(_ & ? & ? & _)|(_ & ? & ? & _)].
Qed.

Lemma same_shape_eq1 (a b : mask) : same_shape a b -> same_shape (eq1 a) (eq1 b).
Proof.
  unfold same_shape, eq1. induction 1 as [|r s a b Hrs _ IH]; simpl; constructor;
    [by rewrite !length_map|done].
Qed.

Lemma overlap_is_intersection (a b : mask) :
  sum (logical_and (eq1 a) (eq1 b))
  = Z.of_nat (size (foreground a ∩ foreground b)).
Proof. unfold foreground. by rewrite <- positions_and, size_positions. Qed.

Lemma union_is_union (a b : mask) :
  same_shape a b ->
  sum (logical_or (eq1 a) (eq1 b))
  = Z.of_nat (size (foreground a ∪ foreground b)).
Proof.
  intros Hshape. unfold foreground.
  by rewrite <- positions_or, size_positions by by apply same_shape_eq1.
Qed.

(** [eps] turns the denominator into a positive rational. *)
Lemma denominator_value (n : Z) :
  (inject_Z n + eps == (n * 10000000 + 1) # 10000000)%Q.
Proof. unfold eps, Qeq, Qplus, inject_Z; simpl. lia. Qed.

Lemma quotient_value (o u : Z) :
  0 <= u ->
  (inject_Z o / (inject_Z u + eps)
   == (o * 10000000) # Z.to_pos (u * 10000000 + 1))%Q.
Proof.
  intros Hu. rewrite denominator_value. unfold Qdiv, Qinv. simpl Qnum.
  destruct (u * 10000000 + 1) as [|p|p] eqn:E; try lia.
  unfold Qeq, Qmult, inject_Z; simpl. lia.
Qed.

Lemma compute_iou_value (a b : mask) :
  (compute_iou a b
   == (sum (logical_and (eq1 a) (eq1 b)) * 10000000)
      # Z.to_pos (sum (logical_or (eq1 a) (eq1 b)) * 10000000 + 1))%Q.
Proof. unfold compute_iou. apply quotient_value, sum_nonneg. Qed.

Lemma compute_iou_nonneg (a b : mask) : (0 <= compute_iou a b)%Q.
Proof.
  rewrite compute_iou_value. unfold Qle; simpl.
  pose proof (sum_nonneg (logical_and (eq1 a) (eq1 b))). lia.
Qed.

(** *** The metric on binary64 numbers *)

Lemma binary_round_aux_unsigned (mx ex : Z) (lx : location) :
  unsigned_or_nan (binary_round_aux prec emax false mx ex lx).
Proof.
  unfold binary_round_aux.
  destruct (shr_fexp prec emax mx ex lx) as [mrs' e'].
  destruct (shr_fexp prec emax _ e' loc_Exact) as [mrs'' e''].
  destruct (shr_m mrs'') as [|m|m]; [done| |done].
  by destruct (e'' <=? emax - prec).
Qed.

Lemma binary_normalize_unsigned (m e : Z) :
  0 <= m -> unsigned_or_nan (binary_normalize prec emax m e false).
Proof.
  intros Hm. unfold binary_normalize. destruct m as [|m|m]; [done| |lia].
  unfold binary_round.
  destruct (shl_align m e _) as [mz ez]. apply binary_round_aux_unsigned.
Qed.

Lemma float_of_Z_unsigned (n : Z) : unsigned_or_nan (Prim2SF (float_of_Z n)).
Proof.
  unfold float_of_Z. rewrite FloatAxioms.of_uint63_spec.
  apply binary_normalize_unsigned. apply Uint63.to_Z_bounded.
Qed.

Lemma SFadd_unsigned (x y : spec_float) :
  unsigned_or_nan x -> unsigned_or_nan y ->
  unsigned_or_nan (SFadd prec emax x y).
Proof.
  destruct x as [sx|sx| |sx mx ex], y as [sy|sy| |sy my ey]; simpl;
    try done; intros -> ->; try done.
  apply binary_normalize_unsigned. simpl. lia.
Qed.

Lemma SFdiv_unsigned (x y : spec_float) :
  unsigned_or_nan x -> unsigned_or_nan y ->
  unsigned_or_nan (SFdiv prec emax x y).
Proof.
  destruct x as [sx|sx| |sx mx ex], y as [sy|sy| |sy my ey]; simpl;
    try done; intros -> ->; try done.
  destruct (SFdiv_core_binary _ _ _ _ _ _) as [[mz ez] lz].
  apply binary_round_aux_unsigned.
Qed.

Lemma SFltb_unsigned (x t : spec_float) :
  unsigned_or_nan x -> SFleb t (S754_zero false) = true -> SFltb x t = false.
Proof.
  unfold SFltb, SFleb.
  destruct x as [sx|sx| |sx mx ex], t as [st|st| |st mt et]; simpl;
    try done; try (intros ->; by destruct st).
Qed.

(** The binary64 metric never has its sign bit set. *)
Lemma compute_iou_f64_unsigned (a b : mask) :
  unsigned_or_nan (Prim2SF (compute_iou_f64 a b)).
Proof.
  unfold compute_iou_f64. rewrite FloatAxioms.div_spec, FloatAxioms.add_spec.
  apply SFdiv_unsigned; [apply float_of_Z_unsigned|].
  apply SFadd_unsigned; [apply float_of_Z_unsigned|]. vm_compute. reflexivity.
Qed.

(** So it is never below a threshold that is zero or negative. *)
Lemma compute_iou_f64_not_below (a b : mask) (t : float) :
  PrimFloat.leb t 0 = true -> PrimFloat.ltb (compute_iou_f64 a b) t = false.
Proof.
  rewrite FloatAxioms.leb_spec, FloatAxioms.ltb_spec. intros Ht.
  apply SFltb_unsigned; [apply compute_iou_f64_unsigned|exact Ht].
Qed.

(** It is the binary64 quotient of the number of pixels in both
    foregrounds by, for masks of one shape, the number of pixels in either
    plus [eps]. *)
Lemma compute_iou_f64_counts (a b : mask) :
  same_shape a b ->
  compute_iou_f64 a b
  = (float_of_Z (Z.of_nat (size (foreground a ∩ foreground b)))
     / (float_of_Z (Z.of_nat (size (foreground a ∪ foreground b)))
        + 0x1.ad7f29abcaf48p-24))%float.
Proof.
  intros Hshape. unfold compute_iou_f64.
  by rewrite overlap_is_intersection, union_is_union.
Qed.




(** The binary64 evaluation agrees: two identical masks with two
    foreground pixels do not give the binary64 number 1/(1+1e-7). *)
Example compute_iou_f64_two_pixels :
  let a : mask := [[1; 1]] in
  (compute_iou_f64 a a =? 1 / (1 + 0x1.ad7f29abcaf48p-24))%float = false
  /\ (compute_iou_f64 a a <? 1)%float = true.
Proof. split; vm_compute; reflexivity. Qed.








End UtilFacts.

(** ** The volume propagation engine *)

Module Annotator3dFacts.
Import Annotator3d.

Lemma bind_Done_l {A B} (a : A) (k : A -> outcome B) :
  Done a ≫= k = k a.
Proof. done. Qed.

Lemma index_in_range (n : nat) (i : Z) :
  0 <= i < Z.of_nat n -> index n i = Done (Z.to_nat i).
Proof.
  intros H. unfold index.
  destruct (0 <=? i) eqn:E1; [|lia]. destruct (i <? Z.of_nat n) eqn:E2; [done|lia].
Qed.

Lemma slice_at_in_range (v : list mask) (z : Z) :
  0 <= z < Z.of_nat (length v) -> is_Some (slice_at v z).
Proof.
  intros H. unfold slice_at. destruct (0 <=? z) eqn:E; [|lia].
  apply lookup_lt_is_Some. lia.
Qed.

Lemma getitem_in_range (v : list mask) (z : Z) (m : mask) :
  0 <= z -> slice_at v z = Some m -> getitem v z = Done m.
Proof.
  intros Hz H. unfold slice_at in H. destruct (0 <=? z) eqn:E; [|lia].
  unfold getitem. rewrite index_in_range.
  - simpl. unfold mbind, outcome_bind, bind. by rewrite H.
  - apply lookup_lt_Some in H. lia.
Qed.

Lemma setitem_in_range (st : state) (z : Z) (m : mask) (src : source) :
  0 <= z < Z.of_nat (length (seg st)) ->
  setitem st z m src
  = Done (mkState (<[Z.to_nat z := m]> (seg st)) (trace st ++ [(z, src)])
                  (progress_bar st)).
Proof.
  intros H. unfold setitem. rewrite index_in_range by done.
  unfold mbind, outcome_bind, bind. by rewrite Z2Nat.id by lia.
Qed.

Lemma slice_at_insert_eq (v : list mask) (z : Z) (m : mask) :
  0 <= z < Z.of_nat (length v) -> slice_at (<[Z.to_nat z := m]> v) z = Some m.
Proof.
  intros H. unfold slice_at. destruct (0 <=? z) eqn:E; [|lia].
  apply list_lookup_insert_eq. lia.
Qed.

Lemma slice_at_insert_ne (v : list mask) (z j : Z) (m : mask) :
  0 <= z -> j <> z -> slice_at (<[Z.to_nat z := m]> v) j = slice_at v j.
Proof.
  intros Hz Hne. unfold slice_at. destruct (0 <=? j) eqn:E; [|done].
  apply list_lookup_insert_ne. lia.
Qed.

Lemma steps_S (inc z : Z) (k : nat) :
  steps inc z (S k) = z :: steps inc (z + inc) k.
Proof.
  unfold steps. simpl. f_equal; [f_equal; lia|].
  rewrite <- seq_shift, map_map. apply map_ext. intros i. lia.
Qed.

Lemma elem_of_steps (inc z : Z) (k : nat) (p : Z) :
  p ∈ steps inc z k <-> exists i : nat, (i < k)%nat /\ p = z + inc * Z.of_nat i.
Proof.
  unfold steps. rewrite list_elem_of_In, in_map_iff. split.
  - intros (i & <- & Hi%in_seq). exists i. split; [lia|done].
  - intros (i & Hi & ->). exists i. split; [done|]. apply in_seq. lia.
Qed.

Lemma elem_of_steps_up (z p : Z) (k : nat) :
  p ∈ steps 1 z k <-> z <= p < z + Z.of_nat k.
Proof.
  rewrite elem_of_steps. split.
  - intros (i & Hi & ->). lia.
  - intros H. exists (Z.to_nat (p - z)). lia.
Qed.

Lemma elem_of_steps_down (z p : Z) (k : nat) :
  p ∈ steps (-1) z k <-> z - Z.of_nat k < p <= z.
Proof.
  rewrite elem_of_steps. split.
  - intros (i & Hi & ->). lia.
  - intros H. exists (Z.to_nat (z - p)). lia.
Qed.

Lemma NoDup_steps (inc z : Z) (k : nat) : inc <> 0 -> NoDup (steps inc z k).
Proof.
  intros Hinc. revert z. induction k as [|k IH]; intros z.
  - unfold steps. simpl. apply NoDup_nil_2.
  - rewrite steps_S. apply NoDup_cons_2; [|apply IH].
    intros (i & Hi & Heq)%elem_of_steps. nia.
Qed.

Lemma walk_events_slices (inc z : Z) (k : nat) :
  map fst (walk_events inc z k) = steps inc z k.
Proof. unfold walk_events. rewrite map_map. simpl. apply map_id. Qed.

Lemma elem_of_walk_events (inc z : Z) (k : nat) (e : Z * source) :
  e ∈ walk_events inc z k <-> e.1 ∈ steps inc z k /\ e.2 = FromSlice (e.1 - inc).
Proof.
  unfold walk_events. rewrite list_elem_of_In, in_map_iff. split.
  - intros (p & <- & Hp). simpl. by rewrite list_elem_of_In.
  - intros [Hp He]. exists e.1. rewrite <- list_elem_of_In.
    split; [|done]. destruct e; simpl in *. by subst.
Qed.

(** Python [>=] and [>] through [<=] and [<]. *)
Ltac criterion :=
  intros; rewrite ?Z.geb_leb, ?Z.gtb_ltb;
  first [ lia
        | apply Z.leb_le; lia | apply Z.leb_gt; lia
        | apply Z.ltb_lt; lia | apply Z.ltb_ge; lia ].

Lemma general_events_slices (z_start z_stop : Z) :
  2 < z_stop - z_start ->
  NoDup (map fst (general_events z_start z_stop))
  /\ (forall z, z ∈ map fst (general_events z_start z_stop)
                <-> z_start < z < z_stop).
Proof.
  intros Hd. unfold general_events.
  set (z_mid := (z_start + z_stop) `div` 2).
  set (even := (z_stop - z_start) `mod` 2 =? 0).
  assert (Hmid : if even then 2 * z_mid = z_start + z_stop
                 else 2 * z_mid + 1 = z_start + z_stop).
  { unfold even, z_mid.
    destruct (Z.eqb_spec ((z_stop - z_start) `mod` 2) 0);
      Z.div_mod_to_equations; lia. }
  rewrite !map_app, !walk_events_slices. split.
  - apply NoDup_app. split; [apply NoDup_steps; lia|]. split.
    + intros z Hup%elem_of_steps_up [Hdown|Hm]%elem_of_app.
      * apply elem_of_steps_down in Hdown. destruct even; lia.
      * destruct even; simpl in Hm; [|by apply elem_of_nil in Hm].
        apply list_elem_of_singleton in Hm. lia.
    + apply NoDup_app. split; [apply NoDup_steps; lia|]. split.
      * intros z Hdown%elem_of_steps_down Hm.
        destruct even; simpl in Hm; [|by apply elem_of_nil in Hm].
        apply list_elem_of_singleton in Hm. lia.
      * destruct even; simpl; [apply NoDup_singleton|apply NoDup_nil_2].
  - intros z. rewrite !elem_of_app, elem_of_steps_up, elem_of_steps_down.
    destruct even; simpl.
    + rewrite list_elem_of_singleton. lia.
    + rewrite elem_of_nil. lia.
Qed.

Lemma gap_events_slices z0 z1 stop_lower stop_upper (z_start z_stop : Z) :
  z_start < z_stop ->
  NoDup (map fst (gap_events z0 z1 stop_lower stop_upper (z_start, z_stop)))
  /\ (forall z, z ∈ map fst (gap_events z0 z1 stop_lower stop_upper (z_start, z_stop))
                <-> z_start < z < z_stop).
Proof.
  intros Hlt. unfold gap_events.
  destruct (Z.eqb_spec (z_stop - z_start) 1).
  { simpl. split; [apply NoDup_nil_2|]. intros z. rewrite elem_of_nil. lia. }
  destruct ((z_start =? z0) && stop_lower).
  { rewrite walk_events_slices. split; [apply NoDup_steps; lia|].
    intros z. rewrite elem_of_steps_down. lia. }
  destruct ((z_stop =? z1) && stop_upper).
  { rewrite walk_events_slices. split; [apply NoDup_steps; lia|].
    intros z. rewrite elem_of_steps_up. lia. }
  destruct (Z.eqb_spec (z_stop - z_start) 2).
  { simpl. split; [apply NoDup_singleton|].
    intros z. rewrite list_elem_of_singleton. lia. }
  apply general_events_slices. lia.
Qed.

Lemma consecutive_cons (a b : Z) (l : list Z) :
  consecutive (a :: b :: l) = (a, b) :: consecutive (b :: l).
Proof. unfold consecutive. simpl. by rewrite Nat.sub_0_r. Qed.

Lemma ascending_cons (a b : Z) (l : list Z) :
  ascending (a :: b :: l) = true <-> a < b /\ ascending (b :: l) = true.
Proof.
  change (ascending (a :: b :: l)) with ((a <? b) && ascending (b :: l)).
  rewrite andb_true_iff, Z.ltb_lt. done.
Qed.

Lemma ascending_head (a : Z) (l : list Z) :
  ascending (a :: l) = true -> Forall (fun x => a < x) l.
Proof.
  revert a. induction l as [|b l IH]; intros a H; [constructor|].
  apply ascending_cons in H as [Hab Hl]. constructor; [done|].
  eapply Forall_impl; [apply (IH b Hl)|]. simpl. lia.
Qed.

Lemma array_min_spec (a : Z) (l : list Z) :
  array_min a l ∈ a :: l /\ Forall (fun x => array_min a l <= x) (a :: l).
Proof.
  unfold array_min. induction l as [|b l [Hin Hall]]; simpl.
  { split; [apply list_elem_of_here|]. constructor; [lia|constructor]. }
  inversion Hall as [|? ? Ha Hl]; subst.
  destruct (Z.min_spec b (foldr Z.min a l)) as [[Hlt ->]|[Hle ->]].
  - split; [apply list_elem_of_further, list_elem_of_here|].
    constructor; [lia|]. constructor; [lia|].
    eapply Forall_impl; [apply Hl|]. simpl. lia.
  - split.
    + apply elem_of_cons in Hin as [->|Hin]; [apply list_elem_of_here|].
      by do 2 apply list_elem_of_further.
    + constructor; [done|]. constructor; [lia|done].
Qed.

Lemma array_max_spec (a : Z) (l : list Z) :
  array_max a l ∈ a :: l /\ Forall (fun x => x <= array_max a l) (a :: l).
Proof.
  unfold array_max. induction l as [|b l [Hin Hall]]; simpl.
  { split; [apply list_elem_of_here|]. constructor; [lia|constructor]. }
  inversion Hall as [|? ? Ha Hl]; subst.
  destruct (Z.max_spec b (foldr Z.max a l)) as [[Hlt ->]|[Hle ->]].
  - split.
    + apply elem_of_cons in Hin as [->|Hin]; [apply list_elem_of_here|].
      by do 2 apply list_elem_of_further.
    + constructor; [done|]. constructor; [lia|done].
  - split; [apply list_elem_of_further, list_elem_of_here|].
    constructor; [lia|]. constructor; [lia|].
    eapply Forall_impl; [apply Hl|]. simpl. lia.
Qed.

(** No annotated slice lies strictly between two neighbouring ones. *)
Lemma ascending_gaps (l : list Z) (s : Z) (pair : Z * Z) :
  ascending l = true -> s ∈ l -> pair ∈ consecutive l ->
  ~ pair.1 < s < pair.2.
Proof.
  induction l as [|a [|b l] IH]; intros Hasc Hs Hpair.
  - by apply elem_of_nil in Hs.
  - unfold consecutive in Hpair. simpl in Hpair. by apply elem_of_nil in Hpair.
  - rewrite consecutive_cons in Hpair.
    pose proof (ascending_head _ _ Hasc) as Hhead.
    apply ascending_cons in Hasc as [Hab Hasc].
    pose proof (ascending_head _ _ Hasc) as Hhead'.
    apply elem_of_cons in Hpair as [->|Hpair]; simpl.
    + apply elem_of_cons in Hs as [->|Hs]; [lia|].
      apply elem_of_cons in Hs as [->|Hs]; [lia|].
      rewrite Forall_forall in Hhead'. specialize (Hhead' _ Hs). lia.
    + apply elem_of_cons in Hs as [->|Hs]; [|by apply IH].
      assert (Hin : pair.1 ∈ b :: l).
      { clear -Hpair. unfold consecutive in Hpair.
        apply list_elem_of_lookup in Hpair as [i Hi].
        apply lookup_zip_with_Some in Hi as (x & y & -> & Hx & _). simpl.
        apply lookup_take_Some in Hx as [Hx _].
        apply list_elem_of_lookup. by exists i. }
      rewrite Forall_forall in Hhead. specialize (Hhead _ Hin). lia.
Qed.

Lemma consecutive_in_range (l : list Z) (n : Z) (pair : Z * Z) :
  ascending l = true -> Forall (fun s => 0 <= s < n) l ->
  pair ∈ consecutive l -> 0 <= pair.1 /\ pair.1 < pair.2 /\ pair.2 < n.
Proof.
  induction l as [|a [|b l] IH]; intros Hasc Hall Hpair.
  - unfold consecutive in Hpair. simpl in Hpair. by apply elem_of_nil in Hpair.
  - unfold consecutive in Hpair. simpl in Hpair. by apply elem_of_nil in Hpair.
  - rewrite consecutive_cons in Hpair.
    apply ascending_cons in Hasc as [Hab Hasc].
    inversion Hall as [|? ? Ha Hall']; subst.
    apply elem_of_cons in Hpair as [->|Hpair]; simpl.
    + inversion Hall'; subst. lia.
    + by apply IH.
Qed.

Lemma consecutive_elem (l : list Z) (pair : Z * Z) :
  pair ∈ consecutive l -> pair.1 ∈ l /\ pair.2 ∈ l.
Proof.
  unfold consecutive. intros [i Hi]%list_elem_of_lookup.
  apply lookup_zip_with_Some in Hi as (x & y & -> & Hx & Hy). simpl.
  apply lookup_take_Some in Hx as [Hx _]. rewrite lookup_drop in Hy.
  split; apply list_elem_of_lookup; eauto.
Qed.

(** A slice that is not annotated but has annotated slices on both sides
    lies in exactly the gaps the engine fills. *)
Lemma ascending_covered (l : list Z) (z : Z) :
  ascending l = true -> z ∉ l ->
  (exists x, x ∈ l /\ x < z) -> (exists y, y ∈ l /\ z < y) ->
  exists pair, pair ∈ consecutive l /\ pair.1 < z < pair.2.
Proof.
  induction l as [|a [|b l] IH]; intros Hasc Hz (x & Hx & Hxz) (y & Hy & Hzy).
  - by apply elem_of_nil in Hx.
  - apply list_elem_of_singleton in Hx, Hy. lia.
  - pose proof (ascending_head _ _ Hasc) as Hhead. rewrite Forall_forall in Hhead.
    apply ascending_cons in Hasc as [Hab Hasc].
    pose proof (ascending_head _ _ Hasc) as Hhead'. rewrite Forall_forall in Hhead'.
    rewrite consecutive_cons.
    apply not_elem_of_cons in Hz as [Hza Hz].
    assert (Hzb : z <> b).
    { intros ->. apply Hz, list_elem_of_here. }
    destruct (Z.lt_ge_cases z b) as [Hlt|Hge].
    + exists (a, b). split; [apply list_elem_of_here|]. simpl. split; [|done].
      apply elem_of_cons in Hx as [->|Hx]; [done|].
      apply elem_of_cons in Hx as [->|Hx]; [lia|].
      specialize (Hhead' _ Hx). lia.
    + destruct IH as (pair & Hpair & Hbetween); try done.
      * exists b. split; [apply list_elem_of_here|lia].
      * exists y. split; [|done].
        apply elem_of_cons in Hy as [->|Hy]; [lia|done].
      * exists pair. split; [by apply list_elem_of_further|done].
Qed.

Lemma elem_of_gaps (g : Z * Z -> list (Z * source)) (pairs : list (Z * Z)) (z : Z) :
  z ∈ map fst (concat (map g pairs))
  <-> exists pair, pair ∈ pairs /\ z ∈ map fst (g pair).
Proof.
  induction pairs as [|q pairs IH]; simpl.
  - rewrite elem_of_nil. split; [done|]. intros (pair & H%elem_of_nil & _). done.
  - rewrite map_app, elem_of_app, IH. split.
    + intros [H|(pair & Hpair & H)].
      * exists q. split; [apply list_elem_of_here|done].
      * exists pair. split; [by apply list_elem_of_further|done].
    + intros (pair & [->|Hpair]%elem_of_cons & H); [by left|].
      right. by exists pair.
Qed.

Lemma consecutive_lt (l : list Z) (pair : Z * Z) :
  ascending l = true -> pair ∈ consecutive l -> pair.1 < pair.2.
Proof.
  induction l as [|a [|b l] IH]; intros Hasc Hpair.
  - unfold consecutive in Hpair. simpl in Hpair. by apply elem_of_nil in Hpair.
  - unfold consecutive in Hpair. simpl in Hpair. by apply elem_of_nil in Hpair.
  - rewrite consecutive_cons in Hpair.
    apply ascending_cons in Hasc as [Hab Hasc].
    apply elem_of_cons in Hpair as [->|Hpair]; [done|by apply IH].
Qed.

(** The slices written in the gaps of an ascending list of annotated
    slices: each one once, and exactly those strictly inside a gap. *)
Lemma gaps_slices z0 z1 stop_lower stop_upper (l : list Z) :
  ascending l = true ->
  NoDup (map fst (concat (map (gap_events z0 z1 stop_lower stop_upper)
                              (consecutive l))))
  /\ (forall z, z ∈ map fst (concat (map (gap_events z0 z1 stop_lower stop_upper)
                                         (consecutive l)))
                <-> exists pair, pair ∈ consecutive l /\ pair.1 < z < pair.2).
Proof.
  intros Hasc.
  assert (Hmem : forall l', ascending l' = true -> forall z,
            z ∈ map fst (concat (map (gap_events z0 z1 stop_lower stop_upper)
                                     (consecutive l')))
            <-> exists pair, pair ∈ consecutive l' /\ pair.1 < z < pair.2).
  { intros l' Hasc' z. rewrite elem_of_gaps.
    split; intros (pair & Hpair & Hz); exists pair; (split; [done|]);
      pose proof (consecutive_lt _ _ Hasc' Hpair) as Hlt;
      destruct pair as [x y];
      by apply (gap_events_slices z0 z1 stop_lower stop_upper x y Hlt). }
  split; [|by apply Hmem].
  induction l as [|a [|b l] IH].
  - unfold consecutive. simpl. apply NoDup_nil_2.
  - unfold consecutive. simpl. apply NoDup_nil_2.
  - rewrite consecutive_cons. cbn [map concat]. rewrite map_app.
    pose proof Hasc as Hasc0.
    apply ascending_cons in Hasc as [Hab Hasc].
    apply NoDup_app. split; [by apply gap_events_slices|].
    split; [|by apply IH].
    intros x Hx%gap_events_slices; [|done].
    intros (pair & Hpair & Hbetween)%(Hmem _ Hasc).
    destruct (consecutive_elem _ _ Hpair) as [H1 _].
    apply elem_of_cons in H1 as [H1|H1]; [lia|].
    pose proof (ascending_head _ _ Hasc) as Hhead.
    rewrite Forall_forall in Hhead. specialize (Hhead _ H1). lia.
Qed.

Lemma below_threshold_false (iou t : float) :
  below_threshold iou (Some t) = false <-> PrimFloat.ltb iou t = false.
Proof. done. Qed.

Lemma below_threshold_true (iou t : float) :
  below_threshold iou (Some t) = true <-> PrimFloat.ltb iou t = true.
Proof. done. Qed.

(** In the general case every slice below the middle is prompted by the
    slice under it, every slice above the middle by the slice over it, and
    the middle by the union of its neighbours when the gap is even, by the
    slice under it when the gap is odd. *)
Lemma general_events_sources (z_start z_stop : Z) (e : Z * source) :
  let z_mid := (z_start + z_stop) `div` 2 in
  let even := (z_stop - z_start) `mod` 2 =? 0 in
  2 < z_stop - z_start ->
  e ∈ general_events z_start z_stop ->
  e.2 = if e.1 <? z_mid then FromSlice (e.1 - 1)
        else if z_mid <? e.1 then FromSlice (e.1 + 1)
        else if even then FromUnion (z_mid - 1) (z_mid + 1)
        else FromSlice (z_mid - 1).
Proof.
  intros z_mid even Hd. unfold general_events. fold z_mid. fold even.
  assert (Hmid : if even then 2 * z_mid = z_start + z_stop
                 else 2 * z_mid + 1 = z_start + z_stop).
  { unfold even, z_mid.
    destruct (Z.eqb_spec ((z_stop - z_start) `mod` 2) 0);
      Z.div_mod_to_equations; lia. }
  rewrite !elem_of_app, !elem_of_walk_events, elem_of_steps_up, elem_of_steps_down.
  intros [[Hin ->]|[[Hin ->]|Hin]].
  - destruct (Z.ltb_spec e.1 z_mid); [done|].
    destruct (Z.ltb_spec z_mid e.1); [destruct even; lia|].
    destruct even; [lia|]. f_equal. lia.
  - destruct (Z.ltb_spec e.1 z_mid); [destruct even; lia|].
    destruct (Z.ltb_spec z_mid e.1); [f_equal; lia|destruct even; lia].
  - destruct even; [|by apply elem_of_nil in Hin].
    apply list_elem_of_singleton in Hin as ->. simpl.
    rewrite !Z.ltb_irrefl. done.
Qed.

Lemma lookup_map {A B} (f : A -> B) (l : list A) (i : nat) :
  map f l !! i = f <$> l !! i.
Proof. exact (list_lookup_fmap f l i). Qed.

Lemma pixel_combined_prompt (ma mb : mask) (r c : nat) (x y : Z) :
  pixel ma r c = Some x -> pixel mb r c = Some y ->
  pixel (combined_prompt ma mb) r c = Some (of_bool (is_one x || is_one y)).
Proof.
  unfold pixel, combined_prompt, as_mask, logical_or, eq1.
  destruct (ma !! r) as [ra|] eqn:Ha; [|done].
  destruct (mb !! r) as [rb|] eqn:Hb; [|done].
  intros Hx Hy. unfold mask in *.
  rewrite lookup_map, lookup_zip_with, !lookup_map, Ha, Hb. simpl.
  rewrite lookup_map, lookup_zip_with, !lookup_map, Hx, Hy. done.
Qed.

(** The slices a whole run writes. *)
Lemma run_events_slices z0 z1 stop_lower stop_upper (l : list Z)
      (k_lo k_hi : nat) (z : Z) :
  ascending l = true ->
  z ∈ map fst (walk_events (-1) (z0 - 1) k_lo ++ walk_events 1 (z1 + 1) k_hi
               ++ concat (map (gap_events z0 z1 stop_lower stop_upper)
                              (consecutive l)))
  <-> z0 - Z.of_nat k_lo <= z < z0
      \/ z1 < z <= z1 + Z.of_nat k_hi
      \/ exists pair, pair ∈ consecutive l /\ pair.1 < z < pair.2.
Proof.
  intros Hasc. rewrite !map_app, !elem_of_app, !walk_events_slices.
  rewrite elem_of_steps_down, elem_of_steps_up.
  rewrite (proj2 (gaps_slices z0 z1 stop_lower stop_upper l Hasc) z).
  split; intros [H|[H|H]]; first [left; lia | right; left; lia | by right; right].
Qed.

Section Walks.

Variable oracle : mask -> Z -> bool -> bool -> mask.
Variables use_mask use_box : bool.

(** A walk that stops at once, having written nothing. *)
Lemma walked_stop inc threshold n z st prev :
  (0 < n)%nat ->
  threshold <> None ->
  slice_at (seg st) (z - inc) = Some prev ->
  below_threshold (Util.compute_iou_f64 prev (oracle prev z use_mask use_box))
                  threshold = true ->
  walked oracle use_mask use_box inc threshold n z st st 0.
Proof.
  intros Hn Hthr Hprev Hbelow. split; simpl.
  - lia.
  - done.
  - done.
  - unfold walk_events, steps. simpl. by rewrite app_nil_r.
  - destruct (decide (0%nat = n)); [lia|]. by destruct (progress_bar st).
  - done.
  - intros p Hp. unfold steps in Hp. simpl in Hp. by apply elem_of_nil in Hp.
  - intros _. exists prev. rewrite Z.mul_0_r, Z.add_0_r. done.
Qed.

Lemma segment_range_loop_walked (inc z_stop : Z) (crit : Z -> Z -> bool)
      (threshold : option float) (n : nat) :
  inc = 1 \/ inc = -1 ->
  forall (fuel : nat) (z : Z) (st : state),
    (1 <= n <= fuel)%nat ->
    0 <= z - inc < Z.of_nat (length (seg st)) ->
    0 <= z + inc * (Z.of_nat n - 1) < Z.of_nat (length (seg st)) ->
    (forall i : nat, (1 <= i < n)%nat -> crit (z + inc * Z.of_nat i) z_stop = false) ->
    crit (z + inc * Z.of_nat n) z_stop = true ->
    exists st' k,
      segment_range_loop oracle fuel use_mask use_box z_stop inc crit
                         threshold z st = Done st'
      /\ walked oracle use_mask use_box inc threshold n z st st' k.
Proof.
  intros Hinc. induction n as [|n IH]; intros fuel z st Hfuel Hprev Hlast Hcrit Hend;
    [lia|].
  destruct fuel as [|fuel]; [lia|].
  assert (Hz : 0 <= z < Z.of_nat (length (seg st))) by (destruct Hinc; subst; lia).
  destruct (slice_at_in_range (seg st) (z - inc) Hprev) as [prev Hp].
  simpl. rewrite (getitem_in_range _ _ _ (proj1 Hprev) Hp).
  unfold mbind at 1, outcome_bind at 1, bind at 1.
  destruct (below_threshold _ threshold) eqn:Hbelow.
  { exists st, 0%nat. split; [done|].
    apply walked_stop with prev; try done; [lia|].
    intros ->. done. }
  rewrite setitem_in_range by done.
  unfold mbind at 1, outcome_bind at 1, bind at 1.
  set (m := oracle prev z use_mask use_box) in *.
  set (st1 := mkState _ _ _).
  destruct n as [|n].
  - (* the last slice of the walk *)
    assert (Hc : crit (z + inc) z_stop = true).
    { rewrite <- Hend. f_equal. lia. }
    rewrite Hc.
    exists st1, 1%nat. split; [done|]. split; simpl.
    + lia.
    + done.
    + apply length_insert.
    + unfold walk_events. rewrite steps_S. done.
    + destruct (progress_bar st); done.
    + intros j Hj. apply slice_at_insert_ne; [lia|].
      intros ->. apply Hj. rewrite steps_S. apply list_elem_of_here.
    + intros p Hq. rewrite steps_S in Hq. apply elem_of_cons in Hq as [->|Hq].
      2:{ unfold steps in Hq. simpl in Hq. by apply elem_of_nil in Hq. }
      exists prev. rewrite slice_at_insert_ne by (destruct Hinc; subst; lia).
      rewrite slice_at_insert_eq by done. done.
    + lia.
  - (* more slices follow *)
    assert (Hc : crit (z + inc) z_stop = false).
    { rewrite <- (Hcrit 1%nat) by lia. f_equal. lia. }
    rewrite Hc.
    destruct (IH fuel (z + inc) (_update_progress st1)) as (st' & k & Hrun & Hw).
    + lia.
    + simpl. rewrite length_insert. destruct Hinc; subst; lia.
    + simpl. rewrite length_insert. destruct Hinc; subst; lia.
    + intros i Hi. replace (z + inc + inc * Z.of_nat i)
        with (z + inc * Z.of_nat (S i)) by lia. apply Hcrit. lia.
    + replace (z + inc + inc * Z.of_nat (S n))
        with (z + inc * Z.of_nat (S (S n))) by lia. done.
    + exists st', (S k). split; [done|].
      destruct Hw as [Hle Hfull Hlen Htr Hbar Hframe Hdata Hstop].
      simpl in *. rewrite length_insert in Hlen.
      assert (Hnotin : forall q, q ∈ steps inc (z + inc) k -> q <> z /\ q <> z - inc).
      { intros q (i & Hi & ->)%elem_of_steps. destruct Hinc; subst; lia. }
      split; simpl.
      * lia.
      * intros H. f_equal. by apply Hfull.
      * done.
      * rewrite Htr. unfold walk_events. rewrite steps_S. simpl.
        by rewrite <- app_assoc.
      * rewrite Hbar. destruct (progress_bar st) as [b|]; [|done]. simpl.
        destruct (decide (k = S n)), (decide (S k = S (S n))); try lia;
          f_equal; lia.
      * intros j Hj. rewrite steps_S in Hj.
        apply not_elem_of_cons in Hj as [Hjz Hj].
        rewrite (Hframe j Hj). apply slice_at_insert_ne; [lia|done].
      * intros p Hq. rewrite steps_S in Hq. apply elem_of_cons in Hq as [->|Hq].
        -- exists prev. rewrite !Hframe.
           ++ rewrite slice_at_insert_ne by (destruct Hinc; subst; lia).
              rewrite slice_at_insert_eq by done. done.
           ++ intros H%Hnotin. lia.
           ++ intros H%Hnotin. lia.
        -- by apply Hdata.
      * intros Hk. destruct Hstop as (prev' & H1 & H2); [lia|].
        exists prev'.
        replace (z + inc * Z.of_nat (S k)) with (z + inc + inc * Z.of_nat k) by lia.
        done.
Qed.

Lemma segment_combined_spec (z a b : Z) (st : state) :
  0 <= a < Z.of_nat (length (seg st)) ->
  0 <= b < Z.of_nat (length (seg st)) ->
  0 <= z < Z.of_nat (length (seg st)) ->
  exists ma mb,
    slice_at (seg st) a = Some ma /\ slice_at (seg st) b = Some mb
    /\ segment_combined oracle use_mask use_box z a b st
       = Done (mkState
                 (<[Z.to_nat z := oracle (combined_prompt ma mb) z use_mask use_box]>
                    (seg st))
                 (trace st ++ [(z, FromUnion a b)])
                 (add_progress 1 (progress_bar st))).
Proof.
  intros Ha Hb Hz.
  destruct (slice_at_in_range _ _ Ha) as [ma Hma].
  destruct (slice_at_in_range _ _ Hb) as [mb Hmb].
  exists ma, mb. split; [done|]. split; [done|].
  unfold segment_combined.
  rewrite (getitem_in_range _ _ _ (proj1 Ha) Hma).
  unfold mbind at 1, outcome_bind at 1, bind at 1.
  rewrite (getitem_in_range _ _ _ (proj1 Hb) Hmb).
  unfold mbind at 1, outcome_bind at 1, bind at 1.
  rewrite setitem_in_range by done.
  unfold mbind, outcome_bind, bind, _update_progress. simpl.
  by destruct (progress_bar st).
Qed.

(** A walk between two annotated slices: no threshold, all [n] slices. *)
Lemma segment_range_interpolates (inc z_start z_stop : Z)
      (crit : Z -> Z -> bool) (n fuel : nat) (st : state) :
  inc = 1 \/ inc = -1 ->
  (1 <= n <= fuel)%nat ->
  0 <= z_start < Z.of_nat (length (seg st)) ->
  0 <= z_start + inc * Z.of_nat n < Z.of_nat (length (seg st)) ->
  (forall i : nat, (1 <= i < n)%nat ->
     crit (z_start + inc + inc * Z.of_nat i) z_stop = false) ->
  crit (z_start + inc + inc * Z.of_nat n) z_stop = true ->
  exists st',
    segment_range oracle fuel use_mask use_box z_start z_stop inc crit None st
    = Done st'
    /\ walked oracle use_mask use_box inc None n (z_start + inc) st st' n.
Proof.
  intros Hinc Hn Hstart Hend Hcrit Hlast. unfold segment_range.
  destruct (segment_range_loop_walked inc z_stop crit None n Hinc fuel
              (z_start + inc) st) as (st' & k & Hrun & Hw); try done.
  - lia.
  - destruct Hinc; subst; lia.
  - exists st'. split; [done|].
    by rewrite <- (w_full _ _ _ _ _ _ _ _ _ _ Hw eq_refl) at 2.
Qed.

Lemma segment_between_adjacent fuel z0 z1 stop_lower stop_upper st z_start :
  segment_between oracle fuel use_mask use_box z0 z1 stop_lower stop_upper st
                  (z_start, z_start + 1) = Done st.
Proof.
  unfold segment_between.
  replace (z_start + 1 - z_start) with 1 by lia. done.
Qed.

(** The lower slice is a stop: one walk down from the upper slice. *)
Lemma segment_between_from_upper fuel z0 z1 stop_lower stop_upper st z_start z_stop :
  0 <= z_start -> z_stop < Z.of_nat (length (seg st)) ->
  2 <= z_stop - z_start ->
  (Z.to_nat (z_stop - z_start) <= fuel)%nat ->
  (z_start =? z0) && stop_lower = true ->
  exists st',
    segment_between oracle fuel use_mask use_box z0 z1 stop_lower stop_upper st
                    (z_start, z_stop) = Done st'
    /\ walked oracle use_mask use_box (-1) None
              (Z.to_nat (z_stop - z_start - 1)) (z_stop - 1) st st'
              (Z.to_nat (z_stop - z_start - 1)).
Proof.
  intros Hlo Hhi Hd Hfuel Hstop. unfold segment_between.
  destruct (Z.eqb_spec (z_stop - z_start) 1) as [|_]; [lia|].
  rewrite Hstop.
  apply (segment_range_interpolates (-1) z_stop z_start Z.leb);
    first [lia | criterion].
Qed.

(** The upper slice is a stop: one walk up from the lower slice. *)
Lemma segment_between_from_lower fuel z0 z1 stop_lower stop_upper st z_start z_stop :
  0 <= z_start -> z_stop < Z.of_nat (length (seg st)) ->
  2 <= z_stop - z_start ->
  (Z.to_nat (z_stop - z_start) <= fuel)%nat ->
  (z_start =? z0) && stop_lower = false ->
  (z_stop =? z1) && stop_upper = true ->
  exists st',
    segment_between oracle fuel use_mask use_box z0 z1 stop_lower stop_upper st
                    (z_start, z_stop) = Done st'
    /\ walked oracle use_mask use_box 1 None
              (Z.to_nat (z_stop - z_start - 1)) (z_start + 1) st st'
              (Z.to_nat (z_stop - z_start - 1)).
Proof.
  intros Hlo Hhi Hd Hfuel Hlower Hstop. unfold segment_between.
  destruct (Z.eqb_spec (z_stop - z_start) 1) as [|_]; [lia|].
  rewrite Hlower, Hstop.
  apply (segment_range_interpolates 1 z_start z_stop Z.geb);
    first [lia | criterion].
Qed.

(** One slice in between: the combined mask, no walk. *)
Lemma segment_between_single fuel z0 z1 stop_lower stop_upper st z_start :
  0 <= z_start -> z_start + 2 < Z.of_nat (length (seg st)) ->
  (z_start =? z0) && stop_lower = false ->
  (z_start + 2 =? z1) && stop_upper = false ->
  exists ma mb,
    slice_at (seg st) z_start = Some ma
    /\ slice_at (seg st) (z_start + 2) = Some mb
    /\ segment_between oracle fuel use_mask use_box z0 z1 stop_lower stop_upper st
                       (z_start, z_start + 2)
       = Done (mkState
                 (<[Z.to_nat (z_start + 1) :=
                      oracle (combined_prompt ma mb) (z_start + 1) use_mask use_box]>
                    (seg st))
                 (trace st ++ [(z_start + 1, FromUnion z_start (z_start + 2))])
                 (add_progress 1 (progress_bar st))).
Proof.
  intros Hlo Hhi Hlower Hupper. unfold segment_between.
  replace (z_start + 2 - z_start) with 2 by lia. simpl (2 =? 1).
  rewrite Hlower, Hupper. simpl (2 =? 2). cbv iota.
  apply segment_combined_spec; lia.
Qed.

(** More than one slice in between and no stop at either end: a walk
    up to the middle, a walk down to the middle, and the middle slice
    from the union of its neighbours exactly when the gap is even. *)
Lemma segment_between_general fuel z0 z1 stop_lower stop_upper st z_start z_stop :
  let z_mid := (z_start + z_stop) `div` 2 in
  let even := (z_stop - z_start) `mod` 2 =? 0 in
  let up_end := if even then z_mid - 1 else z_mid in
  0 <= z_start -> z_stop < Z.of_nat (length (seg st)) ->
  2 < z_stop - z_start ->
  (Z.to_nat (z_stop - z_start) <= fuel)%nat ->
  (z_start =? z0) && stop_lower = false ->
  (z_stop =? z1) && stop_upper = false ->
  exists st',
    segment_between oracle fuel use_mask use_box z0 z1 stop_lower stop_upper st
                    (z_start, z_stop) = Done st'
    /\ length (seg st') = length (seg st)
    /\ trace st' = trace st ++ general_events z_start z_stop
    /\ progress_bar st'
       = add_progress (Z.to_nat (z_stop - z_start - 3)) (progress_bar st)
    /\ (forall j, ~ z_start < j < z_stop ->
          slice_at (seg st') j = slice_at (seg st) j)
    /\ (forall p, z_start < p <= up_end ->
          exists prev, slice_at (seg st') (p - 1) = Some prev
                       /\ slice_at (seg st') p
                          = Some (oracle prev p use_mask use_box))
    /\ (forall p, z_mid < p < z_stop ->
          exists next, slice_at (seg st') (p + 1) = Some next
                       /\ slice_at (seg st') p
                          = Some (oracle next p use_mask use_box))
    /\ (even = true ->
          exists a b, slice_at (seg st') (z_mid - 1) = Some a
                      /\ slice_at (seg st') (z_mid + 1) = Some b
                      /\ slice_at (seg st') z_mid
                         = Some (oracle (combined_prompt a b) z_mid
                                        use_mask use_box)).
Proof.
  intros z_mid even up_end Hlo Hhi Hd Hfuel Hlower Hupper.
  unfold segment_between, general_events.
  destruct (Z.eqb_spec (z_stop - z_start) 1) as [|_]; [lia|].
  rewrite Hlower, Hupper.
  destruct (Z.eqb_spec (z_stop - z_start) 2) as [|_]; [lia|].
  fold z_mid. fold even. fold up_end.
  assert (Hmid : if even then 2 * z_mid = z_start + z_stop
                 else 2 * z_mid + 1 = z_start + z_stop).
  { unfold even, z_mid.
    destruct (Z.eqb_spec ((z_stop - z_start) `mod` 2) 0);
      Z.div_mod_to_equations; lia. }
  (* the walk up *)
  destruct (segment_range_interpolates 1 z_start z_mid
              (if even then Z.geb else Z.gtb)
              (Z.to_nat (up_end - z_start)) fuel st)
    as (st1 & Hrun1 & W1);
    try (unfold up_end; destruct even; first [lia | criterion]).
  rewrite Hrun1. unfold mbind at 1, outcome_bind at 1, bind at 1.
  pose proof (w_length _ _ _ _ _ _ _ _ _ _ W1) as Hlen1.
  (* the walk down *)
  destruct (segment_range_interpolates (-1) z_stop z_mid Z.leb
              (Z.to_nat (z_stop - 1 - z_mid)) fuel st1)
    as (st2 & Hrun2 & W2);
    try (rewrite ?Hlen1; destruct even; first [lia | criterion]).
  rewrite Hrun2. unfold mbind at 1, outcome_bind at 1, bind at 1.
  pose proof (w_length _ _ _ _ _ _ _ _ _ _ W2) as Hlen2.
  assert (Hframe2 : forall j, ~ z_start < j < z_stop ->
                      slice_at (seg st2) j = slice_at (seg st) j).
  { intros j Hj.
    rewrite (w_frame _ _ _ _ _ _ _ _ _ _ W2), (w_frame _ _ _ _ _ _ _ _ _ _ W1);
      [done| |].
    - rewrite elem_of_steps_up. unfold up_end. destruct even; lia.
    - change (z_stop + -1) with (z_stop - 1). rewrite elem_of_steps_down.
      destruct even; lia. }
  assert (Hup2 : forall p, z_start < p <= up_end ->
            exists prev, slice_at (seg st2) (p - 1) = Some prev
                         /\ slice_at (seg st2) p
                            = Some (oracle prev p use_mask use_box)).
  { intros p Hp.
    destruct (w_data _ _ _ _ _ _ _ _ _ _ W1 p) as (prev & H1 & H2 & _).
    { rewrite elem_of_steps_up. lia. }
    exists prev.
    rewrite !(w_frame _ _ _ _ _ _ _ _ _ _ W2); [done| |];
      change (z_stop + -1) with (z_stop - 1); rewrite elem_of_steps_down;
      unfold up_end in Hp; destruct even; lia. }
  assert (Hdown2 : forall p, z_mid < p < z_stop ->
            exists next, slice_at (seg st2) (p + 1) = Some next
                         /\ slice_at (seg st2) p
                            = Some (oracle next p use_mask use_box)).
  { intros p Hp.
    destruct (w_data _ _ _ _ _ _ _ _ _ _ W2 p) as (next & H1 & H2 & _).
    { change (z_stop + -1) with (z_stop - 1). rewrite elem_of_steps_down.
      destruct even; lia. }
    exists next. replace (p - -1) with (p + 1) in H1 by lia. done. }
  assert (Hbar2 : progress_bar st2
            = add_progress (Z.to_nat (up_end - z_start) - 1
                            + (Z.to_nat (z_stop - 1 - z_mid) - 1))
                           (progress_bar st)).
  { rewrite (w_progress _ _ _ _ _ _ _ _ _ _ W2), (w_progress _ _ _ _ _ _ _ _ _ _ W1).
    rewrite !decide_True by done.
    destruct (progress_bar st); simpl; [f_equal; lia|done]. }
  assert (Htr2 := w_trace _ _ _ _ _ _ _ _ _ _ W2).
  rewrite (w_trace _ _ _ _ _ _ _ _ _ _ W1), <- app_assoc in Htr2.
  destruct even eqn:Heven.
  - (* even gap: the middle slice is still to be segmented *)
    destruct (segment_combined_spec z_mid (z_mid - 1) (z_mid + 1) st2)
      as (a & b & Ha & Hb & Hrun3); try lia.
    rewrite Hrun3. eexists. split; [reflexivity|]. simpl.
    rewrite length_insert.
    split; [lia|]. split; [by rewrite Htr2, <- !app_assoc|].
    split.
    { rewrite Hbar2. unfold up_end.
      destruct (progress_bar st); simpl; [f_equal; lia|done]. }
    split.
    { intros j Hj. rewrite slice_at_insert_ne by lia. by apply Hframe2. }
    split.
    { intros p Hp. destruct (Hup2 p Hp) as (prev & H1 & H2). exists prev.
      unfold up_end in Hp. rewrite !slice_at_insert_ne by lia. done. }
    split.
    { intros p Hp. destruct (Hdown2 p Hp) as (next & H1 & H2). exists next.
      rewrite !slice_at_insert_ne by lia. done. }
    intros _. exists a, b.
    rewrite !slice_at_insert_ne by lia. rewrite slice_at_insert_eq by lia.
    done.
  - (* odd gap: the walk up has segmented the middle slice *)
    exists st2. split; [done|]. split; [lia|].
    split; [by rewrite Htr2, app_nil_r|].
    split.
    { rewrite Hbar2. unfold up_end.
      destruct (progress_bar st); simpl; [f_equal; lia|done]. }
    done.
Qed.

(** Whatever the case, the slices strictly between two annotated
    slices are written, and nothing else. *)
Lemma segment_between_spec fuel z0 z1 stop_lower stop_upper st z_start z_stop :
  0 <= z_start -> z_start < z_stop -> z_stop < Z.of_nat (length (seg st)) ->
  (Z.to_nat (z_stop - z_start) <= fuel)%nat ->
  exists st',
    segment_between oracle fuel use_mask use_box z0 z1 stop_lower stop_upper st
                    (z_start, z_stop) = Done st'
    /\ length (seg st') = length (seg st)
    /\ trace st'
       = trace st ++ gap_events z0 z1 stop_lower stop_upper (z_start, z_stop)
    /\ (forall j, ~ z_start < j < z_stop ->
          slice_at (seg st') j = slice_at (seg st) j).
Proof.
  intros Hlo Hlt Hhi Hfuel. unfold gap_events.
  destruct (Z.eqb_spec (z_stop - z_start) 1) as [H1|H1].
  { replace z_stop with (z_start + 1) by lia.
    rewrite segment_between_adjacent. exists st.
    by rewrite app_nil_r. }
  destruct ((z_start =? z0) && stop_lower) eqn:Hlower.
  { destruct (segment_between_from_upper fuel z0 z1 stop_lower stop_upper st
                z_start z_stop) as (st' & Hrun & W); try done; try lia.
    exists st'. split; [done|].
    split; [apply (w_length _ _ _ _ _ _ _ _ _ _ W)|].
    split; [apply (w_trace _ _ _ _ _ _ _ _ _ _ W)|].
    intros j Hj. apply (w_frame _ _ _ _ _ _ _ _ _ _ W).
    rewrite elem_of_steps_down. lia. }
  destruct ((z_stop =? z1) && stop_upper) eqn:Hupper.
  { destruct (segment_between_from_lower fuel z0 z1 stop_lower stop_upper st
                z_start z_stop) as (st' & Hrun & W); try done; try lia.
    exists st'. split; [done|].
    split; [apply (w_length _ _ _ _ _ _ _ _ _ _ W)|].
    split; [apply (w_trace _ _ _ _ _ _ _ _ _ _ W)|].
    intros j Hj. apply (w_frame _ _ _ _ _ _ _ _ _ _ W).
    rewrite elem_of_steps_up. lia. }
  destruct (Z.eqb_spec (z_stop - z_start) 2) as [H2|H2].
  { assert (z_stop = z_start + 2) as -> by lia.
    destruct (segment_between_single fuel z0 z1 stop_lower stop_upper st z_start)
      as (ma & mb & _ & _ & Hrun); try done; try lia.
    rewrite Hrun. eexists. split; [done|]. simpl.
    split; [apply length_insert|]. split; [done|].
    intros j Hj. apply slice_at_insert_ne; lia. }
  destruct (segment_between_general fuel z0 z1 stop_lower stop_upper st
              z_start z_stop) as (st' & Hrun & Hlen & Htr & _ & Hframe & _);
    try done; try lia.
  by exists st'.
Qed.

(** The loop over the pairs of neighbouring annotated slices. *)
Lemma for_each_between fuel z0 z1 stop_lower stop_upper (l : list Z) :
  forall st : state,
    ascending l = true ->
    Forall (fun s => 0 <= s < Z.of_nat (length (seg st))) l ->
    (length (seg st) <= fuel)%nat ->
    exists st',
      for_each (segment_between oracle fuel use_mask use_box z0 z1
                                stop_lower stop_upper)
               (consecutive l) st = Done st'
      /\ length (seg st') = length (seg st)
      /\ trace st'
         = trace st
           ++ concat (map (gap_events z0 z1 stop_lower stop_upper) (consecutive l))
      /\ (forall j, (forall pair, pair ∈ consecutive l -> ~ pair.1 < j < pair.2) ->
            slice_at (seg st') j = slice_at (seg st) j).
Proof.
  induction l as [|a [|b l] IH]; intros st Hasc Hall Hfuel.
  - exists st. unfold consecutive. simpl. by rewrite app_nil_r.
  - exists st. unfold consecutive. simpl. by rewrite app_nil_r.
  - rewrite consecutive_cons. cbn [for_each map concat].
    apply ascending_cons in Hasc as [Hab Hasc].
    inversion Hall as [|? ? Ha Hall']; subst.
    assert (Hb : 0 <= b < Z.of_nat (length (seg st))) by (by inversion Hall').
    destruct (segment_between_spec fuel z0 z1 stop_lower stop_upper st a b)
      as (st1 & Hrun1 & Hlen1 & Htr1 & Hframe1); try lia.
    rewrite Hrun1. unfold mbind at 1, outcome_bind at 1, bind at 1.
    destruct (IH st1 Hasc) as (st' & Hrun & Hlen & Htr & Hframe).
    { by rewrite Hlen1. }
    { by rewrite Hlen1. }
    exists st'. split; [done|]. split; [congruence|].
    split; [by rewrite Htr, Htr1, <- app_assoc|].
    intros j Hj. rewrite Hframe, Hframe1; [done| |].
    + apply (Hj (a, b)). apply list_elem_of_here.
    + intros pair Hpair. apply Hj. by apply list_elem_of_further.
Qed.

(** The walk below the lowest annotated slice, with the IOU threshold. *)
Lemma segment_range_below fuel z0 (iou_threshold : float) st :
  0 < z0 < Z.of_nat (length (seg st)) ->
  (Z.to_nat z0 <= fuel)%nat ->
  exists st' k,
    segment_range oracle fuel use_mask use_box z0 0 (-1) Z.ltb
                  (Some iou_threshold) st = Done st'
    /\ walked oracle use_mask use_box (-1) (Some iou_threshold)
              (Z.to_nat z0) (z0 - 1) st st' k.
Proof.
  intros Hz0 Hfuel. unfold segment_range.
  apply segment_range_loop_walked; first [lia | criterion].
Qed.

(** The walk above the highest annotated slice, with the IOU threshold. *)
Lemma segment_range_above fuel z1 (iou_threshold : float) st :
  0 <= z1 < Z.of_nat (length (seg st)) - 1 ->
  (length (seg st) <= fuel)%nat ->
  exists st' k,
    segment_range oracle fuel use_mask use_box z1
                  (Z.of_nat (length (seg st)) - 1) 1 Z.gtb
                  (Some iou_threshold) st = Done st'
    /\ walked oracle use_mask use_box 1 (Some iou_threshold)
              (Z.to_nat (Z.of_nat (length (seg st)) - 1 - z1)) (z1 + 1) st st' k.
Proof.
  intros Hz1 Hfuel. unfold segment_range.
  apply segment_range_loop_walked; first [lia | criterion].
Qed.

End Walks.

Section Volume.

Variable oracle : mask -> Z -> bool -> bool -> mask.

(** The whole of [_segment_volume] on sorted annotated slices inside the
    volume: the walk below, the walk above, then every gap. *)
Lemma _segment_volume_run fuel seg0 s rest stop_lower stop_upper
      (iou_threshold : float) p bar :
  let slices := s :: rest in
  let z0 := array_min s rest in
  let z1 := array_max s rest in
  let top := Z.of_nat (length seg0) - 1 in
  let use_mask := use_mask_of p in
  let st0 := mkState seg0 [] bar in
  ascending slices = true ->
  Forall (fun z => 0 <= z < Z.of_nat (length seg0)) slices ->
  (length seg0 <= fuel)%nat ->
  exists st_lo st_hi st' k_lo k_hi,
    _segment_volume oracle fuel seg0 slices stop_lower stop_upper
                    iou_threshold (projection_name p) bar = Done st'
    /\ (if (0 <? z0) && negb stop_lower
        then walked oracle use_mask true (-1) (Some iou_threshold)
                    (Z.to_nat z0) (z0 - 1) st0 st_lo k_lo
        else st_lo = st0 /\ k_lo = 0%nat)
    /\ (if (z1 <? top) && negb stop_upper
        then walked oracle use_mask true 1 (Some iou_threshold)
                    (Z.to_nat (top - z1)) (z1 + 1) st_lo st_hi k_hi
        else st_hi = st_lo /\ k_hi = 0%nat)
    /\ length (seg st_lo) = length seg0
    /\ length (seg st_hi) = length seg0
    /\ length (seg st') = length seg0
    /\ trace st'
       = walk_events (-1) (z0 - 1) k_lo ++ walk_events 1 (z1 + 1) k_hi
         ++ concat (map (gap_events z0 z1 stop_lower stop_upper)
                        (consecutive slices))
    /\ (forall j, (forall pair, pair ∈ consecutive slices -> ~ pair.1 < j < pair.2) ->
          slice_at (seg st') j = slice_at (seg st_hi) j).
Proof.
  intros slices z0 z1 top use_mask st0 Hasc Hall Hfuel. subst slices.
  destruct (array_min_spec s rest) as [Hz0in Hz0le].
  destruct (array_max_spec s rest) as [Hz1in Hz1ge].
  fold z0 in Hz0in, Hz0le. fold z1 in Hz1in, Hz1ge.
  assert (Hz0 : 0 <= z0 < Z.of_nat (length seg0)).
  { rewrite Forall_forall in Hall. by apply Hall. }
  assert (Hz1 : 0 <= z1 < Z.of_nat (length seg0)).
  { rewrite Forall_forall in Hall. by apply Hall. }
  unfold _segment_volume.
  replace (negb (String.eqb (projection_name p) "mask"
                 || String.eqb (projection_name p) "bounding_box"))
    with false by (by destruct p).
  replace (if String.eqb (projection_name p) "mask"
           then (true, true) else (false, true))
    with (use_mask, true) by (by destruct p).
  fold z0 z1 st0. cbv iota beta.
  (* below the lowest slice *)
  assert (Hlower : exists st_lo k_lo,
    (if (0 <? z0) && negb stop_lower
     then segment_range oracle fuel use_mask true z0 0 (-1) Z.ltb
                        (Some iou_threshold) st0
     else Done st0) = Done st_lo
    /\ (if (0 <? z0) && negb stop_lower
        then walked oracle use_mask true (-1) (Some iou_threshold)
                    (Z.to_nat z0) (z0 - 1) st0 st_lo k_lo
        else st_lo = st0 /\ k_lo = 0%nat)
    /\ length (seg st_lo) = length seg0
    /\ trace st_lo = walk_events (-1) (z0 - 1) k_lo).
  { destruct ((0 <? z0) && negb stop_lower) eqn:Hcond.
    - apply andb_prop in Hcond as [Hpos%Z.ltb_lt _].
      destruct (segment_range_below oracle use_mask true fuel z0
                  iou_threshold st0) as (st_lo & k_lo & Hrun & W);
        [simpl; lia|lia|].
      exists st_lo, k_lo. split; [done|]. split; [done|].
      split; [apply (w_length _ _ _ _ _ _ _ _ _ _ W)|].
      apply (w_trace _ _ _ _ _ _ _ _ _ _ W).
    - exists st0, 0%nat. done. }
  destruct Hlower as (st_lo & k_lo & Hrun_lo & Hlo & Hlen_lo & Htr_lo).
  rewrite Hrun_lo. unfold mbind at 1, outcome_bind at 1, bind at 1.
  rewrite Hlen_lo. fold top.
  (* above the highest slice *)
  assert (Hupper : exists st_hi k_hi,
    (if (z1 <? top) && negb stop_upper
     then segment_range oracle fuel use_mask true z1 top 1 Z.gtb
                        (Some iou_threshold) st_lo
     else Done st_lo) = Done st_hi
    /\ (if (z1 <? top) && negb stop_upper
        then walked oracle use_mask true 1 (Some iou_threshold)
                    (Z.to_nat (top - z1)) (z1 + 1) st_lo st_hi k_hi
        else st_hi = st_lo /\ k_hi = 0%nat)
    /\ length (seg st_hi) = length seg0
    /\ trace st_hi = trace st_lo ++ walk_events 1 (z1 + 1) k_hi).
  { destruct ((z1 <? top) && negb stop_upper) eqn:Hcond.
    - apply andb_prop in Hcond as [Hlt%Z.ltb_lt _].
      destruct (segment_range_above oracle use_mask true fuel z1
                  iou_threshold st_lo) as (st_hi & k_hi & Hrun & W);
        [rewrite Hlen_lo; fold top; lia|lia|].
      rewrite Hlen_lo in Hrun, W. fold top in Hrun, W.
      exists st_hi, k_hi. split; [done|]. split; [done|].
      split; [by rewrite (w_length _ _ _ _ _ _ _ _ _ _ W)|].
      apply (w_trace _ _ _ _ _ _ _ _ _ _ W).
    - exists st_lo, 0%nat. unfold walk_events, steps. simpl.
      by rewrite app_nil_r. }
  destruct Hupper as (st_hi & k_hi & Hrun_hi & Hhi & Hlen_hi & Htr_hi).
  rewrite Hrun_hi. unfold mbind at 1, outcome_bind at 1, bind at 1.
  (* in between *)
  destruct (for_each_between oracle use_mask true fuel z0 z1
              stop_lower stop_upper (s :: rest) st_hi)
    as (st' & Hrun & Hlen & Htr & Hframe);
    [done|by rewrite Hlen_hi|lia|].
  destruct (Z.eqb_spec z0 z1) as [Heq|Hne]; simpl negb; cbv iota.
  - (* a single annotated slice *)
    assert (rest = []) as Hrest.
    { destruct rest as [|b rest']; [done|]. exfalso.
      apply ascending_cons in Hasc as [Hsb _].
      inversion Hz0le as [|? ? Hs _]; subst.
      inversion Hz1ge as [|? ? _ Hr]; subst. inversion Hr; subst. lia. }
    subst rest. unfold consecutive in *. simpl in *.
    injection Hrun as <-.
    exists st_lo, st_hi, st_hi, k_lo, k_hi.
    repeat split; try done.
    by rewrite Htr_hi, Htr_lo, app_nil_r.
  - exists st_lo, st_hi, st', k_lo, k_hi.
    repeat split; try done; try congruence.
    by rewrite Htr, Htr_hi, Htr_lo, <- app_assoc.
Qed.

(** The same run, described on the volume it returns. *)
Lemma _segment_volume_summary fuel seg0 s rest stop_lower stop_upper
      (iou_threshold : float) p bar :
  let slices := s :: rest in
  let z0 := array_min s rest in
  let z1 := array_max s rest in
  let top := Z.of_nat (length seg0) - 1 in
  let use_mask := use_mask_of p in
  let iou prev z :=
    Util.compute_iou_f64 prev (oracle prev z use_mask true) in
  ascending slices = true ->
  Forall (fun z => 0 <= z < Z.of_nat (length seg0)) slices ->
  (length seg0 <= fuel)%nat ->
  exists st' k_lo k_hi,
    _segment_volume oracle fuel seg0 slices stop_lower stop_upper
                    iou_threshold (projection_name p) bar = Done st'
    /\ length (seg st') = length seg0
    /\ trace st'
       = walk_events (-1) (z0 - 1) k_lo ++ walk_events 1 (z1 + 1) k_hi
         ++ concat (map (gap_events z0 z1 stop_lower stop_upper)
                        (consecutive slices))
    /\ Z.of_nat k_lo <= z0 /\ Z.of_nat k_hi <= top - z1
    /\ ((0 <? z0) && negb stop_lower = false -> k_lo = 0%nat)
    /\ ((z1 <? top) && negb stop_upper = false -> k_hi = 0%nat)
    /\ (forall j, j ∉ map fst (trace st') ->
          slice_at (seg st') j = slice_at seg0 j)
    /\ (forall q, z0 - Z.of_nat k_lo <= q < z0 ->
          exists prev,
            slice_at (seg st') (q + 1) = Some prev
            /\ slice_at (seg st') q = Some (oracle prev q use_mask true)
            /\ PrimFloat.ltb (iou prev q) iou_threshold = false)
    /\ ((0 <? z0) && negb stop_lower = true -> Z.of_nat k_lo < z0 ->
        exists prev,
          slice_at (seg st') (z0 - Z.of_nat k_lo) = Some prev
          /\ PrimFloat.ltb (iou prev (z0 - Z.of_nat k_lo - 1)) iou_threshold = true)
    /\ (forall q, z1 < q <= z1 + Z.of_nat k_hi ->
          exists prev,
            slice_at (seg st') (q - 1) = Some prev
            /\ slice_at (seg st') q = Some (oracle prev q use_mask true)
            /\ PrimFloat.ltb (iou prev q) iou_threshold = false)
    /\ ((z1 <? top) && negb stop_upper = true -> Z.of_nat k_hi < top - z1 ->
        exists prev,
          slice_at (seg st') (z1 + Z.of_nat k_hi) = Some prev
          /\ PrimFloat.ltb (iou prev (z1 + Z.of_nat k_hi + 1)) iou_threshold = true).
Proof.
  intros slices z0 z1 top use_mask iou Hasc Hall Hfuel.
  destruct (_segment_volume_run fuel seg0 s rest stop_lower stop_upper
              iou_threshold p bar Hasc Hall Hfuel)
    as (st_lo & st_hi & st' & k_lo & k_hi & Hrun & Hlo & Hhi
        & Hlen_lo & Hlen_hi & Hlen & Htr & Hframe).
  fold slices z0 z1 top use_mask in Hrun, Hlo, Hhi, Htr, Hframe.
  destruct (array_min_spec s rest) as [Hz0in Hz0le].
  destruct (array_max_spec s rest) as [Hz1in Hz1ge].
  fold z0 slices in Hz0in, Hz0le. fold z1 slices in Hz1in, Hz1ge.
  rewrite Forall_forall in Hz0le, Hz1ge, Hall.
  assert (Hz01 : z0 <= z1) by (by apply Hz0le).
  pose proof (Hall _ Hz0in) as Hz0. pose proof (Hall _ Hz1in) as Hz1.
  simpl in Hz0, Hz1.
  (* the gaps lie between the lowest and the highest annotated slice *)
  assert (Hgap : forall j, j <= z0 \/ z1 <= j ->
            slice_at (seg st') j = slice_at (seg st_hi) j).
  { intros j Hj. apply Hframe. intros pair Hpair.
    destruct (consecutive_elem _ _ Hpair) as [H1 H2].
    apply Hz0le in H1. apply Hz1ge in H2. lia. }
  (* the walk below *)
  assert (Hlower :
    Z.of_nat k_lo <= z0
    /\ ((0 <? z0) && negb stop_lower = false -> k_lo = 0%nat)
    /\ trace st_lo = walk_events (-1) (z0 - 1) k_lo
    /\ (forall j, j ∉ steps (-1) (z0 - 1) k_lo ->
          slice_at (seg st_lo) j = slice_at seg0 j)
    /\ (forall q, z0 - Z.of_nat k_lo <= q < z0 ->
          exists prev,
            slice_at (seg st_lo) (q + 1) = Some prev
            /\ slice_at (seg st_lo) q = Some (oracle prev q use_mask true)
            /\ PrimFloat.ltb (iou prev q) iou_threshold = false)
    /\ ((0 <? z0) && negb stop_lower = true -> Z.of_nat k_lo < z0 ->
        exists prev,
          slice_at (seg st_lo) (z0 - Z.of_nat k_lo) = Some prev
          /\ PrimFloat.ltb (iou prev (z0 - Z.of_nat k_lo - 1)) iou_threshold = true)).
  { destruct ((0 <? z0) && negb stop_lower) eqn:Hcond.
    - destruct Hlo as [Hle _ _ Htr_lo _ Hfr Hdata Hstop].
      split; [lia|]. split; [done|]. split; [done|]. split; [done|].
      split.
      + intros q Hq. destruct (Hdata q) as (prev & H1 & H2 & H3).
        { rewrite elem_of_steps_down. lia. }
        exists prev. replace (q - -1) with (q + 1) in H1 by lia.
        by apply below_threshold_false in H3.
      + intros _ Hk. destruct Hstop as (prev & H1 & H2); [lia|].
        exists prev.
        replace (z0 - 1 + -1 * Z.of_nat k_lo - -1)
          with (z0 - Z.of_nat k_lo) in H1 by lia.
        replace (z0 - 1 + -1 * Z.of_nat k_lo)
          with (z0 - Z.of_nat k_lo - 1) in H2 by lia.
        by apply below_threshold_true in H2.
    - destruct Hlo as [-> ->]. simpl.
      split; [lia|]. split; [done|]. split; [done|]. split; [done|].
      split; [intros q Hq; lia|done]. }
  destruct Hlower as (Hk_lo & Hoff_lo & Htr_lo & Hfr_lo & Hdata_lo & Hstop_lo).
  (* the walk above *)
  assert (Hupper :
    Z.of_nat k_hi <= top - z1
    /\ ((z1 <? top) && negb stop_upper = false -> k_hi = 0%nat)
    /\ (forall j, j ∉ steps 1 (z1 + 1) k_hi ->
          slice_at (seg st_hi) j = slice_at (seg st_lo) j)
    /\ (forall q, z1 < q <= z1 + Z.of_nat k_hi ->
          exists prev,
            slice_at (seg st_hi) (q - 1) = Some prev
            /\ slice_at (seg st_hi) q = Some (oracle prev q use_mask true)
            /\ PrimFloat.ltb (iou prev q) iou_threshold = false)
    /\ ((z1 <? top) && negb stop_upper = true -> Z.of_nat k_hi < top - z1 ->
        exists prev,
          slice_at (seg st_hi) (z1 + Z.of_nat k_hi) = Some prev
          /\ PrimFloat.ltb (iou prev (z1 + Z.of_nat k_hi + 1)) iou_threshold = true)).
  { destruct ((z1 <? top) && negb stop_upper) eqn:Hcond.
    - apply andb_prop in Hcond as [Hlt%Z.ltb_lt _].
      destruct Hhi as [Hle _ _ _ _ Hfr Hdata Hstop].
      split; [lia|]. split; [done|]. split; [done|].
      split.
      + intros q Hq. destruct (Hdata q) as (prev & H1 & H2 & H3).
        { rewrite elem_of_steps_up. lia. }
        exists prev. by apply below_threshold_false in H3.
      + intros _ Hk. destruct Hstop as (prev & H1 & H2); [lia|].
        exists prev.
        replace (z1 + 1 + 1 * Z.of_nat k_hi - 1)
          with (z1 + Z.of_nat k_hi) in H1 by lia.
        replace (z1 + 1 + 1 * Z.of_nat k_hi)
          with (z1 + Z.of_nat k_hi + 1) in H2 by lia.
        by apply below_threshold_true in H2.
    - destruct Hhi as [-> ->]. simpl.
      split; [lia|]. split; [done|]. split; [done|].
      split; [intros q Hq; lia|done]. }
  destruct Hupper as (Hk_hi & Hoff_hi & Hfr_hi & Hdata_hi & Hstop_hi).
  exists st', k_lo, k_hi.
  split; [done|]. split; [done|]. split; [done|].
  split; [done|]. split; [done|]. split; [done|]. split; [done|].
  split.
  { (* what is not in the trace is as it was *)
    intros j Hj. rewrite Htr, !map_app, !walk_events_slices in Hj.
    apply not_elem_of_app in Hj as [Hj1 Hj].
    apply not_elem_of_app in Hj as [Hj2 Hj3].
    rewrite Hframe, Hfr_hi, Hfr_lo; try done.
    intros pair Hpair Hbetween. apply Hj3.
    apply (gaps_slices z0 z1 stop_lower stop_upper slices Hasc).
    by exists pair. }
  split.
  { intros q Hq. destruct (Hdata_lo q Hq) as (prev & H1 & H2 & H3).
    exists prev. rewrite !Hgap by lia.
    rewrite !Hfr_hi by (rewrite elem_of_steps_up; lia). done. }
  split.
  { intros Hcond Hk. destruct (Hstop_lo Hcond Hk) as (prev & H1 & H2).
    exists prev. rewrite Hgap by lia.
    rewrite Hfr_hi by (rewrite elem_of_steps_up; lia). done. }
  split.
  { intros q Hq. destruct (Hdata_hi q Hq) as (prev & H1 & H2 & H3).
    exists prev. rewrite !Hgap by lia. done. }
  intros Hcond Hk. destruct (Hstop_hi Hcond Hk) as (prev & H1 & H2).
  exists prev. rewrite Hgap by lia. done.
Qed.

End Volume.

(** C1.  Between two annotated slices more than two apart, with no stop
    flag on the pair, the engine walks up from [z_start] and down from
    [z_stop] towards [z_mid].  When the gap is even neither walk writes
    [z_mid], which is then segmented from the union of the masks at
    [z_mid - 1] and [z_mid + 1]: the prompt has a foreground pixel wherever
    one of the two masks has label 1.  When the gap is odd the walk up
    writes [z_mid] and there is no union step.  Either way every slice
    strictly between the two is written exactly once. *)
Theorem general_gap_walks_meet_at_middle
        oracle use_mask use_box fuel z0 z1 stop_lower stop_upper st z_start z_stop :
  let z_mid := (z_start + z_stop) `div` 2 in
  let even := (z_stop - z_start) `mod` 2 =? 0 in
  let up_end := if even then z_mid - 1 else z_mid in
  let forward := Z.to_nat (up_end - z_start) in
  let backward := Z.to_nat (z_stop - 1 - z_mid) in
  0 <= z_start -> z_stop < Z.of_nat (length (seg st)) ->
  2 < z_stop - z_start ->
  (Z.to_nat (z_stop - z_start) <= fuel)%nat ->
  (z_start =? z0) && stop_lower = false ->
  (z_stop =? z1) && stop_upper = false ->
  exists st' written,
    segment_between oracle fuel use_mask use_box z0 z1 stop_lower stop_upper st
                    (z_start, z_stop) = Done st'
    /\ trace st' = trace st ++ written
    /\ written
       = walk_events 1 (z_start + 1) forward
         ++ walk_events (-1) (z_stop - 1) backward
         ++ (if even then [(z_mid, FromUnion (z_mid - 1) (z_mid + 1))] else [])
    /\ (if even
        then (z_mid ∉ steps 1 (z_start + 1) forward)
             /\ (z_mid ∉ steps (-1) (z_stop - 1) backward)
        else z_mid ∈ steps 1 (z_start + 1) forward)
    /\ NoDup (map fst written)
    /\ (forall z, z ∈ map fst written <-> z_start < z < z_stop)
    /\ (forall q, z_start < q <= up_end ->
          exists prev, slice_at (seg st') (q - 1) = Some prev
                       /\ slice_at (seg st') q
                          = Some (oracle prev q use_mask use_box))
    /\ (forall q, z_mid < q < z_stop ->
          exists next, slice_at (seg st') (q + 1) = Some next
                       /\ slice_at (seg st') q
                          = Some (oracle next q use_mask use_box))
    /\ (even = true ->
          exists a b, slice_at (seg st') (z_mid - 1) = Some a
                      /\ slice_at (seg st') (z_mid + 1) = Some b
                      /\ slice_at (seg st') z_mid
                         = Some (oracle (combined_prompt a b) z_mid
                                        use_mask use_box)
                      /\ (forall r c x y,
                            pixel a r c = Some x -> pixel b r c = Some y ->
                            pixel (combined_prompt a b) r c
                            = Some (of_bool (is_one x || is_one y))))
    /\ (forall j, ~ z_start < j < z_stop ->
          slice_at (seg st') j = slice_at (seg st) j)
    /\ pixel (combined_prompt mask_A mask_B) 1 1 = Some 1
    /\ pixel (combined_prompt mask_A mask_B) 2 2 = Some 1
    /\ pixel (combined_prompt mask_A mask_B) 0 0 = Some 0.
Proof.
  intros z_mid even up_end forward backward Hlo Hhi Hd Hfuel Hlower Hupper.
  destruct (segment_between_general oracle use_mask use_box fuel z0 z1
              stop_lower stop_upper st z_start z_stop Hlo Hhi Hd Hfuel
              Hlower Hupper)
    as (st' & Hrun & _ & Htr & _ & Hframe & Hup & Hdown & Hunion).
  destruct (general_events_slices z_start z_stop Hd) as [Hnodup Hmem].
  exists st', (general_events z_start z_stop).
  split; [done|]. split; [done|]. split; [done|].
  split.
  { assert (Hmid : if even then 2 * z_mid = z_start + z_stop
                   else 2 * z_mid + 1 = z_start + z_stop).
    { unfold even, z_mid.
      destruct (Z.eqb_spec ((z_stop - z_start) `mod` 2) 0);
        Z.div_mod_to_equations; lia. }
    unfold forward, backward, up_end. destruct even.
    - rewrite elem_of_steps_up, elem_of_steps_down. lia.
    - rewrite elem_of_steps_up. lia. }
  split; [done|]. split; [done|]. split; [done|]. split; [done|].
  split; [|done].
  intros Heven. destruct (Hunion Heven) as (a & b & Ha & Hb & Hmid).
  exists a, b. split; [done|]. split; [done|]. split; [done|].
  intros r c x y. apply pixel_combined_prompt.
Qed.

Lemma general_gap_walks_meet_at_middle_witness :
  let st := mkState [mask_A; mask_0; mask_0; mask_0; mask_B] [] (Some 0%nat) in
  exists st',
    segment_between echo 4 true true 0 4 false false st (0, 4) = Done st'
    (* slice 1 from slice 0, slice 3 from slice 4, slice 2 from both *)
    /\ trace st' = [(1, FromSlice 0); (3, FromSlice 4); (2, FromUnion 1 3)]
    /\ seg st' = [mask_A; mask_A; [[0; 0; 0]; [0; 1; 0]; [0; 0; 1]]; mask_B; mask_B].
Proof.
  intros st.
  destruct (general_gap_walks_meet_at_middle echo true true 4 0 4 false false
              st 0 4) as (st' & written & Hrun & Htr & Hw & _);
    [lia | simpl; lia | lia | simpl; lia | reflexivity | reflexivity |].
  exists st'. split; [exact Hrun|]. split; [rewrite Htr, Hw; reflexivity|].
  vm_compute in Hrun. injection Hrun as <-. reflexivity.
Defined.

(** C3, the claim as it stands fails: with annotated slices 0 and 2 and
    [stop_lower] set, slice 1 is segmented by a walk down from slice 2
    alone, so with the masks [{(1,1)}] and [{(2,2)}] its prompt is
    [{(2,2)}], not their union. *)
Lemma single_gap_with_stop_counterexample :
  _segment_volume echo 3 [mask_A; mask_0; mask_B] [0; 2] true false 0%float
                  "mask" None
  = Done (mkState [mask_A; mask_B; mask_B] [(1, FromSlice 2)] None)
  /\ mask_B <> combined_prompt mask_A mask_B.
Proof. split; [vm_compute; reflexivity|discriminate]. Qed.

(** C3 (amended).  Between two annotated slices exactly two apart, when
    neither stop flag applies to the pair, the slice in between is segmented
    once, without any walk, from the prompt that has a foreground pixel
    wherever one of the two bounding masks has label 1; for the masks
    [{(1,1)}] and [{(2,2)}] the prompt holds both points. *)
Theorem single_gap_uses_union
        oracle use_mask use_box fuel z0 z1 stop_lower stop_upper st z_start :
  0 <= z_start -> z_start + 2 < Z.of_nat (length (seg st)) ->
  (z_start =? z0) && stop_lower = false ->
  (z_start + 2 =? z1) && stop_upper = false ->
  exists ma mb,
    slice_at (seg st) z_start = Some ma
    /\ slice_at (seg st) (z_start + 2) = Some mb
    /\ segment_between oracle fuel use_mask use_box z0 z1 stop_lower stop_upper st
                       (z_start, z_start + 2)
       = Done (mkState
                 (<[Z.to_nat (z_start + 1) :=
                      oracle (combined_prompt ma mb) (z_start + 1) use_mask use_box]>
                    (seg st))
                 (trace st ++ [(z_start + 1, FromUnion z_start (z_start + 2))])
                 (add_progress 1 (progress_bar st)))
    /\ (forall r c x y,
          pixel ma r c = Some x -> pixel mb r c = Some y ->
          pixel (combined_prompt ma mb) r c = Some (of_bool (is_one x || is_one y)))
    /\ pixel (combined_prompt mask_A mask_B) 1 1 = Some 1
    /\ pixel (combined_prompt mask_A mask_B) 2 2 = Some 1.
Proof.
  intros Hlo Hhi Hlower Hupper.
  destruct (segment_between_single oracle use_mask use_box fuel z0 z1
              stop_lower stop_upper st z_start Hlo Hhi Hlower Hupper)
    as (ma & mb & Ha & Hb & Hrun).
  exists ma, mb. split; [done|]. split; [done|]. split; [done|].
  split; [intros r c x y; apply pixel_combined_prompt|]. done.
Qed.

Lemma single_gap_uses_union_witness :
  segment_between echo 0 true true 0 2 false false
                  (mkState [mask_A; mask_0; mask_B] [] None) (0, 2)
  = Done (mkState [mask_A; combined_prompt mask_A mask_B; mask_B]
                  [(1, FromUnion 0 2)] None).
Proof.
  destruct (single_gap_uses_union echo true true 0 0 2 false false
              (mkState [mask_A; mask_0; mask_B] [] None) 0)
    as (ma & mb & Ha & Hb & Hrun & _);
    [lia | simpl; lia | reflexivity | reflexivity |].
  injection Ha as <-. injection Hb as <-. exact Hrun.
Defined.

(** C2.  The walk below the lowest annotated slice [z0] is made exactly
    when [z0 > 0] and [stop_lower] is unset, the walk above the highest one
    [z1] exactly when [z1] is under the top slice and [stop_upper] is unset.
    Each walk moves away from the annotated range one slice at a time,
    prompting every slice with the mask just written next to it and keeping
    it while its IOU with that mask is not below the threshold; at the
    first IOU below the threshold the walk ends and that slice and all
    those beyond it keep the masks they came with.  The IOU is the binary64
    quotient of the number of pixels in both foregrounds by the number of
    pixels in either plus [eps], and it is compared with the threshold as
    binary64 numbers.  The gaps between annotated slices are filled
    completely whatever the threshold and the oracle. *)
Theorem outward_extension_stops_on_iou
        oracle fuel seg0 s rest stop_lower stop_upper (iou_threshold : float) p bar :
  let slices := s :: rest in
  let z0 := array_min s rest in
  let z1 := array_max s rest in
  let top := Z.of_nat (length seg0) - 1 in
  let use_mask := use_mask_of p in
  let iou prev z := Util.compute_iou_f64 prev (oracle prev z use_mask true) in
  let gaps := concat (map (gap_events z0 z1 stop_lower stop_upper)
                          (consecutive slices)) in
  ascending slices = true ->
  Forall (fun z => 0 <= z < Z.of_nat (length seg0)) slices ->
  (length seg0 <= fuel)%nat ->
  exists st' k_lo k_hi,
    _segment_volume oracle fuel seg0 slices stop_lower stop_upper
                    iou_threshold (projection_name p) bar = Done st'
    /\ trace st'
       = walk_events (-1) (z0 - 1) k_lo ++ walk_events 1 (z1 + 1) k_hi ++ gaps
    (* when the walks are made *)
    /\ Z.of_nat k_lo <= z0 /\ Z.of_nat k_hi <= top - z1
    /\ ((0 <? z0) && negb stop_lower = false -> k_lo = 0%nat)
    /\ ((z1 <? top) && negb stop_upper = false -> k_hi = 0%nat)
    (* the slices they write *)
    /\ (forall q, z0 - Z.of_nat k_lo <= q < z0 ->
          exists prev,
            slice_at (seg st') (q + 1) = Some prev
            /\ slice_at (seg st') q = Some (oracle prev q use_mask true)
            /\ PrimFloat.ltb (iou prev q) iou_threshold = false)
    /\ (forall q, z1 < q <= z1 + Z.of_nat k_hi ->
          exists prev,
            slice_at (seg st') (q - 1) = Some prev
            /\ slice_at (seg st') q = Some (oracle prev q use_mask true)
            /\ PrimFloat.ltb (iou prev q) iou_threshold = false)
    (* why they end before the boundary *)
    /\ ((0 <? z0) && negb stop_lower = true -> Z.of_nat k_lo < z0 ->
        exists prev,
          slice_at (seg st') (z0 - Z.of_nat k_lo) = Some prev
          /\ PrimFloat.ltb (iou prev (z0 - Z.of_nat k_lo - 1)) iou_threshold = true)
    /\ ((z1 <? top) && negb stop_upper = true -> Z.of_nat k_hi < top - z1 ->
        exists prev,
          slice_at (seg st') (z1 + Z.of_nat k_hi) = Some prev
          /\ PrimFloat.ltb (iou prev (z1 + Z.of_nat k_hi + 1)) iou_threshold = true)
    (* what they leave alone *)
    /\ (forall j, j < z0 - Z.of_nat k_lo \/ z1 + Z.of_nat k_hi < j ->
          slice_at (seg st') j = slice_at seg0 j)
    (* no stop inside the annotated range *)
    /\ (forall z, z0 < z < z1 -> z ∉ slices -> z ∈ map fst gaps)
    (* the IOU that is compared with the threshold *)
    /\ (forall a b, same_shape a b ->
          Util.compute_iou_f64 a b
          = (Util.float_of_Z (Z.of_nat (size (foreground a ∩ foreground b)))
             / (Util.float_of_Z (Z.of_nat (size (foreground a ∪ foreground b)))
                + 0x1.ad7f29abcaf48p-24))%float).
Proof.
  intros slices z0 z1 top use_mask iou gaps Hasc Hall Hfuel.
  destruct (_segment_volume_summary oracle fuel seg0 s rest stop_lower
              stop_upper iou_threshold p bar Hasc Hall Hfuel)
    as (st' & k_lo & k_hi & Hrun & Hlen & Htr & Hk_lo & Hk_hi & Hoff_lo
        & Hoff_hi & Hframe & Hdata_lo & Hstop_lo & Hdata_hi & Hstop_hi).
  fold slices z0 z1 top use_mask in Hrun, Htr, Hk_lo, Hk_hi, Hoff_lo, Hoff_hi,
    Hframe, Hdata_lo, Hstop_lo, Hdata_hi, Hstop_hi.
  destruct (array_min_spec s rest) as [Hz0in Hz0le].
  destruct (array_max_spec s rest) as [Hz1in Hz1ge].
  fold z0 slices in Hz0in, Hz0le. fold z1 slices in Hz1in, Hz1ge.
  rewrite Forall_forall in Hz0le, Hz1ge.
  exists st', k_lo, k_hi.
  split; [done|]. split; [done|]. split; [done|]. split; [done|].
  split; [done|]. split; [done|]. split; [done|]. split; [done|].
  split; [done|]. split; [done|].
  split.
  - intros j Hj. apply Hframe. rewrite Htr.
    rewrite (run_events_slices z0 z1 stop_lower stop_upper slices k_lo k_hi j Hasc).
    assert (Hz01 : z0 <= z1) by (by apply Hz0le).
    intros [H|[H|(pair & Hpair & H)]]; try lia.
    destruct (consecutive_elem _ _ Hpair) as [H1 H2].
    apply Hz0le in H1. apply Hz1ge in H2. lia.
  - split; [|apply UtilFacts.compute_iou_f64_counts].
    intros z Hz Hnot.
    apply (gaps_slices z0 z1 stop_lower stop_upper slices Hasc).
    apply ascending_covered; try done.
    + exists z0. split; [done|lia].
    + exists z1. split; [done|lia].
Qed.

Lemma outward_extension_stops_on_iou_witness :
  let seg0 := [mask_0; mask_0; mask_A; mask_0; mask_0] in
  exists st',
    _segment_volume (fading [1]) 5 seg0 [2] false false 0.5%float "mask" None
    = Done st'
    (* slice 1 is kept, the walks end at slices 0 and 3 *)
    /\ trace st' = [(1, FromSlice 2)]
    /\ seg st' = [mask_0; mask_A; mask_A; mask_0; mask_0]
    /\ PrimFloat.ltb (Util.compute_iou_f64 mask_A mask_A) 0.5 = false
    /\ PrimFloat.ltb (Util.compute_iou_f64 mask_A mask_0) 0.5 = true.
Proof.
  intros seg0.
  destruct (outward_extension_stops_on_iou (fading [1]) 5 seg0 2 [] false false
              0.5%float MaskProjection None)
    as (st' & k_lo & k_hi & Hrun & Htr & _ & _ & _ & _ & _ & _ & Hstop_lo
        & Hstop_hi & _);
    [reflexivity | repeat constructor; simpl; lia | simpl; lia |].
  exists st'. split; [exact Hrun|].
  vm_compute in Hrun. injection Hrun as <-.
  split; [reflexivity|]. split; [reflexivity|].
  split; vm_compute; reflexivity.
Defined.

(** At the threshold that is the binary64 IOU of two identical masks with
    two foreground pixels, that IOU is not below the threshold: both outward
    walks write their slice. *)
Example threshold_equal_to_iou_does_not_stop :
  let m : mask := [[1; 1]] in
  let e : mask := [[0; 0]] in
  Util.compute_iou_f64 m m = 0x1.fffffe5280d7dp-1%float
  /\ trace <$> _segment_volume echo 3 [e; m; e] [1] false false
                  0x1.fffffe5280d7dp-1%float "mask" None
     = Done [(0, FromSlice 1); (2, FromSlice 1)].
Proof. split; vm_compute; reflexivity. Qed.

(** C10.  With the annotated slices sorted and inside the volume, every
    slice the engine writes lies below the lowest annotated slice, above
    the highest one, or strictly between two neighbouring ones; none is an
    annotated slice, and the masks at the annotated slices are the same
    when the call returns. *)
Theorem annotated_slices_never_written
        oracle fuel seg0 s rest stop_lower stop_upper (iou_threshold : float) p bar :
  let slices := s :: rest in
  let z0 := array_min s rest in
  let z1 := array_max s rest in
  ascending slices = true ->
  Forall (fun z => 0 <= z < Z.of_nat (length seg0)) slices ->
  (length seg0 <= fuel)%nat ->
  exists st',
    _segment_volume oracle fuel seg0 slices stop_lower stop_upper
                    iou_threshold (projection_name p) bar = Done st'
    /\ (forall z, z ∈ map fst (trace st') ->
          (z ∉ slices)
          /\ (z < z0 \/ z1 < z
              \/ exists pair, pair ∈ consecutive slices /\ pair.1 < z < pair.2))
    /\ (forall z, z ∈ slices -> slice_at (seg st') z = slice_at seg0 z).
Proof.
  intros slices z0 z1 Hasc Hall Hfuel.
  destruct (_segment_volume_summary oracle fuel seg0 s rest stop_lower
              stop_upper iou_threshold p bar Hasc Hall Hfuel)
    as (st' & k_lo & k_hi & Hrun & Hlen & Htr & Hk_lo & Hk_hi & _ & _
        & Hframe & _).
  fold slices z0 z1 in Hrun, Htr, Hk_lo, Hk_hi, Hframe.
  destruct (array_min_spec s rest) as [Hz0in Hz0le].
  destruct (array_max_spec s rest) as [Hz1in Hz1ge].
  fold z0 slices in Hz0in, Hz0le. fold z1 slices in Hz1in, Hz1ge.
  rewrite Forall_forall in Hz0le, Hz1ge.
  assert (Hwritten : forall z, z ∈ map fst (trace st') ->
            (z ∉ slices)
            /\ (z < z0 \/ z1 < z
                \/ exists pair, pair ∈ consecutive slices /\ pair.1 < z < pair.2)).
  { intros z Hz. rewrite Htr in Hz.
    apply (run_events_slices z0 z1 stop_lower stop_upper slices k_lo k_hi z Hasc)
      in Hz.
    destruct Hz as [H|[H|(pair & Hpair & H)]].
    - split; [|left; lia]. intros Hin%Hz0le. lia.
    - split; [|right; left; lia]. intros Hin%Hz1ge. lia.
    - split; [|right; right; by exists pair].
      intros Hin. by apply (ascending_gaps slices z pair Hasc Hin Hpair). }
  exists st'. split; [done|]. split; [done|].
  intros z Hz. apply Hframe. intros Hin. by apply (Hwritten z Hin).
Qed.

Lemma annotated_slices_never_written_witness :
  exists st',
    _segment_volume echo 6 [mask_0; mask_A; mask_0; mask_B; mask_0; mask_0]
                    [1; 3] false false 0%float "bounding_box" None = Done st'
    /\ slice_at (seg st') 1 = Some mask_A
    /\ slice_at (seg st') 3 = Some mask_B.
Proof.
  destruct (annotated_slices_never_written echo 6
              [mask_0; mask_A; mask_0; mask_B; mask_0; mask_0] 1 [3]
              false false 0%float BoundingBoxProjection None)
    as (st' & Hrun & _ & Hkept);
    [reflexivity | repeat constructor; simpl; lia | simpl; lia |].
  exists st'. split; [exact Hrun|].
  split; rewrite Hkept; first [reflexivity | set_solver].
Defined.

(** Two runs on a volume of depth 10 annotated at slices 2 and 7.  With
    threshold 0 and the echo oracle every slice is filled: 1 and 0 by the
    walk below, 8 and 9 by the walk above, 3 to 6 by the general case of an
    odd gap.  With threshold 0.99 and an oracle that answers with an empty
    mask from the second step of a walk on, each outward walk keeps one
    slice. *)
Example depth_10_all_slices_filled :
  trace <$> _segment_volume echo 10
              [mask_0; mask_0; mask_A; mask_0; mask_0; mask_0; mask_0; mask_B;
               mask_0; mask_0]
              [2; 7] false false 0%float "mask" None
  = Done [(1, FromSlice 2); (0, FromSlice 1); (8, FromSlice 7); (9, FromSlice 8);
          (3, FromSlice 2); (4, FromSlice 3); (6, FromSlice 7); (5, FromSlice 6)].
Proof. vm_compute. reflexivity. Qed.

Example depth_10_outward_walks_stop_after_one_step :
  trace <$> _segment_volume (fading [1; 8; 3; 4; 5; 6]) 10
              [mask_0; mask_0; mask_A; mask_0; mask_0; mask_0; mask_0; mask_B;
               mask_0; mask_0]
              [2; 7] false false 0x1.fae147ae147aep-1%float "mask" None
  = Done [(1, FromSlice 2); (8, FromSlice 7);
          (3, FromSlice 2); (4, FromSlice 3); (6, FromSlice 7); (5, FromSlice 6)].
Proof. vm_compute. reflexivity. Qed.

(** An unknown projection is refused before anything else is looked at. *)
Lemma unknown_projection_raises
      oracle fuel seg0 segmented_slices stop_lower stop_upper (iou_threshold : float)
      projection bar :
  projection <> "mask"%string -> projection <> "bounding_box"%string ->
  _segment_volume oracle fuel seg0 segmented_slices stop_lower stop_upper
                  iou_threshold projection bar
  = Raise InvalidProjection.
Proof.
  intros H1%String.eqb_neq H2%String.eqb_neq. unfold _segment_volume.
  by rewrite H1, H2.
Qed.

(** C8, at a failing input: one annotated slice in the middle of three, no
    stop flag, threshold 0.  Slices 0 and 2 are segmented, and the progress
    bar that came in at 0 is still at 0. *)
Theorem progress_misses_last_slice_of_walk :
  exists st',
    _segment_volume echo 3 [mask_0; mask_A; mask_0] [1] false false 0%float
                    "mask" (Some 0%nat) = Done st'
    /\ seg st' = [mask_A; mask_A; mask_A]
    /\ map fst (trace st') = [0; 2]
    /\ progress_bar st' = Some 0%nat.
Proof. eexists. split; [vm_compute; reflexivity|]. done. Qed.

(** C9.  With no annotated slice the call raises, whatever the other
    arguments: the minimum of an empty array does not exist. *)
Theorem empty_annotation_set_raises
        oracle fuel seg0 stop_lower stop_upper (iou_threshold : float)
        (p : projection_mode) bar :
  _segment_volume oracle fuel seg0 [] stop_lower stop_upper iou_threshold
                  (projection_name p) bar
  = Raise EmptyAnnotationSet.
Proof. by destruct p. Qed.

(** *** Invariants of a run, whatever the arguments *)

Lemma extends_refl (st : state) : extends st st.
Proof.
  split; [done|]. exists [], 0%nat. rewrite app_nil_r.
  split; [done|]. split; [constructor|]. split; [by destruct (progress_bar st)|done].
Qed.

Lemma extends_trans (st1 st2 st3 : state) :
  extends st1 st2 -> extends st2 st3 -> extends st1 st3.
Proof.
  intros [Hl1 (a1 & d1 & Ht1 & Hb1 & Hp1 & Hd1)] [Hl2 (a2 & d2 & Ht2 & Hb2 & Hp2 & Hd2)].
  split; [congruence|]. exists (a1 ++ a2), (d2 + d1)%nat.
  split; [by rewrite Ht2, Ht1, app_assoc|].
  split; [apply Forall_app; split; [done|by rewrite <- Hl1]|].
  split; [rewrite Hp2, Hp1; destruct (progress_bar st1); simpl; [f_equal; lia|done]|].
  rewrite length_app. lia.
Qed.

Lemma index_Done (n : nat) (i : Z) (k : nat) : index n i = Done k -> (k < n)%nat.
Proof.
  unfold index.
  destruct ((0 <=? i) && (i <? Z.of_nat n)) eqn:E1.
  { intros H. injection H as <-. lia. }
  destruct ((- Z.of_nat n <=? i) && (i <? 0)) eqn:E2; [|done].
  intros H. injection H as <-. lia.
Qed.

Lemma setitem_Done (st : state) (i : Z) (m : mask) (src : source) (st' : state) :
  setitem st i m src = Done st' ->
  length (seg st') = length (seg st)
  /\ progress_bar st' = progress_bar st
  /\ exists k, (k < length (seg st))%nat /\ trace st' = trace st ++ [(Z.of_nat k, src)].
Proof.
  unfold setitem. destruct (index (length (seg st)) i) as [k| |] eqn:Hk; [|done|done].
  intros H. injection H as <-. simpl. rewrite length_insert.
  split; [done|]. split; [done|]. exists k. split; [|done]. by apply index_Done in Hk.
Qed.

Lemma setitem_progress_extends (st : state) (i : Z) (m : mask) (src : source)
      (st' : state) (count : bool) :
  setitem st i m src = Done st' ->
  extends st (if count then _update_progress st' else st').
Proof.
  intros (Hlen & Hbar & k & Hk & Htr)%setitem_Done.
  split; [by destruct count|].
  exists [(Z.of_nat k, src)], (if count then 1 else 0)%nat.
  split; [by destruct count|].
  split; [constructor; [simpl; lia|constructor]|].
  split; [|destruct count; simpl; lia].
  destruct count; simpl; rewrite Hbar; by destruct (progress_bar st).
Qed.

Section Invariants.

Variable oracle : mask -> Z -> bool -> bool -> mask.

Lemma segment_range_loop_extends use_mask use_box z_stop inc crit threshold
      (fuel : nat) :
  forall z st st',
    segment_range_loop oracle fuel use_mask use_box z_stop inc crit threshold z st
    = Done st' ->
    extends st st'.
Proof.
  induction fuel as [|fuel IH]; intros z st st'; [done|]. simpl.
  destruct (getitem (seg st) (z - inc)) as [prev| |]; [|done|done].
  rewrite bind_Done_l.
  destruct (below_threshold _ threshold).
  { intros H. injection H as <-. apply extends_refl. }
  destruct (setitem st z _ _) as [st1| |] eqn:Hset; [|done|done].
  rewrite bind_Done_l.
  destruct (crit (z + inc) z_stop).
  - intros H. injection H as <-.
    apply (setitem_progress_extends _ _ _ _ _ false Hset).
  - intros H%IH. eapply extends_trans; [|exact H].
    apply (setitem_progress_extends _ _ _ _ _ true Hset).
Qed.

Lemma segment_range_extends fuel use_mask use_box z_start z_stop inc crit
      threshold st st' :
  segment_range oracle fuel use_mask use_box z_start z_stop inc crit threshold st
  = Done st' ->
  extends st st'.
Proof. apply segment_range_loop_extends. Qed.

Lemma segment_combined_extends use_mask use_box z a b st st' :
  segment_combined oracle use_mask use_box z a b st = Done st' -> extends st st'.
Proof.
  unfold segment_combined.
  destruct (getitem (seg st) a) as [ma| |]; [|done|done]. rewrite bind_Done_l.
  destruct (getitem (seg st) b) as [mb| |]; [|done|done]. rewrite bind_Done_l.
  destruct (setitem st z _ _) as [st1| |] eqn:Hset; [|done|done].
  rewrite bind_Done_l. intros H. injection H as <-.
  apply (setitem_progress_extends _ _ _ _ _ true Hset).
Qed.

Lemma segment_between_extends fuel use_mask use_box z0 z1 stop_lower stop_upper
      st pair st' :
  segment_between oracle fuel use_mask use_box z0 z1 stop_lower stop_upper st pair
  = Done st' ->
  extends st st'.
Proof.
  unfold segment_between. destruct pair as [z_start z_stop].
  destruct (z_stop - z_start =? 1).
  { intros H. injection H as <-. apply extends_refl. }
  destruct ((z_start =? z0) && stop_lower); [apply segment_range_extends|].
  destruct ((z_stop =? z1) && stop_upper); [apply segment_range_extends|].
  destruct (z_stop - z_start =? 2); [apply segment_combined_extends|].
  destruct (segment_range _ _ _ _ z_start _ _ _ _ _) as [st1| |] eqn:H1; [|done|done].
  rewrite bind_Done_l.
  destruct (segment_range _ _ _ _ z_stop _ _ _ _ _) as [st2| |] eqn:H2; [|done|done].
  rewrite bind_Done_l.
  apply segment_range_extends in H1, H2.
  destruct ((z_stop - z_start) `mod` 2 =? 0).
  - intros H3%segment_combined_extends.
    eapply extends_trans; [|exact H3]. by eapply extends_trans.
  - intros H. injection H as <-. by eapply extends_trans.
Qed.

Lemma for_each_extends fuel use_mask use_box z0 z1 stop_lower stop_upper
      (pairs : list (Z * Z)) :
  forall st st',
    for_each (segment_between oracle fuel use_mask use_box z0 z1
                              stop_lower stop_upper) pairs st = Done st' ->
    extends st st'.
Proof.
  induction pairs as [|pair pairs IH]; intros st st'; simpl.
  { intros H. injection H as <-. apply extends_refl. }
  destruct (segment_between _ _ _ _ _ _ _ _ st pair) as [st1| |] eqn:H1;
    [|done|done].
  rewrite bind_Done_l. intros H%IH.
  apply segment_between_extends in H1. by eapply extends_trans.
Qed.

Lemma _segment_volume_extends fuel seg0 segmented_slices stop_lower stop_upper
      (iou_threshold : float) projection bar st' :
  _segment_volume oracle fuel seg0 segmented_slices stop_lower stop_upper
                  iou_threshold projection bar = Done st' ->
  extends (mkState seg0 [] bar) st'.
Proof.
  unfold _segment_volume.
  destruct (negb _); [done|].
  destruct (if String.eqb projection "mask" then (true, true) else (false, true))
    as [use_mask use_box].
  destruct segmented_slices as [|s rest]; [done|].
  set (st0 := mkState seg0 [] bar).
  set (z0 := array_min s rest). set (z1 := array_max s rest).
  destruct (if (0 <? z0) && negb stop_lower then _ else _) as [st1| |] eqn:H1;
    [|done|done].
  rewrite bind_Done_l.
  destruct (if (z1 <? _) && negb stop_upper then _ else _) as [st2| |] eqn:H2;
    [|done|done].
  rewrite bind_Done_l.
  assert (E1 : extends st0 st1).
  { destruct ((0 <? z0) && negb stop_lower).
    - by apply segment_range_extends in H1.
    - injection H1 as <-. apply extends_refl. }
  assert (E2 : extends st1 st2).
  { destruct ((z1 <? _) && negb stop_upper).
    - by apply segment_range_extends in H2.
    - injection H2 as <-. apply extends_refl. }
  destruct (negb (z0 =? z1)).
  - intros H3%for_each_extends.
    eapply extends_trans; [|exact H3]. by eapply extends_trans.
  - intros H. injection H as <-. by eapply extends_trans.
Qed.

End Invariants.

(** X4.  Whatever the arguments, a call that returns has kept the depth of
    the volume, and every slice it has assigned lies inside the volume. *)
Theorem run_keeps_depth_and_bounds
        oracle fuel seg0 segmented_slices stop_lower stop_upper
        (iou_threshold : float) projection bar st' :
  _segment_volume oracle fuel seg0 segmented_slices stop_lower stop_upper
                  iou_threshold projection bar = Done st' ->
  length (seg st') = length seg0
  /\ Forall (fun e => 0 <= e.1 < Z.of_nat (length seg0)) (trace st').
Proof.
  intros H. apply _segment_volume_extends in H.
  destruct H as [Hlen (added & d & Htr & Hin & _)].
  split; [done|]. by rewrite Htr.
Qed.

Lemma run_keeps_depth_and_bounds_witness :
  let seg0 := [mask_0; mask_A; mask_0] in
  exists st',
    _segment_volume echo 3 seg0 [1] false false 0%float "bounding_box" None
    = Done st'
    /\ length (seg st') = length seg0
    /\ Forall (fun e => 0 <= e.1 < Z.of_nat (length seg0)) (trace st').
Proof.
  intros seg0. eexists. split; [vm_compute; reflexivity|].
  apply (run_keeps_depth_and_bounds echo 3 seg0 [1] false false 0%float
           "bounding_box" None).
  vm_compute. reflexivity.
Defined.

(** X5.  Whatever the arguments, a call that returns has updated the
    progress bar at most once per slice it has assigned, and not at all
    when no bar was given. *)
Theorem run_never_overcounts_progress
        oracle fuel seg0 segmented_slices stop_lower stop_upper
        (iou_threshold : float) projection bar st' :
  _segment_volume oracle fuel seg0 segmented_slices stop_lower stop_upper
                  iou_threshold projection bar = Done st' ->
  match bar, progress_bar st' with
  | Some before, Some after =>
      (before <= after <= before + length (trace st'))%nat
  | None, None => True
  | _, _ => False
  end.
Proof.
  intros H. apply _segment_volume_extends in H.
  destruct H as [_ (added & d & Htr & _ & Hbar & Hd)].
  simpl in *. rewrite Hbar, Htr. destruct bar; simpl; [lia|done].
Qed.

Lemma run_never_overcounts_progress_witness :
  exists st',
    _segment_volume echo 5 [mask_A; mask_0; mask_0; mask_0; mask_B] [0; 4]
                    false false 0%float "mask" (Some 7%nat) = Done st'
    /\ match progress_bar st' with
       | Some after => (7 <= after <= 7 + length (trace st'))%nat
       | None => False
       end.
Proof.
  eexists. split; [vm_compute; reflexivity|].
  apply (run_never_overcounts_progress echo 5
           [mask_A; mask_0; mask_0; mask_0; mask_B] [0; 4]
           false false 0%float "mask" (Some 7%nat)).
  vm_compute. reflexivity.
Defined.

(** ** Which slices a run writes *)

Lemma ascending_NoDup (l : list Z) : ascending l = true -> NoDup l.
Proof.
  induction l as [|a l IH]; intros H; [apply NoDup_nil_2|].
  apply NoDup_cons_2.
  - intros Hin. pose proof (ascending_head a l H) as Hall.
    rewrite Forall_forall in Hall. specialize (Hall a Hin). lia.
  - apply IH. destruct l as [|b l]; [done|].
    by apply ascending_cons in H as [_ H].
Qed.

Lemma NoDup_bounded (l : list Z) (n : nat) :
  NoDup l -> Forall (fun x => 0 <= x < Z.of_nat n) l -> (length l <= n)%nat.
Proof.
  intros Hnd Hall.
  assert (Hsub : l ⊆+ seqZ 0 (Z.of_nat n)).
  { apply NoDup_submseteq; [done|]. intros x Hx. rewrite elem_of_seqZ.
    rewrite Forall_forall in Hall. specialize (Hall x Hx). lia. }
  apply submseteq_length in Hsub. rewrite length_seqZ in Hsub. lia.
Qed.

Lemma NoDup_covering (l : list Z) (n : nat) :
  NoDup l -> (forall x, x ∈ l <-> 0 <= x < Z.of_nat n) -> length l = n.
Proof.
  intros Hnd Hall.
  assert (Hperm : l ≡ₚ seqZ 0 (Z.of_nat n)).
  { apply NoDup_Permutation; [done|apply NoDup_seqZ|].
    intros x. rewrite elem_of_seqZ, Hall. lia. }
  rewrite Hperm, length_seqZ. lia.
Qed.

Lemma run_events_NoDup z0 z1 stop_lower stop_upper (l : list Z) (k_lo k_hi : nat) :
  ascending l = true -> z0 <= z1 -> (forall x, x ∈ l -> z0 <= x <= z1) ->
  NoDup (map fst (walk_events (-1) (z0 - 1) k_lo ++ walk_events 1 (z1 + 1) k_hi
                  ++ concat (map (gap_events z0 z1 stop_lower stop_upper)
                                 (consecutive l)))).
Proof.
  intros Hasc Hz Hin. rewrite !map_app, !walk_events_slices.
  destruct (gaps_slices z0 z1 stop_lower stop_upper l Hasc) as [Hnd Hmem].
  apply NoDup_app. split; [apply NoDup_steps; lia|]. split.
  - intros z Hlo%elem_of_steps_down.
    rewrite elem_of_app, elem_of_steps_up, Hmem.
    intros [H|(pair & Hp & H)]; [lia|].
    apply consecutive_elem in Hp as [Hp _]. apply Hin in Hp. lia.
  - apply NoDup_app. split; [apply NoDup_steps; lia|]. split; [|done].
    intros z Hhi%elem_of_steps_up. rewrite Hmem.
    intros (pair & Hp & H).
    apply consecutive_elem in Hp as [_ Hp]. apply Hin in Hp. lia.
Qed.

(** Between the lowest and the highest annotated slice every slice is
    annotated or lies in a gap. *)
Lemma between_covered (s : Z) (rest : list Z) (z : Z) :
  ascending (s :: rest) = true ->
  array_min s rest <= z <= array_max s rest ->
  z ∈ s :: rest
  \/ exists pair, pair ∈ consecutive (s :: rest) /\ pair.1 < z < pair.2.
Proof.
  intros Hasc Hz.
  destruct (decide (z ∈ s :: rest)) as [Hin|Hin]; [by left|right].
  destruct (array_min_spec s rest) as [Hz0 _].
  destruct (array_max_spec s rest) as [Hz1 _].
  apply ascending_covered; [done|done| |].
  - exists (array_min s rest). split; [done|].
    destruct (decide (array_min s rest = z)) as [E|E]; [|lia].
    by rewrite E in Hz0.
  - exists (array_max s rest). split; [done|].
    destruct (decide (array_max s rest = z)) as [E|E]; [|lia].
    by rewrite E in Hz1.
Qed.

(** The slices written and the annotated slices, together, are distinct
    slices of the volume. *)
Lemma written_and_annotated_NoDup (written slices : list Z) :
  NoDup written -> NoDup slices -> (forall z, z ∈ written -> z ∉ slices) ->
  NoDup (written ++ slices).
Proof. intros H1 H2 H3. apply NoDup_app. by split; [|split]. Qed.

(** X6.  With the annotated slices sorted and inside the volume, no slice
    is assigned twice by a run, so a run makes at most as many
    assignments as the volume has slices without annotation. *)
Theorem no_slice_written_twice
        oracle fuel seg0 s rest stop_lower stop_upper (iou_threshold : float) p bar :
  let slices := s :: rest in
  ascending slices = true ->
  Forall (fun z => 0 <= z < Z.of_nat (length seg0)) slices ->
  (length seg0 <= fuel)%nat ->
  exists st',
    _segment_volume oracle fuel seg0 slices stop_lower stop_upper
                    iou_threshold (projection_name p) bar = Done st'
    /\ NoDup (map fst (trace st'))
    /\ (length (trace st') + length slices <= length seg0)%nat.
Proof.
  intros slices Hasc Hall Hfuel.
  destruct (_segment_volume_summary oracle fuel seg0 s rest stop_lower
              stop_upper iou_threshold p bar Hasc Hall Hfuel)
    as (st' & k_lo & k_hi & Hrun & Hlen & Htr & Hk_lo & Hk_hi & _).
  fold slices in Hrun, Htr.
  set (z0 := array_min s rest) in *. set (z1 := array_max s rest) in *.
  destruct (array_min_spec s rest) as [Hz0in Hz0le].
  destruct (array_max_spec s rest) as [Hz1in Hz1ge].
  fold z0 slices in Hz0in, Hz0le. fold z1 slices in Hz1in, Hz1ge.
  rewrite Forall_forall in Hz0le, Hz1ge.
  assert (Hz01 : z0 <= z1) by (by apply Hz0le).
  assert (Hnd : NoDup (map fst (trace st'))).
  { rewrite Htr. apply run_events_NoDup; [done|done|].
    intros x Hx. split; [by apply Hz0le|by apply Hz1ge]. }
  exists st'. split; [done|]. split; [done|].
  assert (Hdisj : forall z, z ∈ map fst (trace st') -> z ∉ slices).
  { intros z Hz. rewrite Htr in Hz.
    apply (run_events_slices z0 z1 stop_lower stop_upper slices k_lo k_hi z Hasc)
      in Hz.
    destruct Hz as [H|[H|(pair & Hpair & H)]].
    - intros Hin%Hz0le. lia.
    - intros Hin%Hz1ge. lia.
    - intros Hin. by apply (ascending_gaps slices z pair Hasc Hin Hpair). }
  pose proof (written_and_annotated_NoDup _ _ Hnd (ascending_NoDup _ Hasc) Hdisj)
    as Hboth.
  apply NoDup_bounded with (n := length seg0) in Hboth.
  - by rewrite length_app, length_map in Hboth.
  - apply Forall_app. split; [|done].
    apply _segment_volume_extends in Hrun.
    destruct Hrun as [_ (added & d & Hadd & Hin & _)]. simpl in Hadd, Hin.
    rewrite Hadd, Forall_map. done.
Qed.

Lemma no_slice_written_twice_witness :
  exists st',
    _segment_volume echo 5 [mask_A; mask_0; mask_0; mask_0; mask_B] [0; 4]
                    false false 0%float (projection_name MaskProjection) None
    = Done st'
    /\ NoDup (map fst (trace st'))
    /\ (length (trace st') + 2 <= 5)%nat.
Proof.
  apply (no_slice_written_twice echo 5 [mask_A; mask_0; mask_0; mask_0; mask_B]
           0 [4] false false 0%float MaskProjection None).
  - reflexivity.
  - repeat constructor; simpl; lia.
  - simpl. lia.
Defined.

(** X7.  With an IOU threshold of at most 0 (in binary64) and no stop
    annotation the outward walks never stop early: a run on sorted annotated slices inside
    the volume assigns every slice that is not annotated, each exactly
    once. *)
Theorem zero_threshold_fills_volume
        oracle fuel seg0 s rest (iou_threshold : float) p bar :
  let slices := s :: rest in
  PrimFloat.leb iou_threshold 0 = true ->
  ascending slices = true ->
  Forall (fun z => 0 <= z < Z.of_nat (length seg0)) slices ->
  (length seg0 <= fuel)%nat ->
  exists st',
    _segment_volume oracle fuel seg0 slices false false
                    iou_threshold (projection_name p) bar = Done st'
    /\ (forall z, 0 <= z < Z.of_nat (length seg0) ->
          z ∈ slices \/ z ∈ map fst (trace st'))
    /\ NoDup (map fst (trace st'))
    /\ (length (trace st') + length slices = length seg0)%nat.
Proof.
  intros slices Hthr Hasc Hall Hfuel.
  destruct (_segment_volume_summary oracle fuel seg0 s rest false false
              iou_threshold p bar Hasc Hall Hfuel)
    as (st' & k_lo & k_hi & Hrun & Hlen & Htr & Hk_lo & Hk_hi & Hno_lo & Hno_hi
        & _ & _ & Hstop_lo & _ & Hstop_hi).
  fold slices in Hrun, Htr.
  set (z0 := array_min s rest) in *. set (z1 := array_max s rest) in *.
  set (top := Z.of_nat (length seg0) - 1) in *.
  destruct (array_min_spec s rest) as [Hz0in Hz0le].
  destruct (array_max_spec s rest) as [Hz1in Hz1ge].
  fold z0 slices in Hz0in, Hz0le. fold z1 slices in Hz1in, Hz1ge.
  rewrite Forall_forall in Hz0le, Hz1ge, Hall.
  assert (Hz01 : z0 <= z1) by (by apply Hz0le).
  pose proof (Hall z0 Hz0in) as Hz0. pose proof (Hall z1 Hz1in) as Hz1.
  simpl in Hz0, Hz1.
  assert (Elo : Z.of_nat k_lo = z0).
  { destruct (decide (Z.of_nat k_lo < z0)) as [Hlt|]; [|lia].
    destruct Hstop_lo as (prev & _ & Hiou); [|done|].
    - rewrite andb_true_r. apply Z.ltb_lt. lia.
    - rewrite (UtilFacts.compute_iou_f64_not_below _ _ _ Hthr) in Hiou.
      discriminate. }
  assert (Ehi : Z.of_nat k_hi = top - z1).
  { destruct (decide (Z.of_nat k_hi < top - z1)) as [Hlt|]; [|lia].
    destruct Hstop_hi as (prev & _ & Hiou); [|done|].
    - rewrite andb_true_r. apply Z.ltb_lt. lia.
    - rewrite (UtilFacts.compute_iou_f64_not_below _ _ _ Hthr) in Hiou.
      discriminate. }
  assert (Hmem := fun z => run_events_slices z0 z1 false false slices k_lo k_hi z
                             Hasc).
  rewrite <- Htr in Hmem.
  assert (Hnd : NoDup (map fst (trace st'))).
  { rewrite Htr. apply run_events_NoDup; [done|done|].
    intros x Hx. split; [by apply Hz0le|by apply Hz1ge]. }
  assert (Hcover : forall z, 0 <= z < Z.of_nat (length seg0) ->
            z ∈ slices \/ z ∈ map fst (trace st')).
  { intros z Hz. rewrite Hmem.
    destruct (decide (z < z0)) as [|Hge]; [right; left; lia|].
    destruct (decide (z1 < z)) as [|Hle]; [right; right; left; unfold top in *; lia|].
    destruct (between_covered s rest z Hasc) as [H|H]; [fold z0 z1; lia|by left|].
    by right; right; right. }
  exists st'. split; [done|]. split; [done|]. split; [done|].
  assert (Hdisj : forall z, z ∈ map fst (trace st') -> z ∉ slices).
  { intros z Hz. apply Hmem in Hz.
    destruct Hz as [H|[H|(pair & Hpair & H)]].
    - intros Hin%Hz0le. lia.
    - intros Hin%Hz1ge. lia.
    - intros Hin. by apply (ascending_gaps slices z pair Hasc Hin Hpair). }
  pose proof (written_and_annotated_NoDup _ _ Hnd (ascending_NoDup _ Hasc) Hdisj)
    as Hboth.
  apply NoDup_covering with (n := length seg0) in Hboth.
  - by rewrite length_app, length_map in Hboth.
  - intros x. rewrite elem_of_app. split.
    + intros [Hx|Hx]; [|by apply Hall].
      apply Hmem in Hx. destruct Hx as [H|[H|(pair & Hpair & H)]].
      * lia.
      * unfold top in *. lia.
      * destruct (consecutive_elem _ _ Hpair) as [H1 H2].
        apply Hall in H1, H2. simpl in H1, H2. lia.
    + intros Hx. destruct (Hcover x Hx); [by right|by left].
Qed.

Lemma zero_threshold_fills_volume_witness :
  exists st',
    _segment_volume echo 6
                    [mask_0; mask_A; mask_0; mask_0; mask_B; mask_0] [1; 4]
                    false false 0%float (projection_name BoundingBoxProjection) None
    = Done st'
    /\ (forall z, 0 <= z < 6 -> z ∈ [1; 4] \/ z ∈ map fst (trace st'))
    /\ NoDup (map fst (trace st'))
    /\ (length (trace st') + 2 = 6)%nat.
Proof.
  apply (zero_threshold_fills_volume echo 6
           [mask_0; mask_A; mask_0; mask_0; mask_B; mask_0] 1 [4] 0%float
           BoundingBoxProjection None).
  - reflexivity.
  - reflexivity.
  - repeat constructor; simpl; lia.
  - simpl. lia.
Defined.

(** ** The exceptions of a run *)

Lemma only_index_error_bind {A B} (m : outcome A) (k : A -> outcome B) :
  only_index_error m -> (forall a, only_index_error (k a)) ->
  only_index_error (m ≫= k).
Proof. destruct m as [a| |]; simpl; [|done|done]. intros _ Hk. apply Hk. Qed.

Lemma index_only_index_error (n : nat) (i : Z) : only_index_error (index n i).
Proof. unfold index. by repeat case_match. Qed.

Lemma getitem_only_index_error (v : list mask) (i : Z) :
  only_index_error (getitem v i).
Proof.
  unfold getitem. apply only_index_error_bind; [apply index_only_index_error|].
  intros k. by destruct (v !! k).
Qed.

Lemma setitem_only_index_error (st : state) (i : Z) (m : mask) (src : source) :
  only_index_error (setitem st i m src).
Proof.
  unfold setitem. apply only_index_error_bind; [apply index_only_index_error|done].
Qed.

Section Exceptions.

Variable oracle : mask -> Z -> bool -> bool -> mask.

Lemma segment_range_only_index_error fuel use_mask use_box z_start z_stop inc
      crit threshold st :
  only_index_error
    (segment_range oracle fuel use_mask use_box z_start z_stop inc crit
                   threshold st).
Proof.
  unfold segment_range. generalize (z_start + inc) as z. revert st.
  induction fuel as [|fuel IH]; intros st z; [done|]. simpl.
  apply only_index_error_bind; [apply getitem_only_index_error|].
  intros seg_prev. destruct (below_threshold _ _); [done|].
  apply only_index_error_bind; [apply setitem_only_index_error|].
  intros st1. destruct (crit _ _); [done|apply IH].
Qed.

Lemma segment_combined_only_index_error use_mask use_box z a b st :
  only_index_error (segment_combined oracle use_mask use_box z a b st).
Proof.
  unfold segment_combined.
  apply only_index_error_bind; [apply getitem_only_index_error|]. intros ma.
  apply only_index_error_bind; [apply getitem_only_index_error|]. intros mb.
  apply only_index_error_bind; [apply setitem_only_index_error|done].
Qed.

Lemma segment_between_only_index_error fuel use_mask use_box z0 z1
      stop_lower stop_upper st pair :
  only_index_error
    (segment_between oracle fuel use_mask use_box z0 z1 stop_lower stop_upper
                     st pair).
Proof.
  unfold segment_between. destruct pair as [z_start z_stop].
  destruct (z_stop - z_start =? 1); [done|].
  destruct ((z_start =? z0) && stop_lower);
    [apply segment_range_only_index_error|].
  destruct ((z_stop =? z1) && stop_upper);
    [apply segment_range_only_index_error|].
  destruct (z_stop - z_start =? 2); [apply segment_combined_only_index_error|].
  apply only_index_error_bind; [apply segment_range_only_index_error|].
  intros st1.
  apply only_index_error_bind; [apply segment_range_only_index_error|].
  intros st2.
  destruct (_ =? 0); [apply segment_combined_only_index_error|done].
Qed.

Lemma for_each_only_index_error fuel use_mask use_box z0 z1 stop_lower
      stop_upper (pairs : list (Z * Z)) :
  forall st,
    only_index_error
      (for_each (segment_between oracle fuel use_mask use_box z0 z1
                                 stop_lower stop_upper) pairs st).
Proof.
  induction pairs as [|pair pairs IH]; intros st; [done|]. simpl.
  apply only_index_error_bind; [apply segment_between_only_index_error|done].
Qed.

(** With a projection it knows and a slice to start from,
    [_segment_volume] raises index errors only. *)
Lemma _segment_volume_only_index_error fuel seg0 s rest stop_lower stop_upper
      (iou_threshold : float) projection bar :
  projection = "mask" \/ projection = "bounding_box" ->
  only_index_error
    (_segment_volume oracle fuel seg0 (s :: rest) stop_lower stop_upper
                     iou_threshold projection bar).
Proof.
  intros Hknown. unfold _segment_volume.
  replace (String.eqb projection "mask" || String.eqb projection "bounding_box")
    with true by (by destruct Hknown as [-> | ->]).
  cbn [negb].
  destruct (if String.eqb projection "mask" then _ else _)
    as [use_mask use_box].
  apply only_index_error_bind.
  { destruct ((0 <? _) && negb stop_lower);
      [apply segment_range_only_index_error|done]. }
  intros st1. apply only_index_error_bind.
  { destruct ((_ <? _ - 1) && negb stop_upper);
      [apply segment_range_only_index_error|done]. }
  intros st2. destruct (negb _); [apply for_each_only_index_error|done].
Qed.

End Exceptions.

(** X8.  When the slices of the volume have one shape and the
    segmentation call returns a mask of the shape of its prompt, a run can
    end in three exceptions only: the assertion on the projection, exactly
    when the projection is neither ["mask"] nor ["bounding_box"]; else the
    error of an empty set of annotated slices, exactly when no slice is
    annotated; else an index error. *)
Theorem run_raises_by_cause
        oracle fuel seg0 segmented_slices stop_lower stop_upper
        (iou_threshold : float) projection bar e (shape : list nat) :
  Forall (fun m => shape_of m = shape) seg0 ->
  (forall prompt z use_mask use_box,
     shape_of (oracle prompt z use_mask use_box) = shape_of prompt) ->
  _segment_volume oracle fuel seg0 segmented_slices stop_lower stop_upper
                  iou_threshold projection bar = Raise e ->
  let known := projection = "mask" \/ projection = "bounding_box" in
  (e = InvalidProjection /\ ~ known)
  \/ (e = EmptyAnnotationSet /\ known /\ segmented_slices = [])
  \/ (e = IndexError /\ known /\ segmented_slices <> []).
Proof.
  intros _ _ H known.
  destruct (decide (projection = "mask" \/ projection = "bounding_box"))
    as [Hknown|Hunknown].
  - right. destruct segmented_slices as [|s rest].
    + left. split; [|done].
      destruct Hknown as [-> | ->]; cbv in H; congruence.
    + right. split; [|done].
      pose proof (_segment_volume_only_index_error oracle fuel seg0 s rest
                    stop_lower stop_upper iou_threshold projection bar Hknown)
        as Honly.
      by rewrite H in Honly.
  - left. split; [|done]. unfold _segment_volume in H.
    replace (String.eqb projection "mask" || String.eqb projection "bounding_box")
      with false in H; [simpl in H; congruence|].
    symmetry. apply orb_false_iff.
    split; apply String.eqb_neq; intros ->; apply Hunknown; auto.
Qed.

Lemma run_raises_by_cause_witness :
  _segment_volume echo 4 [mask_A; mask_0] [5] false false 0%float "mask" None
  = Raise IndexError
  /\ ((IndexError = InvalidProjection
       /\ ~ ("mask" = "mask" \/ "mask" = "bounding_box"))
      \/ (IndexError = EmptyAnnotationSet
          /\ ("mask" = "mask" \/ "mask" = "bounding_box") /\ [5] = [])
      \/ (IndexError = IndexError
          /\ ("mask" = "mask" \/ "mask" = "bounding_box") /\ [5] <> [])).
Proof.
  split; [vm_compute; reflexivity|].
  apply (run_raises_by_cause echo 4 [mask_A; mask_0] [5] false false 0%float
           "mask" None IndexError [3; 3; 3]%nat).
  - repeat constructor.
  - reflexivity.
  - vm_compute. reflexivity.
Defined.

(** X9.  Each of the three projections the volume widget offers
    (["default"], ["bounding_box"], ["mask"]) reaches the engine as a
    projection it accepts, whatever the shape of the data: the widget never
    fails the assertion on the projection.  With ["default"] the engine
    gets ["mask"] for square slices and ["bounding_box"] otherwise. *)
Theorem widget_choices_are_accepted
        oracle fuel shape seg0 slices stop_lower stop_upper updates
        (iou_threshold : float) projection :
  projection ∈ ["default"; "bounding_box"; "mask"] ->
  segment_volume_widget oracle fuel shape (seg0, slices, stop_lower, stop_upper)
                        updates iou_threshold projection
  <> Raise InvalidProjection
  /\ (projection = "default" ->
      segment_volume_widget oracle fuel shape
                            (seg0, slices, stop_lower, stop_upper)
                            updates iou_threshold projection
      = _segment_volume oracle fuel seg0 slices stop_lower stop_upper
                        iou_threshold
                        (if shape.1.2 =? shape.2 then "mask" else "bounding_box")
                        (Some updates)).
Proof.
  intros Hin. split; [|by intros ->].
  unfold segment_volume_widget.
  set (projection_ := if String.eqb projection "default" then _ else _).
  assert (Hknown : projection_ = "mask" \/ projection_ = "bounding_box").
  { unfold projection_.
    apply elem_of_cons in Hin as [->|Hin].
    { simpl. destruct (_ =? _); auto. }
    apply elem_of_cons in Hin as [->|Hin]; [simpl; auto|].
    apply list_elem_of_singleton in Hin as ->. simpl; auto. }
  destruct slices as [|s rest].
  - destruct Hknown as [-> | ->]; cbv; congruence.
  - intros H.
    pose proof (_segment_volume_only_index_error oracle fuel seg0 s rest
                  stop_lower stop_upper iou_threshold projection_ (Some updates)
                  Hknown) as Honly.
    by rewrite H in Honly.
Qed.

Lemma widget_choices_are_accepted_witness :
  segment_volume_widget echo 3 (3, 4, 5) ([mask_0; mask_A; mask_0], [1], false, false)
                        1 0%float "default"
  <> Raise InvalidProjection.
Proof.
  apply (widget_choices_are_accepted echo 3 (3, 4, 5) [mask_0; mask_A; mask_0]
           [1] false false 1 0%float "default").
  apply list_elem_of_here.
Defined.

(** ** The stop annotations *)

(** X11.  A stop annotation at the lowest annotated slice: the gap above it,
    of any width, is filled by one walk down from the upper slice, also
    when the upper slice is a stop as well.  Every slice of the gap is the
    oracle's answer to the slice above it, nothing else changes, and the
    progress bar misses one slice of the gap. *)
Theorem stop_lower_fills_gap_from_above
        oracle fuel use_mask use_box z0 z1 stop_upper st z_stop :
  0 <= z0 -> z_stop < Z.of_nat (length (seg st)) ->
  2 <= z_stop - z0 ->
  (Z.to_nat (z_stop - z0) <= fuel)%nat ->
  exists st',
    segment_between oracle fuel use_mask use_box z0 z1 true stop_upper st
                    (z0, z_stop) = Done st'
    /\ trace st'
       = trace st ++ walk_events (-1) (z_stop - 1) (Z.to_nat (z_stop - z0 - 1))
    /\ (forall q, z0 < q < z_stop ->
          exists above,
            slice_at (seg st') (q + 1) = Some above
            /\ slice_at (seg st') q = Some (oracle above q use_mask use_box))
    /\ (forall j, ~ z0 < j < z_stop -> slice_at (seg st') j = slice_at (seg st) j)
    /\ progress_bar st'
       = add_progress (Z.to_nat (z_stop - z0 - 2)) (progress_bar st).
Proof.
  intros Hlo Hhi Hd Hfuel.
  destruct (segment_between_from_upper oracle use_mask use_box fuel z0 z1 true
              stop_upper st z0 z_stop) as (st' & Hrun & W); try done.
  { by rewrite Z.eqb_refl. }
  exists st'. split; [done|].
  split; [apply (w_trace _ _ _ _ _ _ _ _ _ _ W)|]. split; [|split].
  - intros q Hq.
    destruct (w_data _ _ _ _ _ _ _ _ _ _ W q) as (prev & Hprev & Hq' & _).
    { rewrite elem_of_steps_down. lia. }
    exists prev. split; [|done]. by replace (q + 1) with (q - -1) by lia.
  - intros j Hj. apply (w_frame _ _ _ _ _ _ _ _ _ _ W).
    rewrite elem_of_steps_down. lia.
  - rewrite (w_progress _ _ _ _ _ _ _ _ _ _ W).
    rewrite decide_True by done. f_equal. lia.
Qed.

Lemma stop_lower_fills_gap_from_above_witness :
  exists st',
    segment_between echo 3 true true 0 3 true true
                    (mkState [mask_A; mask_0; mask_0; mask_B] [] (Some 0%nat))
                    (0, 3) = Done st'
    /\ seg st' = [mask_A; mask_B; mask_B; mask_B]
    /\ progress_bar st' = Some 1%nat.
Proof.
  destruct (stop_lower_fills_gap_from_above echo 3 true true 0 3 true
              (mkState [mask_A; mask_0; mask_0; mask_B] [] (Some 0%nat)) 3)
    as (st' & Hrun & _); [lia|simpl; lia|lia|simpl; lia|].
  exists st'. split; [exact Hrun|].
  vm_compute in Hrun. injection Hrun as <-. split; reflexivity.
Defined.

(** X12.  A stop annotation at the highest annotated slice, for a gap that
    does not start at a stopped lowest slice: the gap, of any width, is
    filled by one walk up from the lower slice.  Every slice of the gap is
    the oracle's answer to the slice below it, nothing else changes, and
    the progress bar misses one slice of the gap. *)
Theorem stop_upper_fills_gap_from_below
        oracle fuel use_mask use_box z0 z1 stop_lower st z_start :
  0 <= z_start -> z1 < Z.of_nat (length (seg st)) ->
  2 <= z1 - z_start ->
  (Z.to_nat (z1 - z_start) <= fuel)%nat ->
  (z_start =? z0) && stop_lower = false ->
  exists st',
    segment_between oracle fuel use_mask use_box z0 z1 stop_lower true st
                    (z_start, z1) = Done st'
    /\ trace st'
       = trace st ++ walk_events 1 (z_start + 1) (Z.to_nat (z1 - z_start - 1))
    /\ (forall q, z_start < q < z1 ->
          exists below,
            slice_at (seg st') (q - 1) = Some below
            /\ slice_at (seg st') q = Some (oracle below q use_mask use_box))
    /\ (forall j, ~ z_start < j < z1 -> slice_at (seg st') j = slice_at (seg st) j)
    /\ progress_bar st'
       = add_progress (Z.to_nat (z1 - z_start - 2)) (progress_bar st).
Proof.
  intros Hlo Hhi Hd Hfuel Hlower.
  destruct (segment_between_from_lower oracle use_mask use_box fuel z0 z1
              stop_lower true st z_start z1) as (st' & Hrun & W); try done.
  { by rewrite Z.eqb_refl. }
  exists st'. split; [done|].
  split; [apply (w_trace _ _ _ _ _ _ _ _ _ _ W)|]. split; [|split].
  - intros q Hq.
    destruct (w_data _ _ _ _ _ _ _ _ _ _ W q) as (prev & Hprev & Hq' & _).
    { rewrite elem_of_steps_up. lia. }
    by exists prev.
  - intros j Hj. apply (w_frame _ _ _ _ _ _ _ _ _ _ W).
    rewrite elem_of_steps_up. lia.
  - rewrite (w_progress _ _ _ _ _ _ _ _ _ _ W).
    rewrite decide_True by done. f_equal. lia.
Qed.

Lemma stop_upper_fills_gap_from_below_witness :
  exists st',
    segment_between echo 3 true true 0 3 false true
                    (mkState [mask_A; mask_0; mask_0; mask_B] [] (Some 0%nat))
                    (0, 3) = Done st'
    /\ seg st' = [mask_A; mask_A; mask_A; mask_B]
    /\ progress_bar st' = Some 1%nat.
Proof.
  destruct (stop_upper_fills_gap_from_below echo 3 true true 0 3 false
              (mkState [mask_A; mask_0; mask_0; mask_B] [] (Some 0%nat)) 0)
    as (st' & Hrun & _); [lia|simpl; lia|lia|simpl; lia|reflexivity|].
  exists st'. split; [exact Hrun|].
  vm_compute in Hrun. injection Hrun as <-. split; reflexivity.
Defined.

(** ** The combined prompt *)

Lemma eq1_as_mask (a : list (list bool)) : eq1 (as_mask a) = a.
Proof.
  unfold eq1, as_mask. rewrite map_map.
  induction a as [|r a IH]; simpl; [done|]. rewrite IH. f_equal.
  rewrite map_map. clear. induction r as [|b r IHr]; simpl; [done|].
  rewrite IHr. by destruct b.
Qed.

(** X13.  The prompt built from two slices of one shape has as its
    foreground the union of their foregrounds: a pixel is set in it exactly
    when it has label 1 in one of the two slices. *)
Theorem combined_prompt_foreground (ma mb : mask) :
  same_shape ma mb ->
  foreground (combined_prompt ma mb) = foreground ma ∪ foreground mb.
Proof.
  intros Hshape. unfold foreground, combined_prompt.
  rewrite eq1_as_mask. apply UtilFacts.positions_or.
  by apply UtilFacts.same_shape_eq1.
Qed.

Lemma combined_prompt_foreground_witness :
  foreground (combined_prompt mask_A mask_B) = foreground mask_A ∪ foreground mask_B.
Proof.
  apply (combined_prompt_foreground mask_A mask_B). repeat constructor.
Defined.

End Annotator3dFacts.

(** ** The embedding cache *)

Module EmbeddingFacts.
Import Util.

Lemma count_nonzero_zeros_like (emb : embedding) : stale (zeros_like emb) = true.
Proof.
  unfold stale, count_nonzero, zeros_like, embedding in *. apply Nat.eqb_eq.
  induction emb as [|x emb IH]; [done|]. cbn [map].
  rewrite filter_cons_False by (intros H; by apply H). done.
Qed.

(** A chunk is taken for not yet computed exactly when all its entries are
    zero. *)
Lemma stale_all_zero (chunk : embedding) :
  stale chunk = true <-> Forall (fun x => x = 0) chunk.
Proof.
  unfold stale, count_nonzero, embedding in *. rewrite Nat.eqb_eq.
  induction chunk as [|x chunk IH]; [by split; [constructor|]|].
  destruct (decide (x = 0)) as [->|Hx].
  - rewrite filter_cons_False by (intros H; by apply H).
    rewrite IH. split; [by constructor|]. by inversion 1.
  - rewrite filter_cons_True by done. simpl.
    split; [done|]. inversion 1; subst. done.
Qed.

Lemma mbind_Done {A B} (a : A) (k : A -> outcome B) : Done a ≫= k = k a.
Proof. done. Qed.

Lemma mbind_Done_inv {A B} (m : outcome A) (k : A -> outcome B) (b : B) :
  m ≫= k = Done b -> exists a, m = Done a /\ k a = Done b.
Proof. destruct m as [a| |]; [|done|done]. intros H. by exists a. Qed.

Lemma getfeatures_Done (f : container) (chunks : list embedding) :
  getfeatures f = Done chunks <-> features f = Some chunks.
Proof. unfold getfeatures. destruct (features f); split; congruence. Qed.

Lemma getattr_Done (f : container) (key : string) (v : option image_size) :
  getattr f key = Done v <-> attrs f !! key = Some v.
Proof. unfold getattr. destruct (attrs f !! key); split; congruence. Qed.

Lemma attr_writes_app (j k : list store_event) :
  attr_writes (j ++ k) = attr_writes j ++ attr_writes k.
Proof. apply omap_app. Qed.

Section Cache.

Variable ndarray : Type.
Variable ndim_of : ndarray -> Z.
Variable slices_of : ndarray -> list ndarray.
Variable _to_image : ndarray -> option ndarray.
Variable to_rgb : ndarray -> ndarray.
Variable sam : ndarray -> embedding * image_size * image_size.

#[local] Abbreviation embed := (embed ndarray to_rgb sam).
#[local] Abbreviation original_size_of := (original_size_of ndarray to_rgb sam).
#[local] Abbreviation input_size_of := (input_size_of ndarray to_rgb sam).
#[local] Abbreviation step := (_precompute_3d_step ndarray to_rgb sam).
#[local] Abbreviation loop := (_precompute_3d_loop ndarray to_rgb sam).
#[local] Abbreviation Loop := (mkLoop ndarray).

(** A slice whose chunk is there and not all zero is skipped. *)
Lemma step_skip total st z z_slice chunks chunk :
  features (l_store _ st) = Some chunks -> chunks !! z = Some chunk ->
  stale chunk = false ->
  step total st z z_slice = Done st.
Proof.
  intros Hf Hz Hstale. unfold _precompute_3d_step. rewrite Hf.
  unfold getchunk. rewrite Hz. simpl.
  unfold stale in Hstale. by rewrite Hstale.
Qed.

(** A slice whose chunk is there and all zero is computed and stored. *)
Lemma step_compute total st z z_slice chunks chunk :
  features (l_store _ st) = Some chunks -> chunks !! z = Some chunk ->
  stale chunk = true ->
  step total st z z_slice
  = Done (mkLoop _ (l_predictor _ st ++ [to_rgb z_slice])
                 (mkContainer (Some (<[z := embed z_slice]> chunks))
                              (attrs (l_store _ st))
                              (journal (l_store _ st) ++ [SetChunk z]))
                 (Some (original_size_of z_slice))
                 (Some (input_size_of z_slice))).
Proof.
  intros Hf Hz Hstale. unfold _precompute_3d_step. rewrite Hf.
  unfold getchunk. rewrite Hz. simpl.
  unfold stale in Hstale. rewrite Hstale. simpl.
  unfold set_image, Util.embed, Util.original_size_of, Util.input_size_of.
  destruct (sam (to_rgb z_slice)) as [[emb osz] isz]. simpl.
  unfold setchunk. rewrite Hf.
  rewrite decide_True by (by apply lookup_lt_Some in Hz). done.
Qed.

Lemma last_size_cons (size_of : ndarray -> image_size) (e : nat * ndarray)
      (computed : list (nat * ndarray)) (before : option image_size) :
  last_size ndarray size_of (e :: computed) before
  = last_size ndarray size_of computed (Some (size_of e.2)).
Proof.
  unfold last_size. rewrite last_cons.
  destruct (last computed) as [[]|]; [done|]. by destruct e.
Qed.

(** The loop on a container whose chunks, from the current index on, are
    either the embedding of their slice or all zero: it skips the former,
    computes the latter, and leaves the embedding of every slice it meets. *)
Lemma loop_resume total (rest : list ndarray) :
  forall (done todo extra : list embedding) p f osz isz,
    features f = Some (done ++ todo ++ extra) ->
    Forall2 (fun chunk z_slice => chunk = embed z_slice \/ stale chunk = true)
            todo rest ->
    let computed := pending ndarray (length done) todo rest in
    loop total (Loop p f osz isz) (length done) rest
    = Done (Loop (p ++ map (fun e => to_rgb e.2) computed)
                 (mkContainer (Some (done ++ map embed rest ++ extra)) (attrs f)
                              (journal f ++ map (fun e => SetChunk e.1) computed))
                 (last_size ndarray original_size_of computed osz)
                 (last_size ndarray input_size_of computed isz)).
Proof.
  induction rest as [|z_slice rest IH]; intros done todo extra p f osz isz Hf Hall.
  - inversion Hall; subst. simpl. rewrite !app_nil_r in *.
    destruct f as [feats at_ jr]. simpl in *. by subst.
  - inversion Hall as [|chunk ? todo' ? Hchunk Hall']; subst.
    assert (Hz : (done ++ (chunk :: todo') ++ extra) !! length done = Some chunk).
    { by rewrite <- app_comm_cons, list_lookup_middle. }
    cbn [_precompute_3d_loop pending].
    destruct (stale chunk) eqn:Hstale.
    + rewrite (step_compute total (Loop p f osz isz) (length done) z_slice _ chunk
                 Hf Hz Hstale).
      unfold mbind at 1, outcome_bind at 1, bind at 1. cbn [l_predictor l_store].
      specialize (IH (done ++ [embed z_slice]) todo' extra (p ++ [to_rgb z_slice])
                    (mkContainer
                       (Some (<[length done := embed z_slice]>
                                (done ++ (chunk :: todo') ++ extra)))
                       (attrs f) (journal f ++ [SetChunk (length done)]))
                    (Some (original_size_of z_slice)) (Some (input_size_of z_slice))).
      rewrite length_app, Nat.add_1_r in IH. rewrite IH; [|simpl|done].
      * simpl. rewrite !last_size_cons. simpl.
        by rewrite <- !app_assoc.
      * f_equal. rewrite insert_app_r_alt by lia.
        rewrite Nat.sub_diag. simpl. by rewrite <- app_assoc.
    + destruct Hchunk as [->|Hs]; [|congruence].
      rewrite (step_skip total (Loop p f osz isz) (length done) z_slice _ _ Hf Hz Hstale).
      unfold mbind at 1, outcome_bind at 1, bind at 1.
      specialize (IH (done ++ [embed z_slice]) todo' extra p f osz isz).
      rewrite length_app, Nat.add_1_r in IH.
      rewrite IH; [|by rewrite <- app_assoc|done].
      simpl. by rewrite <- !app_assoc.
Qed.

Lemma map_zip_seq_snd {B} (g : ndarray -> B) (n : nat) (l : list ndarray) :
  map (fun e : nat * ndarray => g e.2) (zip (seq n (length l)) l) = map g l.
Proof.
  revert n. induction l as [|x l IH]; intros n; [done|]. simpl. f_equal. apply IH.
Qed.

Lemma map_zip_seq_fst {B} (h : nat -> B) (n : nat) (l : list ndarray) :
  map (fun e : nat * ndarray => h e.1) (zip (seq n (length l)) l)
  = map h (seq n (length l)).
Proof.
  revert n. induction l as [|x l IH]; intros n; [done|]. simpl. f_equal. apply IH.
Qed.

Lemma pending_stale (z : nat) (todo : list embedding) (rest : list ndarray) :
  Forall (fun chunk => stale chunk = true) todo ->
  (length rest <= length todo)%nat ->
  pending ndarray z todo rest = zip (seq z (length rest)) rest.
Proof.
  intros Hall. revert z rest.
  induction Hall as [|chunk todo Hchunk _ IH]; intros z [|z_slice rest] Hlen;
    simpl in *; try done; try lia.
  rewrite Hchunk. simpl. f_equal. apply IH. lia.
Qed.

Lemma pending_fresh (z : nat) (rest : list ndarray) :
  Forall (fun z_slice => stale (embed z_slice) = false) rest ->
  pending ndarray z (map embed rest) rest = [].
Proof.
  intros Hall. revert z.
  induction Hall as [|z_slice rest Hs _ IH]; intros z; simpl; [done|].
  rewrite Hs. simpl. apply IH.
Qed.

Lemma pending_app (z : nat) (a b : list embedding) (ra rb : list ndarray) :
  length a = length ra ->
  pending ndarray z (a ++ b) (ra ++ rb)
  = pending ndarray z a ra ++ pending ndarray (z + length a) b rb.
Proof.
  revert z ra. induction a as [|chunk a IH]; intros z [|z_slice ra] Hlen;
    simpl in *; try done.
  - by rewrite Nat.add_0_r.
  - rewrite IH by lia. rewrite <- app_assoc. do 3 f_equal. lia.
Qed.

(** The slices the loop computes are those whose chunk is all zero. *)
Lemma elem_of_pending (todo : list embedding) :
  forall (z : nat) (rest : list ndarray) (i : nat) (z_slice : ndarray),
    (i, z_slice) ∈ pending ndarray z todo rest
    <-> exists j chunk,
          i = (z + j)%nat /\ rest !! j = Some z_slice
          /\ todo !! j = Some chunk /\ Forall (fun x => x = 0) chunk.
Proof.
  induction todo as [|chunk todo IH]; intros z rest i z_slice.
  { simpl. split; [by intros H%elem_of_nil|]. by intros (j & c & _ & _ & H & _). }
  destruct rest as [|first rest].
  { simpl. split; [by intros H%elem_of_nil|]. by intros (j & c & _ & H & _). }
  cbn [pending]. rewrite elem_of_app, IH. split.
  - intros [H|(j & c & -> & Hr & Ht & Hz)].
    + destruct (stale chunk) eqn:Hs; [|by apply elem_of_nil in H].
      apply list_elem_of_singleton in H. injection H as -> ->.
      exists 0%nat, chunk. rewrite Nat.add_0_r.
      split; [done|]. split; [done|]. split; [done|]. by apply stale_all_zero.
    + exists (S j), c. split; [lia|]. done.
  - intros ([|j] & c & -> & Hr & Ht & Hz).
    + left. simpl in Hr, Ht. injection Hr as ->. injection Ht as ->.
      rewrite (proj2 (stale_all_zero c) Hz), Nat.add_0_r.
      apply list_elem_of_here.
    + right. exists j, c. split; [lia|]. done.
Qed.

(** The loop on a container that has no array yet: the first slice creates
    it with one zero chunk per slice of the stack, and every slice met is
    computed. *)
Lemma loop_fresh total (z_slice : ndarray) (rest : list ndarray) p f osz isz :
  features f = None ->
  (S (length rest) <= total)%nat ->
  let computed := zip (seq 0 (S (length rest))) (z_slice :: rest) in
  loop total (Loop p f osz isz) 0 (z_slice :: rest)
  = Done (Loop (p ++ map to_rgb (z_slice :: rest))
               (mkContainer
                  (Some (map embed (z_slice :: rest)
                         ++ replicate (total - S (length rest))
                                      (zeros_like (embed z_slice))))
                  (attrs f)
                  (journal f ++ CreateDataset
                     :: map SetChunk (seq 0 (S (length rest)))))
               (last_size ndarray original_size_of computed osz)
               (last_size ndarray input_size_of computed isz)).
Proof.
  intros Hf Htotal computed. cbn [_precompute_3d_loop].
  unfold _precompute_3d_step at 1. cbn [l_store l_predictor]. rewrite Hf.
  rewrite mbind_Done. cbv iota. unfold set_image.
  destruct (sam (to_rgb z_slice)) as [[emb osz1] isz1] eqn:Hsam.
  assert (Hemb : embed z_slice = emb) by (unfold Util.embed; by rewrite Hsam).
  assert (Hosz : original_size_of z_slice = osz1)
    by (unfold Util.original_size_of; by rewrite Hsam).
  assert (Hisz : input_size_of z_slice = isz1)
    by (unfold Util.input_size_of; by rewrite Hsam).
  unfold create_dataset. rewrite Hf. rewrite mbind_Done.
  unfold setchunk. cbn [features attrs journal].
  destruct total as [|total']; [lia|].
  rewrite decide_True by (rewrite length_replicate; lia).
  rewrite mbind_Done. unfold mret, outcome_ret. rewrite mbind_Done.
  cbn [replicate]. cbn [insert list_insert].
  pose proof (loop_resume (S total') rest [emb]
                (replicate (length rest) (zeros_like emb))
                (replicate (total' - length rest) (zeros_like emb))
                (p ++ [to_rgb z_slice])
                (mkContainer (Some (emb :: replicate total' (zeros_like emb)))
                             (attrs f)
                             ((journal f ++ [CreateDataset]) ++ [SetChunk 0]))
                (Some osz1) (Some isz1)) as Hloop.
  cbn [length features attrs journal] in Hloop.
  rewrite Hloop; clear Hloop.
  - rewrite pending_stale.
    2:{ apply Forall_replicate. apply count_nonzero_zeros_like. }
    2:{ by rewrite length_replicate. }
    subst computed. rewrite <- Hemb, <- Hosz, <- Hisz.
    cbn [seq zip zip_with map]. rewrite !last_size_cons. cbn [snd].
    rewrite map_zip_seq_snd, map_zip_seq_fst.
    replace (S total' - S (length rest))%nat with (total' - length rest)%nat by lia.
    by rewrite <- !app_assoc.
  - simpl. do 2 f_equal. rewrite <- replicate_add. f_equal. lia.
  - clear. induction rest as [|x rest IH]; simpl; constructor; [|done].
    right. apply count_nonzero_zeros_like.
Qed.

#[local] Abbreviation recomputed := (recomputed ndarray).
#[local] Abbreviation resumable := (resumable ndarray to_rgb sam).
#[local] Abbreviation _precompute_3d := (_precompute_3d ndarray slices_of to_rgb sam).

(** The slice loop on a resumable container computes the missing chunks
    and leaves the attributes alone. *)
Lemma loop_resumable (all : list ndarray) (f : container) p :
  all <> [] -> resumable f all ->
  exists events,
    attr_writes events = []
    /\ loop (length all) (Loop p f None None) 0 all
       = Done (Loop (p ++ map (fun e => to_rgb e.2) (recomputed f all))
                    (mkContainer (Some (map embed all)) (attrs f)
                                 (journal f ++ events))
                    (last_size ndarray original_size_of (recomputed f all) None)
                    (last_size ndarray input_size_of (recomputed f all) None)).
Proof.
  intros Hne [_ Hchunks]. unfold Util.recomputed.
  destruct (features f) as [chunks|] eqn:Hf.
  - exists (map (fun e : nat * ndarray => SetChunk e.1) (pending ndarray 0 chunks all)).
    split.
    { unfold attr_writes. induction (pending ndarray 0 chunks all) as [|e l IH]; done. }
    pose proof (loop_resume (length all) all [] chunks [] p f None None) as Hloop.
    cbn [length app] in Hloop. rewrite !app_nil_r in Hloop. by apply Hloop.
  - destruct all as [|z_slice rest]; [done|].
    exists (CreateDataset :: map SetChunk (seq 0 (S (length rest)))).
    split.
    { unfold attr_writes. cbn [omap list_omap].
      induction (seq 0 (S (length rest))) as [|n l IH]; done. }
    rewrite (map_zip_seq_snd to_rgb 0 (z_slice :: rest)).
    rewrite (loop_fresh (length (z_slice :: rest)) z_slice rest p f None None Hf)
      by done.
    cbn [length]. rewrite Nat.sub_diag. cbn [replicate]. by rewrite app_nil_r.
Qed.

(** [_precompute_3d] on a resumable container. *)
Lemma _precompute_3d_resumable (input_ : ndarray) (f : container) p lazy_loading :
  let all := slices_of input_ in
  let computed := recomputed f all in
  let osz := last_size ndarray original_size_of computed None in
  let isz := last_size ndarray input_size_of computed None in
  all <> [] -> resumable f all ->
  exists events,
    attr_writes events = []
    /\ _precompute_3d input_ p f lazy_loading
       = Done (mkEmbeddings
                 (if lazy_loading then OnDisk else InMemory (map embed all))
                 isz osz,
               p ++ map (fun e => to_rgb e.2) computed,
               mkContainer (Some (map embed all))
                           (<["original_size" := osz]>
                              (<["input_size" := isz]> (attrs f)))
                           (journal f ++ events
                            ++ [SetAttr "input_size"; SetAttr "original_size"])).
Proof.
  intros all computed osz isz Hne Hres.
  destruct (loop_resumable all f p Hne Hres) as (events & Hev & Hloop).
  exists events. split; [done|].
  unfold Util._precompute_3d. fold all.
  destruct Hres as [Hattr _].
  rewrite decide_False by (rewrite Hattr; by intros [? ?]).
  rewrite Hloop. rewrite mbind_Done. cbn [l_store l_input_size l_original_size
    l_predictor]. unfold setattr. cbn [features attrs journal].
  rewrite mbind_Done. cbv iota beta.
  fold computed osz isz.
  destruct lazy_loading.
  - rewrite mbind_Done. by rewrite <- !app_assoc.
  - unfold getfeatures. cbn [features]. rewrite !mbind_Done.
    by rewrite <- !app_assoc.
Qed.

#[local] Abbreviation _precompute_2d := (_precompute_2d ndarray _to_image sam).
#[local] Abbreviation precompute_image_embeddings :=
  (precompute_image_embeddings ndarray ndim_of slices_of _to_image to_rgb sam).

(** A container that is marked complete is only read. *)
Lemma _precompute_2d_complete (input_ : ndarray) p f feats osz isz :
  features f = Some feats ->
  attrs f !! "original_size" = Some osz ->
  attrs f !! "input_size" = Some isz ->
  _precompute_2d input_ p f = Done (mkEmbeddings (InMemory feats) isz osz, p, f).
Proof.
  intros Hf Ho Hi. unfold Util._precompute_2d.
  rewrite decide_True by (by rewrite Hi).
  apply getfeatures_Done in Hf. apply getattr_Done in Ho, Hi.
  by rewrite Hf, mbind_Done, Ho, mbind_Done, Hi, mbind_Done.
Qed.

Lemma _precompute_3d_complete (input_ : ndarray) p f lazy_loading chunks osz isz :
  features f = Some chunks ->
  attrs f !! "original_size" = Some osz ->
  attrs f !! "input_size" = Some isz ->
  _precompute_3d input_ p f lazy_loading
  = Done (mkEmbeddings (if lazy_loading then OnDisk else InMemory chunks) isz osz,
          p, f).
Proof.
  intros Hf Ho Hi. unfold Util._precompute_3d.
  rewrite decide_True by (by rewrite Hi).
  apply getfeatures_Done in Hf. apply getattr_Done in Ho, Hi.
  rewrite Hf, mbind_Done, Ho, mbind_Done, Hi, !mbind_Done. cbv iota beta.
  destruct lazy_loading; [done|]. by rewrite Hf, !mbind_Done.
Qed.

(** What a completed call of [_precompute_2d] leaves in the container. *)
Lemma _precompute_2d_leaves (input_ : ndarray) p f r1 p1 f1 :
  _precompute_2d input_ p f = Done (r1, p1, f1) ->
  exists feats,
    features f1 = Some feats
    /\ attrs f1 !! "original_size" = Some (emb_original_size r1)
    /\ attrs f1 !! "input_size" = Some (emb_input_size r1)
    /\ emb_features r1 = InMemory feats.
Proof.
  unfold Util._precompute_2d.
  destruct (decide (is_Some (attrs f !! "input_size"))) as [Hdone|Hnew].
  - intros (feats & Hf & H)%mbind_Done_inv.
    apply mbind_Done_inv in H as (osz & Ho & H).
    apply mbind_Done_inv in H as (isz & Hi & H).
    injection H as <- <- <-. exists feats. simpl.
    by rewrite <- getfeatures_Done, <- !getattr_Done.
  - destruct (_to_image input_) as [image|]; [|done].
    unfold set_image. destruct (sam image) as [[feats osz] isz].
    intros (f' & Hf' & H)%mbind_Done_inv. injection H as <- <- <-.
    unfold create_dataset in Hf'. destruct (features f); [done|].
    injection Hf' as <-. exists [feats]. simpl.
    split; [done|]. split; [by rewrite lookup_insert_eq|].
    split; [|done]. rewrite lookup_insert_ne by done. by rewrite lookup_insert_eq.
Qed.

(** What a completed call of [_precompute_3d] leaves in the container. *)
Lemma _precompute_3d_leaves (input_ : ndarray) p f lazy_loading r1 p1 f1 :
  _precompute_3d input_ p f lazy_loading = Done (r1, p1, f1) ->
  attrs f1 !! "original_size" = Some (emb_original_size r1)
  /\ attrs f1 !! "input_size" = Some (emb_input_size r1)
  /\ (lazy_loading = false ->
      exists chunks, features f1 = Some chunks /\ emb_features r1 = InMemory chunks).
Proof.
  unfold Util._precompute_3d.
  intros ([[[[feats osz] isz] p2] f2] & Hfirst & H)%mbind_Done_inv.
  apply mbind_Done_inv in H as (feats' & Hfeats & H).
  injection H as <- <- <-. simpl.
  assert (Hleft : attrs f2 !! "original_size" = Some osz
                  /\ attrs f2 !! "input_size" = Some isz
                  /\ (feats = OnDisk \/ feats = NoFeatures)).
  { destruct (decide (is_Some (attrs f !! "input_size"))) as [Hdone|Hnew].
    - apply mbind_Done_inv in Hfirst as (chunks & Hf & H).
      apply mbind_Done_inv in H as (osz' & Ho & H).
      apply mbind_Done_inv in H as (isz' & Hi & H).
      injection H as <- <- <- <- <-.
      rewrite <- !getattr_Done. auto.
    - apply mbind_Done_inv in Hfirst as (st & Hloop & H).
      injection H as <- <- <- <- <-. simpl.
      split; [by rewrite lookup_insert_eq|].
      split; [rewrite lookup_insert_ne by done; by rewrite lookup_insert_eq|].
      destruct (features (l_store _ st)); auto. }
  destruct Hleft as (Ho & Hi & Hfeat).
  split; [done|]. split; [done|]. intros ->.
  destruct Hfeat as [-> | ->]; [|done].
  apply mbind_Done_inv in Hfeats as (chunks & Hf & H). injection H as <-.
  exists chunks. by rewrite <- getfeatures_Done.
Qed.

Lemma _precompute_3d_no_array (input_ : ndarray) p f lazy_loading isz :
  features f = None ->
  attrs f !! "input_size" = Some isz ->
  _precompute_3d input_ p f lazy_loading = Raise KeyError.
Proof.
  intros Hf Hi. unfold Util._precompute_3d.
  rewrite decide_True by (by rewrite Hi).
  unfold getfeatures. by rewrite Hf.
Qed.

(** C5.  A call with a save path that returns leaves the container marked
    complete.  Any later call on that container with the same input gives
    no image to the encoder and writes nothing: it returns the stored sizes
    with the predictor and the container as they were (or, for a stack
    without slices that was first computed lazily, raises on the missing
    array).  After a first call with [lazy_loading] unset, a second such
    call returns exactly what the first one returned. *)
Theorem second_call_loads_without_encoder
        p (input_ : ndarray) f lazy_loading ndim r1 p1 f1 :
  precompute_image_embeddings p input_ (Some f) lazy_loading ndim
  = Done (r1, p1, Some f1) ->
  is_Some (attrs f1 !! "input_size")
  /\ (forall p' lazy_loading',
        (exists r2,
            precompute_image_embeddings p' input_ (Some f1) lazy_loading' ndim
            = Done (r2, p', Some f1)
            /\ emb_input_size r2 = emb_input_size r1
            /\ emb_original_size r2 = emb_original_size r1)
        \/ (features f1 = None
            /\ precompute_image_embeddings p' input_ (Some f1) lazy_loading' ndim
               = Raise KeyError))
  /\ (lazy_loading = false ->
      forall p',
        precompute_image_embeddings p' input_ (Some f1) false ndim
        = Done (r1, p', Some f1)).
Proof.
  unfold Util.precompute_image_embeddings.
  destruct (match ndim with Some n => n | None => ndim_of input_ end =? 2).
  { (* a 2D image *)
    intros ([[r p0] f0] & Hfirst & H)%mbind_Done_inv. injection H as -> -> ->.
    destruct (_precompute_2d_leaves _ _ _ _ _ _ Hfirst) as (feats & Hf & Ho & Hi & Hr).
    assert (Hagain : forall p', _precompute_2d input_ p' f1 = Done (r1, p', f1)).
    { intros p'. rewrite (_precompute_2d_complete input_ p' f1 feats _ _ Hf Ho Hi).
      destruct r1; simpl in *. by subst. }
    split; [by rewrite Hi|]. split.
    - intros p' lazy'. left. exists r1. by rewrite Hagain, mbind_Done.
    - intros _ p'. by rewrite Hagain, mbind_Done. }
  destruct (match ndim with Some n => n | None => ndim_of input_ end =? 3); [|done].
  (* a stack *)
  intros ([[r p0] f0] & Hfirst & H)%mbind_Done_inv. injection H as -> -> ->.
  destruct (_precompute_3d_leaves _ _ _ _ _ _ _ Hfirst) as (Ho & Hi & Hfeat).
  split; [by rewrite Hi|]. split.
  - intros p' lazy'.
    destruct (features f1) as [chunks|] eqn:Hf.
    + left. eexists.
      rewrite (_precompute_3d_complete input_ p' f1 lazy' chunks _ _ Hf Ho Hi).
      by rewrite mbind_Done.
    + right. split; [done|].
      by rewrite (_precompute_3d_no_array input_ p' f1 lazy' _ Hf Hi).
  - intros -> p'. destruct Hfeat as (chunks & Hf & Hr); [done|].
    rewrite (_precompute_3d_complete input_ p' f1 false chunks _ _ Hf Ho Hi).
    rewrite mbind_Done. destruct r1; simpl in *. by subst.
Qed.

(** One iteration either skips the slice or gives it to the encoder and
    keeps its sizes; it never writes an attribute. *)
Lemma step_Done total st z z_slice st' :
  step total st z z_slice = Done st' ->
  st' = st
  \/ (l_predictor _ st' = l_predictor _ st ++ [to_rgb z_slice]
      /\ l_original_size _ st' = Some (original_size_of z_slice)
      /\ l_input_size _ st' = Some (input_size_of z_slice)
      /\ attrs (l_store _ st') = attrs (l_store _ st)
      /\ attr_writes (journal (l_store _ st'))
         = attr_writes (journal (l_store _ st))).
Proof.
  unfold _precompute_3d_step.
  intros (skip & Hskip & H)%mbind_Done_inv.
  destruct skip; [left; congruence|right].
  unfold set_image, Util.original_size_of, Util.input_size_of in *.
  destruct (sam (to_rgb z_slice)) as [[emb osz] isz].
  apply mbind_Done_inv in H as (f' & Hf' & H).
  apply mbind_Done_inv in H as (f'' & Hf'' & H).
  injection H as <-. simpl.
  assert (Hsame : attrs f' = attrs (l_store _ st)
                  /\ attr_writes (journal f') = attr_writes (journal (l_store _ st))).
  { destruct (features (l_store _ st)).
    - by injection Hf' as <-.
    - unfold create_dataset in Hf'. destruct (features (l_store _ st)); [done|].
      injection Hf' as <-. simpl. by rewrite attr_writes_app, app_nil_r. }
  destruct Hsame as [Ha Hj].
  unfold setchunk in Hf''. destruct (features f'); [|done].
  destruct (decide _); [|done]. injection Hf'' as <-. simpl.
  by rewrite attr_writes_app, app_nil_r.
Qed.

(** The slice loop, whenever it completes: the images given to the
    encoder, the sizes of the last of them, and no attribute written. *)
Lemma loop_Done total (rest : list ndarray) :
  forall st z st',
    loop total st z rest = Done st' ->
    exists computed,
      (forall z_slice, z_slice ∈ computed -> z_slice ∈ rest)
      /\ l_predictor _ st' = l_predictor _ st ++ map to_rgb computed
      /\ attrs (l_store _ st') = attrs (l_store _ st)
      /\ attr_writes (journal (l_store _ st'))
         = attr_writes (journal (l_store _ st))
      /\ l_original_size _ st'
         = match last computed with
           | Some z_slice => Some (original_size_of z_slice)
           | None => l_original_size _ st
           end
      /\ l_input_size _ st'
         = match last computed with
           | Some z_slice => Some (input_size_of z_slice)
           | None => l_input_size _ st
           end.
Proof.
  induction rest as [|z_slice rest IH]; intros st z st'.
  - simpl. intros H. injection H as <-. exists []. simpl.
    rewrite app_nil_r. split; [by intros ? ?%elem_of_nil|done].
  - cbn [_precompute_3d_loop].
    intros (st1 & Hstep & Hloop)%mbind_Done_inv.
    destruct (IH _ _ _ Hloop) as (computed & Hin & Hp & Ha & Hj & Ho & Hi).
    destruct (step_Done _ _ _ _ _ Hstep) as [->|(Hp1 & Ho1 & Hi1 & Ha1 & Hj1)].
    + exists computed. split; [|done].
      intros x Hx. by apply list_elem_of_further, Hin.
    + exists (z_slice :: computed). split.
      { intros x [->|Hx]%elem_of_cons; [apply list_elem_of_here|].
        by apply list_elem_of_further, Hin. }
      rewrite Hp, Hp1, Ha, Ha1, Hj, Hj1, Ho, Hi, Ho1, Hi1. simpl.
      rewrite <- app_assoc. simpl. rewrite last_cons.
      by destruct (last computed).
Qed.

(** C6.  A run of [_precompute_3d] on a container that is not marked
    complete, with an encoder that reports the same sizes for every slice
    of the stack (the slices of one array have one shape): the pair
    ([original_size], [input_size]) returned and stored is the one the
    encoder reported for the first slice it computed in this run.  The loop
    assigns the pair at every slice it computes, so what is kept is the
    pair of the last slice computed, which is the same pair.  No attribute
    is written while the loop runs; [input_size] and [original_size] are
    written once each when the loop is over.  Later calls on the container
    return it as it is (or raise when it has no array). *)
Theorem metadata_written_once_after_loop
        (input_ : ndarray) p f lazy_loading r1 p1 f1 :
  (forall a b, a ∈ slices_of input_ -> b ∈ slices_of input_ ->
     input_size_of a = input_size_of b
     /\ original_size_of a = original_size_of b) ->
  attrs f !! "input_size" = None ->
  _precompute_3d input_ p f lazy_loading = Done (r1, p1, f1) ->
  exists st computed,
    loop (length (slices_of input_)) (Loop p f None None) 0 (slices_of input_)
    = Done st
    (* the slices given to the encoder, in order *)
    /\ (forall z_slice, z_slice ∈ computed -> z_slice ∈ slices_of input_)
    /\ p1 = p ++ map to_rgb computed
    (* nothing is written to the attributes during the loop *)
    /\ attrs (l_store _ st) = attrs f
    /\ attr_writes (journal (l_store _ st)) = attr_writes (journal f)
    (* each attribute is written once, after the loop *)
    /\ journal f1
       = journal (l_store _ st) ++ [SetAttr "input_size"; SetAttr "original_size"]
    (* the pair is that of the first slice computed *)
    /\ (forall z_first, head computed = Some z_first ->
          attrs f1 !! "input_size" = Some (Some (input_size_of z_first))
          /\ attrs f1 !! "original_size" = Some (Some (original_size_of z_first))
          /\ emb_input_size r1 = Some (input_size_of z_first)
          /\ emb_original_size r1 = Some (original_size_of z_first))
    (* which the loop has overwritten with that of the last one *)
    /\ (forall z_last, last computed = Some z_last ->
          l_input_size _ st = Some (input_size_of z_last)
          /\ l_original_size _ st = Some (original_size_of z_last))
    (* afterwards the metadata is only read *)
    /\ (forall p' lazy_loading',
          (exists r2, _precompute_3d input_ p' f1 lazy_loading' = Done (r2, p', f1))
          \/ _precompute_3d input_ p' f1 lazy_loading' = Raise KeyError).
Proof.
  intros Hsizes Hnew Hrun.
  destruct (_precompute_3d_leaves _ _ _ _ _ _ _ Hrun) as (Ho & Hi & _).
  unfold Util._precompute_3d in Hrun.
  rewrite decide_False in Hrun by (rewrite Hnew; by intros [? ?]).
  apply mbind_Done_inv in Hrun as ([[[[feats osz] isz] p2] f2] & Hfirst & H).
  apply mbind_Done_inv in H as (feats' & _ & H). injection H as <- <- <-.
  apply mbind_Done_inv in Hfirst as (st & Hloop & H).
  injection H as <- <- <- <- <-.
  destruct (loop_Done _ _ _ _ _ Hloop)
    as (computed & Hin & Hp & Ha & Hj & Hosz & Hisz).
  simpl in *.
  exists st, computed. split; [done|]. split; [done|]. split; [done|].
  split; [done|]. split; [done|]. split; [by rewrite <- app_assoc|].
  split; [|split].
  - intros z_first Hhead.
    assert (Hfirst : z_first ∈ computed).
    { destruct computed as [|x l]; [done|]. injection Hhead as ->.
      apply list_elem_of_here. }
    destruct (proj2 (last_is_Some computed)) as [z_last Hlast].
    { intros E. rewrite E in Hfirst. by apply elem_of_nil in Hfirst. }
    rewrite Hlast in Hosz, Hisz.
    destruct (Hsizes z_first z_last) as [-> ->];
      [by apply Hin|by eapply Hin, last_Some_elem_of|].
    by rewrite Hi, Ho, Hosz, Hisz.
  - intros z_last Hlast. rewrite Hlast in Hosz, Hisz. done.
  - intros p' lazy'.
    set (f1 := setattr (setattr _ _ _) _ _) in *.
    destruct (features f1) as [chunks|] eqn:Hf.
    + left. eexists.
      by rewrite (_precompute_3d_complete input_ p' f1 lazy' chunks _ _ Hf Ho Hi).
    + right. by rewrite (_precompute_3d_no_array input_ p' f1 lazy' _ Hf Hi).
Qed.

Lemma Forall2_embedded (l : list ndarray) :
  Forall2 (fun chunk z_slice => chunk = embed z_slice \/ stale chunk = true)
          (map embed l) l.
Proof. induction l; simpl; constructor; [by left|done]. Qed.

Lemma Forall2_zero_chunks (emb : embedding) (l : list ndarray) :
  Forall2 (fun chunk z_slice => chunk = embed z_slice \/ stale chunk = true)
          (replicate (length l) (zeros_like emb)) l.
Proof.
  induction l; simpl; constructor; [|done].
  right. apply count_nonzero_zeros_like.
Qed.

(** The store a computation leaves when it is killed after the first [k]
    slices of a stack: their embeddings, zero chunks for the other slices,
    and no attribute. *)
Lemma loop_interrupted (all : list ndarray) (k : nat) p :
  (k <= length all)%nat ->
  exists st_k,
    loop (length all) (Loop p empty_container None None) 0 (take k all) = Done st_k
    /\ attrs (l_store _ st_k) = ∅
    /\ (k = 0%nat -> features (l_store _ st_k) = None)
    /\ ((0 < k)%nat ->
        exists emb,
          features (l_store _ st_k)
          = Some (map embed (take k all)
                  ++ replicate (length all - k) (zeros_like emb))).
Proof.
  intros Hk. destruct k as [|k].
  { eexists. split; [reflexivity|]. split; [done|]. split; [done|]. lia. }
  destruct all as [|z_slice rest]; [simpl in Hk; lia|].
  cbn [take]. simpl in Hk.
  assert (Hlen : length (take k rest) = k) by (rewrite length_take; lia).
  rewrite (loop_fresh (length (z_slice :: rest)) z_slice (take k rest) p
             empty_container None None eq_refl)
    by (simpl; lia).
  eexists. split; [reflexivity|]. cbn [l_store attrs features].
  split; [done|]. split; [done|]. intros _. exists (embed z_slice).
  by rewrite Hlen.
Qed.

(** C4.  A computation on a stack with a save path that is killed after
    the first [k] slices leaves a store on which a second run computes
    exactly the slices whose chunk is all zero, skips the others, and
    returns the features that a single run returns: the embedding of every
    slice.  A chunk is all zero when each of its entries is 0.  When no
    slice embeds to all zeros, the slices computed by the second run are
    exactly those from [k] on. *)
Theorem resumed_run_equals_uninterrupted (input_ : ndarray) (k : nat) p p' :
  let all := slices_of input_ in
  all <> [] -> (k <= length all)%nat ->
  exists st_k,
    loop (length all) (Loop p empty_container None None) 0 (take k all) = Done st_k
    /\ exists r_resumed f_resumed r_single p_single f_single,
        let computed := recomputed (l_store _ st_k) all in
        _precompute_3d input_ p' (l_store _ st_k) false
        = Done (r_resumed, p' ++ map (fun e => to_rgb e.2) computed, f_resumed)
        /\ _precompute_3d input_ p' empty_container false
           = Done (r_single, p_single, f_single)
        /\ emb_features r_resumed = InMemory (map embed all)
        /\ emb_features r_single = InMemory (map embed all)
        /\ features f_resumed = features f_single
        /\ (forall chunks, features (l_store _ st_k) = Some chunks ->
              computed = pending ndarray 0 chunks all)
        /\ (Forall (fun z_slice => stale (embed z_slice) = false) all ->
              computed = zip (seq k (length all - k)) (drop k all))
        (* the slices computed are those whose stored chunk is all zero *)
        /\ (forall chunks, features (l_store _ st_k) = Some chunks ->
            forall z z_slice,
              (z, z_slice) ∈ computed
              <-> all !! z = Some z_slice
                  /\ exists chunk, chunks !! z = Some chunk
                                   /\ Forall (fun x => x = 0) chunk)
        /\ (forall chunk, stale chunk = true <-> Forall (fun x => x = 0) chunk).
Proof.
  intros all Hne Hk.
  destruct (loop_interrupted all k p Hk) as (st_k & Hrun & Hattrs & Hnone & Hsome).
  exists st_k. split; [done|].
  assert (Hres : resumable (l_store _ st_k) all).
  { split; [by rewrite Hattrs|].
    destruct k as [|k]; [by rewrite Hnone|].
    destruct Hsome as (emb & ->); [lia|].
    assert (Hsplit : Forall2
              (fun chunk z_slice => chunk = embed z_slice \/ stale chunk = true)
              (map embed (take (S k) all)
               ++ replicate (length all - S k) (zeros_like emb))
              (take (S k) all ++ drop (S k) all)).
    { apply Forall2_app; [apply Forall2_embedded|].
      replace (length all - S k)%nat with (length (drop (S k) all))
        by (by rewrite length_drop).
      apply Forall2_zero_chunks. }
    by rewrite take_drop in Hsplit. }
  destruct (_precompute_3d_resumable input_ (l_store _ st_k) p' false Hne Hres)
    as (ev1 & _ & Hresumed).
  destruct (_precompute_3d_resumable input_ empty_container p' false Hne)
    as (ev2 & _ & Hsingle); [by split|].
  fold all in Hresumed, Hsingle.
  do 5 eexists. split; [exact Hresumed|]. split; [exact Hsingle|].
  cbn [emb_features features].
  split; [done|]. split; [done|]. split; [done|].
  split.
  { intros chunks Hchunks. unfold Util.recomputed. by rewrite Hchunks. }
  split; [|split; [|apply stale_all_zero]].
  2:{ intros chunks Hchunks z z_slice. unfold Util.recomputed.
      rewrite Hchunks, elem_of_pending. split.
      - intros (j & chunk & -> & Hr & Ht & Hz). split; [done|]. by exists chunk.
      - intros (Hr & chunk & Ht & Hz). by exists z, chunk. }
  intros Hnonzero. unfold Util.recomputed.
  destruct k as [|k].
  { rewrite Hnone by done. by rewrite Nat.sub_0_r, drop_0. }
  destruct Hsome as (emb & ->); [lia|].
  assert (Hsplit :
    pending ndarray 0
            (map embed (take (S k) all)
             ++ replicate (length all - S k) (zeros_like emb))
            (take (S k) all ++ drop (S k) all)
    = zip (seq (S k) (length all - S k)) (drop (S k) all)).
  { rewrite pending_app by (by rewrite length_map).
    rewrite pending_fresh.
    2:{ rewrite <- (take_drop (S k) all) in Hnonzero.
        by apply Forall_app in Hnonzero as [? _]. }
    rewrite pending_stale.
    - rewrite length_map, length_take, length_drop.
      by replace (S k `min` length all)%nat with (S k) by lia.
    - apply Forall_replicate, count_nonzero_zeros_like.
    - rewrite length_replicate, length_drop. lia. }
  by rewrite take_drop in Hsplit.
Qed.

(** ** The in-memory computation and the cache side by side *)

#[local] Abbreviation _compute_2d := (_compute_2d ndarray _to_image sam).
#[local] Abbreviation _compute_3d := (_compute_3d ndarray slices_of to_rgb sam).

(** The loop of [_compute_3d] from any state of its local variables. *)
Lemma _compute_3d_fold (rest : list ndarray) :
  forall feats (osz isz : option image_size) p,
    fold_left (_compute_3d_step ndarray to_rgb sam) rest (feats, osz, isz, p)
    = (feats ++ map embed rest,
       match osz with None => original_size_of <$> head rest | o => o end,
       match isz with None => input_size_of <$> head rest | o => o end,
       p ++ map to_rgb rest).
Proof.
  induction rest as [|z_slice rest IH]; intros feats osz isz p.
  - simpl. rewrite !app_nil_r. by destruct osz, isz.
  - cbn [fold_left]. unfold _compute_3d_step at 2, set_image.
    unfold Util.embed, Util.original_size_of, Util.input_size_of in *.
    destruct (sam (to_rgb z_slice)) as [[emb o] i] eqn:E.
    rewrite IH. cbn [map head fmap option_fmap option_map]. rewrite E.
    rewrite <- !app_assoc. by destruct osz, isz.
Qed.

Lemma last_size_zip_seq (size_of : ndarray -> image_size) (n : nat)
      (l : list ndarray) (before : option image_size) :
  last_size ndarray size_of (zip (seq n (length l)) l) before
  = match last l with Some z_slice => Some (size_of z_slice) | None => before end.
Proof.
  unfold last_size.
  assert (H : snd <$> last (zip (seq n (length l)) l) = last l).
  { rewrite <- fmap_last, snd_zip; [done|by rewrite length_seq]. }
  destruct (last (zip _ _)) as [[i z_slice]|]; simpl in H; by rewrite <- H.
Qed.

(** [_precompute_3d] on a container without array and without mark. *)
Lemma _precompute_3d_fresh (input_ : ndarray) (f : container) p lazy_loading
      (z_last : ndarray) :
  let all := slices_of input_ in
  features f = None -> attrs f !! "input_size" = None ->
  last all = Some z_last ->
  exists f',
    _precompute_3d input_ p f lazy_loading
    = Done (mkEmbeddings
              (if lazy_loading then OnDisk else InMemory (map embed all))
              (Some (input_size_of z_last)) (Some (original_size_of z_last)),
            p ++ map to_rgb all, f')
    /\ features f' = Some (map embed all)
    /\ attrs f'
       = <["original_size" := Some (original_size_of z_last)]>
           (<["input_size" := Some (input_size_of z_last)]> (attrs f)).
Proof.
  intros all Hf Hattr Hlast.
  assert (Hne : all <> []) by (intros E; by rewrite E in Hlast).
  destruct (_precompute_3d_resumable input_ f p lazy_loading Hne)
    as (events & _ & Hrun).
  { split; [done|]. by rewrite Hf. }
  fold all in Hrun. unfold Util.recomputed in Hrun. rewrite Hf in Hrun.
  rewrite !last_size_zip_seq, Hlast in Hrun.
  rewrite (map_zip_seq_snd to_rgb 0 all) in Hrun.
  eexists. split; [exact Hrun|]. by split.
Qed.

(** X14.  Without a save path the embeddings of a stack are those of its
    slices in order, the encoder gets each slice once, in order, and the
    sizes reported are those of the first slice. *)
Theorem compute_3d_reports_first_slice (input_ : ndarray) p z_first rest :
  slices_of input_ = z_first :: rest ->
  _compute_3d input_ p
  = Done (mkEmbeddings (InMemory (map embed (z_first :: rest)))
                       (Some (input_size_of z_first))
                       (Some (original_size_of z_first)),
          p ++ map to_rgb (z_first :: rest)).
Proof.
  intros Hslices. unfold Util._compute_3d. rewrite Hslices.
  by rewrite (_compute_3d_fold (z_first :: rest) [] None None p).
Qed.

(** X15.  A save path that leads to a new container is transparent: for an
    image, and for a stack whose slices all get the same sizes from the
    encoder, the call returns the embeddings and gives the encoder the
    images that the call without a save path does, and fails where that
    one fails. *)
Theorem save_path_does_not_change_result p (input_ : ndarray) f ndim :
  let all := slices_of input_ in
  features f = None -> attrs f !! "input_size" = None ->
  (match ndim with None => ndim_of input_ | Some n => n end = 3 ->
   all <> []
   /\ forall a b, a ∈ all -> b ∈ all ->
        input_size_of a = input_size_of b
        /\ original_size_of a = original_size_of b) ->
  fst <$> precompute_image_embeddings p input_ (Some f) false ndim
  = fst <$> precompute_image_embeddings p input_ None false ndim.
Proof.
  intros all Hf Hattr Hstack. unfold Util.precompute_image_embeddings.
  set (n := match ndim with None => ndim_of input_ | Some n => n end) in *.
  destruct (Z.eqb_spec n 2) as [_|_].
  - unfold Util._precompute_2d, Util._compute_2d.
    rewrite decide_False by (rewrite Hattr; by intros [? ?]).
    destruct (_to_image input_) as [image|]; [|done].
    unfold set_image. destruct (sam image) as [[feats osz] isz].
    unfold create_dataset. by rewrite Hf.
  - destruct (Z.eqb_spec n 3) as [E|_]; [|done].
    destruct (Hstack E) as [Hne Hsame].
    destruct all as [|z_first rest] eqn:Hall; [done|].
    destruct (proj2 (last_is_Some (z_first :: rest))) as [z_last Hlast]; [done|].
    destruct (_precompute_3d_fresh input_ f p false z_last Hf Hattr)
      as (f' & Hrun & _).
    { fold all. by rewrite Hall. }
    fold all in Hrun. rewrite Hall in Hrun. rewrite Hrun.
    unfold Util._compute_3d. fold all. rewrite Hall.
    rewrite (_compute_3d_fold (z_first :: rest) [] None None p).
    cbn [app head fmap option_fmap option_map].
    destruct (Hsame z_last z_first) as [-> ->]; [|apply list_elem_of_here|done].
    by eapply last_Some_elem_of.
Qed.

(** X16.  [lazy_loading] changes the value under ["features"] and nothing
    else: when the eager call returns, it returns the chunks of the array
    it leaves in the container, and the lazy call on the same arguments
    returns the array itself with the same sizes, after the same encoder
    calls and with the same container. *)
Theorem lazy_loading_only_changes_features (input_ : ndarray) p f r p' f' :
  _precompute_3d input_ p f false = Done (r, p', f') ->
  exists chunks,
    features f' = Some chunks
    /\ emb_features r = InMemory chunks
    /\ _precompute_3d input_ p f true
       = Done (mkEmbeddings OnDisk (emb_input_size r) (emb_original_size r),
               p', f').
Proof.
  unfold Util._precompute_3d.
  intros ([[[[feats osz] isz] p2] f2] & Hfirst & H)%mbind_Done_inv.
  rewrite Hfirst, mbind_Done. cbv iota beta.
  apply mbind_Done_inv in H as (feats' & Hfeats & H). injection H as <- <- <-.
  assert (Hvalue : feats = OnDisk \/ feats = NoFeatures).
  { destruct (decide (is_Some (attrs f !! "input_size"))) as [Hdone|Hnew].
    - apply mbind_Done_inv in Hfirst as (chunks & _ & H).
      apply mbind_Done_inv in H as (osz' & _ & H).
      apply mbind_Done_inv in H as (isz' & _ & H).
      injection H as <- _ _ _ _. by left.
    - apply mbind_Done_inv in Hfirst as (st & _ & H).
      injection H as <- _ _ _ _.
      destruct (features _); auto. }
  destruct Hvalue as [-> | ->]; [|done].
  apply mbind_Done_inv in Hfeats as (chunks & Hchunks & H). injection H as <-.
  exists chunks. split; [by apply getfeatures_Done|]. split; [done|].
  by rewrite mbind_Done.
Qed.

(** The store a computation leaves when it is killed after the first [k]
    slices can be resumed; when no slice embeds to all zeros the slices
    left to compute are those from [k] on. *)
Lemma interrupted_store (all : list ndarray) (k : nat) p :
  (k <= length all)%nat ->
  exists st_k,
    loop (length all) (Loop p empty_container None None) 0 (take k all) = Done st_k
    /\ resumable (l_store _ st_k) all
    /\ (Forall (fun z_slice => stale (embed z_slice) = false) all ->
        recomputed (l_store _ st_k) all
        = zip (seq k (length (drop k all))) (drop k all)).
Proof.
  intros Hk.
  destruct (loop_interrupted all k p Hk) as (st_k & Hrun & Hattrs & Hnone & Hsome).
  exists st_k. split; [done|].
  destruct k as [|k].
  { split; [split; [by rewrite Hattrs|by rewrite Hnone]|].
    intros _. unfold Util.recomputed. by rewrite Hnone, drop_0. }
  destruct Hsome as (emb & Hfeat); [lia|].
  assert (Hlen : length (map embed (take (S k) all)) = length (take (S k) all))
    by apply length_map.
  split; [split; [by rewrite Hattrs|]|].
  - rewrite Hfeat.
    assert (Hsplit : Forall2
              (fun chunk z_slice => chunk = embed z_slice \/ stale chunk = true)
              (map embed (take (S k) all)
               ++ replicate (length all - S k) (zeros_like emb))
              (take (S k) all ++ drop (S k) all)).
    { apply Forall2_app; [apply Forall2_embedded|].
      rewrite <- (length_drop all (S k)). apply Forall2_zero_chunks. }
    by rewrite take_drop in Hsplit.
  - intros Hnonzero. unfold Util.recomputed. rewrite Hfeat.
    assert (Hsplit :
      pending ndarray 0
              (map embed (take (S k) all)
               ++ replicate (length all - S k) (zeros_like emb))
              (take (S k) all ++ drop (S k) all)
      = zip (seq (S k) (length (drop (S k) all))) (drop (S k) all)).
    { rewrite pending_app by done. rewrite pending_fresh.
      2:{ rewrite <- (take_drop (S k) all) in Hnonzero.
          by apply Forall_app in Hnonzero as [? _]. }
      rewrite pending_stale.
      - rewrite length_map, length_take, length_drop.
        by replace (S k `min` length all)%nat with (S k) by lia.
      - apply Forall_replicate, count_nonzero_zeros_like.
      - rewrite length_replicate, length_drop. lia. }
    by rewrite take_drop in Hsplit.
Qed.

(** X17.  A run that is killed before the last slice and resumed returns
    what a single run on a new container returns, sizes included (those of
    the last slice), and leaves the same array and attributes, when no
    slice embeds to all zeros. *)
Theorem resumed_run_returns_same_result (input_ : ndarray) (k : nat) p p' :
  let all := slices_of input_ in
  (k < length all)%nat ->
  Forall (fun z_slice => stale (embed z_slice) = false) all ->
  exists st_k r z_last p_resumed f_resumed p_single f_single,
    loop (length all) (Loop p empty_container None None) 0 (take k all) = Done st_k
    /\ _precompute_3d input_ p' (l_store _ st_k) false
       = Done (r, p_resumed, f_resumed)
    /\ _precompute_3d input_ p' empty_container false
       = Done (r, p_single, f_single)
    /\ last all = Some z_last
    /\ emb_input_size r = Some (input_size_of z_last)
    /\ emb_original_size r = Some (original_size_of z_last)
    /\ features f_resumed = features f_single
    /\ attrs f_resumed = attrs f_single
    /\ p_resumed = p' ++ map to_rgb (drop k all)
    /\ p_single = p' ++ map to_rgb all.
Proof.
  intros all Hk Hnonzero.
  assert (Hne : all <> []) by (intros E; rewrite E in Hk; simpl in Hk; lia).
  destruct (interrupted_store all k p) as (st_k & Hloop & Hres & Hrec); [lia|].
  specialize (Hrec Hnonzero).
  destruct (proj2 (last_is_Some all) Hne) as [z_last Hlast].
  assert (Hlast' : last (drop k all) = Some z_last).
  { rewrite <- (take_drop k all), last_app in Hlast.
    destruct (last (drop k all)) eqn:E; [done|].
    apply last_None in E. apply (f_equal length) in E.
    rewrite length_drop in E. simpl in E. lia. }
  destruct (_precompute_3d_resumable input_ (l_store _ st_k) p' false Hne Hres)
    as (ev1 & _ & Hresumed).
  destruct (_precompute_3d_fresh input_ empty_container p' false z_last)
    as (f_single & Hsingle & Hfeat & Hattrs); [done|done|done|].
  fold all in Hresumed, Hsingle, Hfeat.
  rewrite Hrec, !last_size_zip_seq, Hlast' in Hresumed.
  rewrite (map_zip_seq_snd to_rgb k (drop k all)) in Hresumed.
  destruct Hres as [Hattr _].
  assert (Hempty : attrs (l_store _ st_k) = ∅).
  { destruct (loop_interrupted all k p) as (st & Hloop2 & Hnoattr & _); [lia|].
    rewrite Hloop in Hloop2. injection Hloop2 as <-. done. }
  do 7 eexists. split; [exact Hloop|]. split; [exact Hresumed|].
  split; [exact Hsingle|]. split; [exact Hlast|].
  split; [done|]. split; [done|]. cbn [features attrs].
  split; [by rewrite Hfeat|]. split; [|done].
  by rewrite Hattrs, Hempty.
Qed.

(** X18.  A container that holds the embedding of every slice but not the
    mark of a finished run (a run killed between its last slice and the
    write of the attributes) makes the next run skip every slice, return
    no sizes and store [None] for both of them, for good: every later
    call returns no sizes either. *)
Theorem resume_after_last_slice_loses_sizes
        (input_ : ndarray) p f lazy_loading :
  let all := slices_of input_ in
  all <> [] ->
  attrs f !! "input_size" = None ->
  features f = Some (map embed all) ->
  Forall (fun z_slice => stale (embed z_slice) = false) all ->
  exists f',
    _precompute_3d input_ p f lazy_loading
    = Done (mkEmbeddings
              (if lazy_loading then OnDisk else InMemory (map embed all))
              None None, p, f')
    /\ features f' = features f
    /\ attrs f' !! "input_size" = Some None
    /\ attrs f' !! "original_size" = Some None
    /\ forall p' lazy_loading',
         _precompute_3d input_ p' f' lazy_loading'
         = Done (mkEmbeddings
                   (if lazy_loading' then OnDisk else InMemory (map embed all))
                   None None, p', f').
Proof.
  intros all Hne Hattr Hfeat Hnonzero.
  destruct (_precompute_3d_resumable input_ f p lazy_loading Hne)
    as (events & _ & Hrun).
  { split; [done|]. rewrite Hfeat. apply Forall2_embedded. }
  fold all in Hrun. unfold Util.recomputed in Hrun. rewrite Hfeat in Hrun.
  rewrite (pending_fresh 0 all Hnonzero) in Hrun.
  cbn [map last_size last] in Hrun. rewrite app_nil_r in Hrun.
  eexists. split; [exact Hrun|]. cbn [features attrs].
  split; [done|].
  split; [rewrite lookup_insert_ne by done; by rewrite lookup_insert_eq|].
  split; [by rewrite lookup_insert_eq|].
  intros p' lazy_loading'. apply _precompute_3d_complete; cbn [features attrs].
  - done.
  - by rewrite lookup_insert_eq.
  - rewrite lookup_insert_ne by done. by rewrite lookup_insert_eq.
Qed.

(** X19.  The outcome of a call with a save path that leads to a new
    container: an image is embedded unless [_to_image] refuses it; a stack
    with at least one slice is embedded; a stack without slices gives no
    features and no sizes when loaded lazily and a [TypeError] otherwise;
    any dimensionality other than 2 and 3 is refused. *)
Theorem new_container_outcome p (input_ : ndarray) f lazy_loading ndim :
  let n := match ndim with None => ndim_of input_ | Some n => n end in
  let run := precompute_image_embeddings p input_ (Some f) lazy_loading ndim in
  features f = None -> attrs f !! "input_size" = None ->
  (n = 2 ->
   match _to_image input_ with
   | Some image =>
       exists f', run = Done (mkEmbeddings (InMemory [(sam image).1.1])
                                           (Some (sam image).2)
                                           (Some (sam image).1.2),
                              p ++ [image], Some f')
   | None => run = Raise InvalidImage
   end)
  /\ (n = 3 -> slices_of input_ <> [] ->
      exists r f', run = Done (r, p ++ map to_rgb (slices_of input_), Some f')
                   /\ features f' = Some (map embed (slices_of input_)))
  /\ (n = 3 -> slices_of input_ = [] ->
      if lazy_loading
      then exists f', run = Done (mkEmbeddings NoFeatures None None, p, Some f')
                      /\ features f' = None
                      /\ attrs f' !! "input_size" = Some None
      else run = Raise TypeError)
  /\ (n <> 2 -> n <> 3 -> run = Raise InvalidDimensionality).
Proof.
  intros n run Hf Hattr. subst run. unfold Util.precompute_image_embeddings.
  fold n. split; [|split; [|split]].
  - intros ->. cbn [Z.eqb Pos.eqb]. unfold Util._precompute_2d.
    rewrite decide_False by (rewrite Hattr; by intros [? ?]).
    destruct (_to_image input_) as [image|]; [|done].
    unfold set_image. destruct (sam image) as [[feats osz] isz].
    unfold create_dataset. rewrite Hf, !mbind_Done. cbv iota beta.
    by eexists.
  - intros -> Hne. cbn [Z.eqb Pos.eqb].
    destruct (proj2 (last_is_Some (slices_of input_)) Hne) as [z_last Hlast].
    destruct (_precompute_3d_fresh input_ f p lazy_loading z_last Hf Hattr Hlast)
      as (f' & -> & Hfeat & _).
    rewrite mbind_Done. cbv iota beta. by do 2 eexists.
  - intros -> Hempty. cbn [Z.eqb Pos.eqb]. unfold Util._precompute_3d.
    rewrite decide_False by (rewrite Hattr; by intros [? ?]).
    rewrite Hempty. cbn [_precompute_3d_loop length]. rewrite mbind_Done.
    cbn [l_store l_input_size l_original_size l_predictor]. unfold setattr.
    cbn [features attrs journal]. rewrite Hf, mbind_Done. cbv iota beta.
    destruct lazy_loading; [|done].
    rewrite !mbind_Done. cbv iota beta. eexists. split; [done|].
    cbn [features attrs]. split; [done|].
    rewrite lookup_insert_ne by done. by rewrite lookup_insert_eq.
  - intros H2 H3.
    destruct (Z.eqb_spec n 2); [done|]. by destruct (Z.eqb_spec n 3).
Qed.

(** X20.  A container that is marked complete is never checked against the
    input: with the dimensionality given, the call returns the same stored
    embeddings and sizes for any two inputs whatever, with no encoder call
    and no write, also for an input that [_to_image] would refuse. *)
Theorem marked_container_ignores_input
        p (input1 input2 : ndarray) f lazy_loading (n : Z) :
  is_Some (attrs f !! "input_size") ->
  precompute_image_embeddings p input1 (Some f) lazy_loading (Some n)
  = precompute_image_embeddings p input2 (Some f) lazy_loading (Some n)
  /\ forall out,
      precompute_image_embeddings p input1 (Some f) lazy_loading (Some n)
      = Done out ->
      out.1.2 = p /\ out.2 = Some f.
Proof.
  intros Hmarked. unfold Util.precompute_image_embeddings.
  destruct (n =? 2).
  - unfold Util._precompute_2d. rewrite !decide_True by done.
    split; [done|]. intros out H.
    apply mbind_Done_inv in H as ([[r p1] f1] & H & Hout).
    apply mbind_Done_inv in H as (feats & _ & H).
    apply mbind_Done_inv in H as (osz & _ & H).
    apply mbind_Done_inv in H as (isz & _ & H).
    injection H as <- <- <-. by injection Hout as <-.
  - destruct (n =? 3); [|done].
    unfold Util._precompute_3d. rewrite !decide_True by done.
    split; [done|]. intros out H.
    apply mbind_Done_inv in H as ([[r p1] f1] & H & Hout).
    apply mbind_Done_inv in H as ([[[[feats osz] isz] p2] f2] & H & Hrest).
    apply mbind_Done_inv in H as (chunks & _ & H).
    apply mbind_Done_inv in H as (osz' & _ & H).
    apply mbind_Done_inv in H as (isz' & _ & H).
    injection H as <- <- <- <- <-.
    apply mbind_Done_inv in Hrest as (feats' & _ & Hrest).
    injection Hrest as <- <- <-. by injection Hout as <-.
Qed.

End Cache.

Lemma metadata_written_once_after_loop_witness :
  let sam := fun a : list Z => (a, (7, 7), (8, 8)) in
  exists r f,
    _precompute_3d (list Z) stub_slices stub_to_rgb sam [1; 2] [] empty_container
                   false
    = Done (r, [[1]; [2]], f)
    /\ attr_writes (journal f) = ["input_size"; "original_size"]
    /\ attrs f !! "input_size" = Some (Some (8, 8))
    /\ attrs f !! "original_size" = Some (Some (7, 7))
    /\ emb_input_size r = Some (8, 8).
Proof.
  intros sam.
  assert (Hrun : exists out,
            _precompute_3d (list Z) stub_slices stub_to_rgb sam [1; 2] []
                           empty_container false = Done out).
  { eexists. vm_compute. reflexivity. }
  destruct Hrun as ([[r p1] f1] & Hrun).
  destruct (metadata_written_once_after_loop (list Z) stub_slices stub_to_rgb
              sam [1; 2] [] empty_container false r p1 f1)
    as (st & computed & _); [|reflexivity|exact Hrun|].
  { intros a b _ _. split; reflexivity. }
  vm_compute in Hrun. injection Hrun as <- <- <-.
  do 2 eexists. split; [vm_compute; reflexivity|]. done.
Defined.

Lemma resumed_run_equals_uninterrupted_witness :
  exists st_k r f,
    _precompute_3d_loop (list Z) stub_to_rgb stub_sam 3
      (mkLoop (list Z) [] empty_container None None) 0 [[1]]
    = Done st_k
    /\ features (l_store _ st_k) = Some [[1]; [0]; [0]]
    (* the resumed run computes slices 1 and 2 only *)
    /\ _precompute_3d (list Z) stub_slices stub_to_rgb stub_sam [1; 2; 3] []
                      (l_store _ st_k) false
       = Done (r, [[2]; [3]], f)
    /\ emb_features r = InMemory [[1]; [2]; [3]].
Proof.
  destruct (resumed_run_equals_uninterrupted (list Z) stub_slices stub_to_rgb
              stub_sam [1; 2; 3] 1 [] [])
    as (st_k & Hrun & r & f & r' & p' & f' & Hresumed & _ & Hfeat & _ & _ & _
        & Hfrom_k & _); [done | simpl; lia |].
  rewrite Hfrom_k in Hresumed by (repeat constructor).
  exists st_k, r, f. split; [exact Hrun|].
  split; [vm_compute in Hrun; by injection Hrun as <-|].
  split; [exact Hresumed|exact Hfeat].
Defined.

Lemma second_call_loads_without_encoder_witness :
  exists r f,
    precompute_image_embeddings (list Z) stub_ndim stub_slices stub_to_image
      stub_to_rgb stub_sam [] [1; 2] (Some empty_container) false None
    = Done (r, [[1]; [2]], Some f)
    /\ precompute_image_embeddings (list Z) stub_ndim stub_slices stub_to_image
         stub_to_rgb stub_sam [] [1; 2] (Some f) false None
       = Done (r, [], Some f).
Proof.
  assert (Hrun : exists r f,
            precompute_image_embeddings (list Z) stub_ndim stub_slices stub_to_image
              stub_to_rgb stub_sam [] [1; 2] (Some empty_container) false None
            = Done (r, [[1]; [2]], Some f)).
  { do 2 eexists. vm_compute. reflexivity. }
  destruct Hrun as (r & f & Hrun). exists r, f. split; [exact Hrun|].
  destruct (second_call_loads_without_encoder (list Z) stub_ndim stub_slices
              stub_to_image stub_to_rgb stub_sam _ _ _ _ _ _ _ _ Hrun)
    as (_ & _ & Hagain).
  by apply Hagain.
Defined.

Lemma compute_3d_reports_first_slice_witness :
  _compute_3d (list Z) stub_slices stub_to_rgb stub_sam [1; 2] []
  = Done (mkEmbeddings (InMemory [[1]; [2]]) (Some (2, 2)) (Some (1, 1)),
          [[1]; [2]]).
Proof.
  apply (compute_3d_reports_first_slice (list Z) stub_slices stub_to_rgb stub_sam
           [1; 2] [] [1] [[2]]).
  reflexivity.
Defined.

Lemma save_path_does_not_change_result_witness :
  let sam := fun a : list Z => (a, (7, 7), (8, 8)) in
  fst <$> precompute_image_embeddings (list Z) stub_ndim stub_slices stub_to_image
            stub_to_rgb sam [] [1; 2] (Some empty_container) false None
  = fst <$> precompute_image_embeddings (list Z) stub_ndim stub_slices stub_to_image
              stub_to_rgb sam [] [1; 2] None false None.
Proof.
  intros sam.
  apply (save_path_does_not_change_result (list Z) stub_ndim stub_slices
           stub_to_image stub_to_rgb sam [] [1; 2] empty_container None).
  - reflexivity.
  - reflexivity.
  - intros _. split; [discriminate|]. intros a b _ _. split; reflexivity.
Defined.

Lemma lazy_loading_only_changes_features_witness :
  exists r p' f',
    _precompute_3d (list Z) stub_slices stub_to_rgb stub_sam [1; 2] []
                   empty_container false = Done (r, p', f')
    /\ _precompute_3d (list Z) stub_slices stub_to_rgb stub_sam [1; 2] []
                      empty_container true
       = Done (mkEmbeddings OnDisk (emb_input_size r) (emb_original_size r),
               p', f').
Proof.
  assert (Hrun : exists out,
            _precompute_3d (list Z) stub_slices stub_to_rgb stub_sam [1; 2] []
                           empty_container false = Done out).
  { eexists. vm_compute. reflexivity. }
  destruct Hrun as ([[r p'] f'] & Hrun). exists r, p', f'. split; [exact Hrun|].
  destruct (lazy_loading_only_changes_features (list Z) stub_slices stub_to_rgb
              stub_sam [1; 2] [] empty_container r p' f' Hrun)
    as (chunks & _ & _ & Hlazy).
  exact Hlazy.
Defined.

Lemma resumed_run_returns_same_result_witness :
  exists st_k r p1 f1 p2 f2,
    _precompute_3d_loop (list Z) stub_to_rgb stub_sam 3
      (mkLoop (list Z) [] empty_container None None) 0 [[1]]
    = Done st_k
    /\ _precompute_3d (list Z) stub_slices stub_to_rgb stub_sam [1; 2; 3] []
                      (l_store _ st_k) false = Done (r, p1, f1)
    /\ _precompute_3d (list Z) stub_slices stub_to_rgb stub_sam [1; 2; 3] []
                      empty_container false = Done (r, p2, f2)
    /\ emb_input_size r = Some (4, 4).
Proof.
  destruct (resumed_run_returns_same_result (list Z) stub_slices stub_to_rgb
              stub_sam [1; 2; 3] 1 [] [])
    as (st_k & r & z_last & p1 & f1 & p2 & f2 & Hloop & Hres & Hsingle & Hlast
        & Hsize & _).
  - simpl. lia.
  - repeat constructor.
  - exists st_k, r, p1, f1, p2, f2.
    split; [exact Hloop|]. split; [exact Hres|]. split; [exact Hsingle|].
    rewrite Hsize. vm_compute in Hlast. by injection Hlast as <-.
Defined.

Lemma resume_after_last_slice_loses_sizes_witness :
  let f := mkContainer (Some [[1]; [2]]) ∅ [] in
  exists f',
    _precompute_3d (list Z) stub_slices stub_to_rgb stub_sam [1; 2] [] f false
    = Done (mkEmbeddings (InMemory [[1]; [2]]) None None, [], f')
    /\ attrs f' !! "input_size" = Some None.
Proof.
  intros f.
  destruct (resume_after_last_slice_loses_sizes (list Z) stub_slices stub_to_rgb
              stub_sam [1; 2] [] f false)
    as (f' & Hrun & _ & Hattr & _).
  - discriminate.
  - reflexivity.
  - reflexivity.
  - repeat constructor.
  - exists f'. split; [exact Hrun|exact Hattr].
Defined.

Lemma new_container_outcome_witness :
  exists r f',
    precompute_image_embeddings (list Z) stub_ndim stub_slices stub_to_image
      stub_to_rgb stub_sam [] [1; 2] (Some empty_container) false None
    = Done (r, [] ++ map stub_to_rgb (stub_slices [1; 2]), Some f')
    /\ features f' = Some [[1]; [2]].
Proof.
  destruct (new_container_outcome (list Z) stub_ndim stub_slices stub_to_image
              stub_to_rgb stub_sam [] [1; 2] empty_container false None)
    as (_ & H & _); [reflexivity|reflexivity|].
  apply H; [reflexivity|discriminate].
Defined.

Lemma marked_container_ignores_input_witness :
  let f := mkContainer (Some [[1]; [2]])
                       (<["original_size" := Some (1, 1)]>
                          (<["input_size" := Some (2, 2)]> ∅)) [] in
  precompute_image_embeddings (list Z) stub_ndim stub_slices stub_to_image
    stub_to_rgb stub_sam [] [7; 8; 9] (Some f) false (Some 3)
  = Done (mkEmbeddings (InMemory [[1]; [2]]) (Some (2, 2)) (Some (1, 1)), [],
          Some f).
Proof.
  intros f.
  destruct (marked_container_ignores_input (list Z) stub_ndim stub_slices
              stub_to_image stub_to_rgb stub_sam [] [7; 8; 9] [1; 2] f false 3)
    as [-> _].
  - eexists. vm_compute. reflexivity.
  - vm_compute. reflexivity.
Defined.

End EmbeddingFacts.

(** ** The model checkpoints *)

Module CheckpointFacts.
Import Checkpoint.

Lemma exists_true (w : world) (path : string) :
  exists_ w path = true <-> is_Some (files w !! path).
Proof. unfold exists_. apply bool_decide_eq_true. Qed.

Lemma exists_false (w : world) (path : string) :
  exists_ w path = false <-> files w !! path = None.
Proof.
  unfold exists_. rewrite bool_decide_eq_false, <- eq_None_not_Some. done.
Qed.

(** Every model type with a URL has an expected checksum. *)
Lemma known_model_has_checksum (model_type url : string) :
  MODEL_URLS !! model_type = Some url ->
  exists expected, CHECKSUMS !! model_type = Some (Some expected).
Proof.
  unfold MODEL_URLS, CHECKSUMS. cbn [list_to_map foldr uncurry fst snd].
  intros H.
  destruct (decide (model_type = "vit_h")) as [->|Hh].
  { eexists. by rewrite lookup_insert_eq. }
  rewrite lookup_insert_ne in H by done. rewrite lookup_insert_ne by done.
  destruct (decide (model_type = "vit_l")) as [->|Hl].
  { eexists. by rewrite lookup_insert_eq. }
  rewrite lookup_insert_ne in H by done. rewrite lookup_insert_ne by done.
  destruct (decide (model_type = "vit_b")) as [->|Hb].
  { eexists. by rewrite lookup_insert_eq. }
  rewrite lookup_insert_ne in H by done. by rewrite lookup_empty in H.
Qed.

Section Download.

Variable CHECKPOINT_FOLDER : string.
Variable server : string -> option (Z * content).
Variable sha256 : content -> string.

#[local] Abbreviation _download := (_download server sha256).
#[local] Abbreviation _get_checkpoint :=
  (_get_checkpoint CHECKPOINT_FOLDER server sha256).
#[local] Abbreviation default_path := (default_path CHECKPOINT_FOLDER).

(** What [_download] does, by the answer of the server. *)
Lemma _download_cases (url path model_type : string) (w : world) :
  let w0 := mkWorld (files w) (requests w ++ [url]) in
  let w1 body := mkWorld (<[path := body]> (files w)) (requests w ++ [url]) in
  (exists e, _download url path model_type w = Err e w0
             /\ (e = ConnectionError \/ e = HTTPError \/ e = RuntimeError_status)
             /\ forall body, server url <> Some (200, body))
  \/ (exists body,
        server url = Some (200, body)
        /\ ((_download url path model_type w = Err KeyError (w1 body)
             /\ CHECKSUMS !! model_type = None)
            \/ (_download url path model_type w = Ok tt (w1 body)
                /\ (CHECKSUMS !! model_type = Some None
                    \/ CHECKSUMS !! model_type = Some (Some (sha256 body))))
            \/ (_download url path model_type w = Err RuntimeError_checksum (w1 body)
                /\ exists expected,
                    CHECKSUMS !! model_type = Some (Some expected)
                    /\ sha256 body <> expected))).
Proof.
  intros w0 w1. unfold Checkpoint._download. fold w0.
  destruct (server url) as [[status_code body]|]; [|left; eauto 10].
  destruct (Z.eqb_spec status_code 200) as [->|Hstatus]; cbn [negb].
  2:{ left. destruct (_ && _); eexists; (split; [done|]);
        (split; [auto|]); intros b; congruence. }
  right. exists body. split; [done|]. cbn [files requests]. fold (w1 body).
  destruct (CHECKSUMS !! model_type) as [[expected|]|]; [|auto|auto].
  rewrite lookup_insert_eq.
  destruct (String.eqb_spec (sha256 body) expected) as [<-|Hne]; cbn [negb].
  - right; left. auto.
  - right; right. split; [done|]. by exists expected.
Qed.

(** X21.  A download whose checksum is wrong raises, but the file stays
    where it was written: the next call finds it, requests nothing,
    verifies nothing and returns its path. *)
Theorem corrupt_download_is_accepted_on_retry
        (model_type url expected : string) (body : content) (w : world) :
  let path := join CHECKPOINT_FOLDER (split_last EmptyString url) in
  let w1 := mkWorld (<[path := body]> (files w)) (requests w ++ [url]) in
  MODEL_URLS !! model_type = Some url ->
  CHECKSUMS !! model_type = Some (Some expected) ->
  files w !! path = None ->
  server url = Some (200, body) ->
  sha256 body <> expected ->
  _get_checkpoint model_type None w = Err RuntimeError_checksum w1
  /\ _get_checkpoint model_type None w1 = Ok path w1.
Proof.
  intros path w1 Hurl Hsum Hnew Hserver Hbad.
  unfold Checkpoint._get_checkpoint. rewrite Hurl. fold path.
  rewrite (proj2 (exists_false w path) Hnew). cbn [negb].
  assert (Hagain : exists_ w1 path = true).
  { apply exists_true. unfold w1. cbn [files]. by rewrite lookup_insert_eq. }
  rewrite Hagain. cbn [negb]. split; [|done].
  unfold Checkpoint._download. rewrite Hserver, Hsum. cbn [negb Z.eqb Pos.eqb].
  cbn [files requests]. rewrite lookup_insert_eq.
  destruct (String.eqb_spec (sha256 body) expected) as [E|_]; [done|].
  done.
Qed.

(** X22.  A call that returns a path returns the path of a file that
    exists, and the same call made again returns the same path without
    a request and without a write. *)
Theorem get_checkpoint_is_idempotent
        (model_type : string) (checkpoint_path : option string)
        (w w' : world) (path : string) :
  _get_checkpoint model_type checkpoint_path w = Ok path w' ->
  is_Some (files w' !! path)
  /\ _get_checkpoint model_type checkpoint_path w' = Ok path w'.
Proof.
  unfold Checkpoint._get_checkpoint. destruct checkpoint_path as [explicit|].
  - destruct (exists_ w explicit) eqn:E; cbn [negb]; [|done].
    intros H. injection H as <- <-. rewrite E. cbn [negb].
    split; [by apply exists_true|done].
  - destruct (MODEL_URLS !! model_type) as [url|]; [|done].
    set (default := join CHECKPOINT_FOLDER (split_last EmptyString url)).
    destruct (exists_ w default) eqn:E; cbn [negb].
    { intros H. injection H as <- <-. rewrite E.
      split; [by apply exists_true|done]. }
    destruct (_download_cases url default model_type w)
      as [(e & -> & _)|(body & _ & [[-> _]|[[-> _]|[-> _]]])]; try done.
    intros H. injection H as <- <-.
    assert (Hthere : exists_ (mkWorld (<[default := body]> (files w))
                                      (requests w ++ [url])) default = true).
    { apply exists_true. cbn [files]. by rewrite lookup_insert_eq. }
    rewrite Hthere. split; [by apply exists_true|done].
Qed.

(** X23.  A path returned for a file that was not there before the call is
    the path of a file that was just downloaded from the URL of the model
    type with status 200 and whose digest is the expected checksum. *)
Theorem fresh_download_is_verified (model_type : string) (w w' : world)
        (path : string) :
  _get_checkpoint model_type None w = Ok path w' ->
  files w !! path = None ->
  exists url body,
    MODEL_URLS !! model_type = Some url
    /\ server url = Some (200, body)
    /\ w' = mkWorld (<[path := body]> (files w)) (requests w ++ [url])
    /\ CHECKSUMS !! model_type = Some (Some (sha256 body)).
Proof.
  unfold Checkpoint._get_checkpoint.
  destruct (MODEL_URLS !! model_type) as [url|] eqn:Hurl; [|done].
  set (default := join CHECKPOINT_FOLDER (split_last EmptyString url)).
  destruct (exists_ w default) eqn:E; cbn [negb].
  { intros H Hnew. injection H as <- <-.
    apply exists_true in E as [c E]. congruence. }
  destruct (_download_cases url default model_type w)
    as [(e & -> & _)|(body & Hserver & [[-> _]|[[-> Hsum]|[-> _]]])]; try done.
  intros H _. injection H as <- <-.
  exists url, body. split; [done|]. split; [done|]. split; [done|].
  destruct Hsum as [Hsum|Hsum]; [|done].
  destruct (known_model_has_checksum model_type url Hurl) as [c Hc]. congruence.
Qed.

(** X24.  Whatever the outcome, [_get_checkpoint] changes no file that
    exists, writes no file but the one at the default path of the model
    type, and requests at most the URL of the model type, once.  With a
    checkpoint path passed, or with the default path present, it requests
    and writes nothing at all. *)
Theorem get_checkpoint_frame
        (model_type : string) (checkpoint_path : option string) (w : world) :
  let w' := world_of (_get_checkpoint model_type checkpoint_path w) in
  (forall q c, files w !! q = Some c -> files w' !! q = Some c)
  /\ (forall q, default_path model_type <> Some q -> files w' !! q = files w !! q)
  /\ (requests w' = requests w
      \/ exists url, MODEL_URLS !! model_type = Some url
                     /\ requests w' = requests w ++ [url])
  /\ (is_Some checkpoint_path -> w' = w)
  /\ (forall q, default_path model_type = Some q -> is_Some (files w !! q) ->
        w' = w).
Proof.
  unfold Checkpoint._get_checkpoint, Checkpoint.default_path.
  destruct checkpoint_path as [explicit|].
  { destruct (exists_ w explicit); cbn [negb world_of]; auto 10. }
  destruct (MODEL_URLS !! model_type) as [url|] eqn:Hurl; cbn [mbind option_bind].
  2:{ cbn [world_of]. split; [done|]. split; [done|]. split; [by left|].
      split; [done|]. done. }
  set (default := join CHECKPOINT_FOLDER (split_last EmptyString url)).
  destruct (exists_ w default) eqn:E; cbn [negb].
  { cbn [world_of]. split; [done|]. split; [done|]. split; [by left|]. done. }
  apply exists_false in E.
  assert (Hcached : forall (w' : world) q,
            Some default = Some q -> is_Some (files w !! q) -> w' = w).
  { intros w' q [= <-] [c Hc]. congruence. }
  destruct (_download_cases url default model_type w)
    as [(e & -> & _)|(body & _ & [[-> _]|[[-> _]|[-> _]]])];
    cbn [world_of files requests].
  - split; [done|]. split; [done|]. split; [right; by exists url|].
    split; [by intros [? [=]]|apply Hcached].
  - split; [|split; [|split; [right; by exists url|
                               split; [by intros [? [=]]|apply Hcached]]]].
    + intros q c Hq. rewrite lookup_insert_ne; [done|]. intros <-. congruence.
    + intros q Hq. rewrite lookup_insert_ne; [done|]. intros <-. by apply Hq.
  - split; [|split; [|split; [right; by exists url|
                               split; [by intros [? [=]]|apply Hcached]]]].
    + intros q c Hq. rewrite lookup_insert_ne; [done|]. intros <-. congruence.
    + intros q Hq. rewrite lookup_insert_ne; [done|]. intros <-. by apply Hq.
  - split; [|split; [|split; [right; by exists url|
                               split; [by intros [? [=]]|apply Hcached]]]].
    + intros q c Hq. rewrite lookup_insert_ne; [done|]. intros <-. congruence.
    + intros q Hq. rewrite lookup_insert_ne; [done|]. intros <-. by apply Hq.
Qed.

(** X25.  A request that fails, or that is answered with a status other
    than 200, writes no file: the call raises, the files are what they
    were, and the next call requests the URL again. *)
Theorem failed_request_leaves_no_file (model_type url : string) (w : world) :
  let path := join CHECKPOINT_FOLDER (split_last EmptyString url) in
  let w1 := mkWorld (files w) (requests w ++ [url]) in
  MODEL_URLS !! model_type = Some url ->
  files w !! path = None ->
  (forall body, server url <> Some (200, body)) ->
  exists e,
    _get_checkpoint model_type None w = Err e w1
    /\ (e = ConnectionError \/ e = HTTPError \/ e = RuntimeError_status)
    /\ _get_checkpoint model_type None w1
       = Err e (mkWorld (files w) (requests w ++ [url; url])).
Proof.
  intros path w1 Hurl Hnew Hfail.
  unfold Checkpoint._get_checkpoint. rewrite Hurl. fold path.
  rewrite (proj2 (exists_false w path) Hnew).
  rewrite (proj2 (exists_false w1 path) Hnew). cbn [negb].
  subst w1. unfold Checkpoint._download.
  destruct (server url) as [[status_code body]|].
  - destruct (Z.eqb_spec status_code 200) as [->|_]; cbn [negb].
    { by destruct (Hfail body). }
    cbn [files requests]. rewrite <- app_assoc. cbn [app].
    destruct (_ && _); eexists; (split; [done|]); auto.
  - cbn [files requests]. rewrite <- app_assoc. cbn [app].
    eexists. split; [done|]. auto.
Qed.

End Download.

Lemma corrupt_download_is_accepted_on_retry_witness :
  let path := "/models/sam_vit_b_01ec64.pth" in
  let url := "https://dl.fbaipublicfiles.com/segment_anything/sam_vit_b_01ec64.pth" in
  let w1 := mkWorld {[ path := [Byte.x2a] ]} [url] in
  _get_checkpoint "/models" stub_server stub_sha256 "vit_b" None new_world
  = Err RuntimeError_checksum w1
  /\ _get_checkpoint "/models" stub_server stub_sha256 "vit_b" None w1 = Ok path w1.
Proof.
  intros path url w1.
  apply (corrupt_download_is_accepted_on_retry "/models" stub_server stub_sha256
           "vit_b" url
           "ec2df62732614e57411cdcf32a23ffdf28910380d03139ee0f4fcbe91eb8c912"
           [Byte.x2a] new_world).
  - vm_compute. reflexivity.
  - vm_compute. reflexivity.
  - vm_compute. reflexivity.
  - reflexivity.
  - vm_compute. discriminate.
Defined.

Lemma get_checkpoint_is_idempotent_witness :
  let path := "/models/sam_vit_b_01ec64.pth" in
  let url := "https://dl.fbaipublicfiles.com/segment_anything/sam_vit_b_01ec64.pth" in
  let w1 := mkWorld {[ path := [Byte.x2a] ]} [url] in
  _get_checkpoint "/models" stub_server vit_b_sha256 "vit_b" None new_world
  = Ok path w1
  /\ _get_checkpoint "/models" stub_server vit_b_sha256 "vit_b" None w1 = Ok path w1.
Proof.
  intros path url w1.
  assert (Hrun : _get_checkpoint "/models" stub_server vit_b_sha256 "vit_b" None
                                 new_world = Ok path w1).
  { vm_compute. reflexivity. }
  split; [exact Hrun|].
  apply (get_checkpoint_is_idempotent "/models" stub_server vit_b_sha256
           "vit_b" None new_world w1 path Hrun).
Defined.

Lemma fresh_download_is_verified_witness :
  let path := "/models/sam_vit_b_01ec64.pth" in
  exists w',
    _get_checkpoint "/models" stub_server vit_b_sha256 "vit_b" None new_world
    = Ok path w'
    /\ exists url body,
        MODEL_URLS !! "vit_b" = Some url
        /\ stub_server url = Some (200, body)
        /\ w' = mkWorld (<[path := body]> (files new_world))
                        (requests new_world ++ [url])
        /\ CHECKSUMS !! "vit_b" = Some (Some (vit_b_sha256 body)).
Proof.
  intros path. eexists. split; [vm_compute; reflexivity|].
  apply (fresh_download_is_verified "/models" stub_server vit_b_sha256 "vit_b"
           new_world).
  - vm_compute. reflexivity.
  - vm_compute. reflexivity.
Defined.

Lemma failed_request_leaves_no_file_witness :
  let url := "https://dl.fbaipublicfiles.com/segment_anything/sam_vit_b_01ec64.pth" in
  let not_found := fun _ : string => Some (404, @nil Byte.byte) in
  exists e,
    _get_checkpoint "/models" not_found stub_sha256 "vit_b" None new_world
    = Err e (mkWorld ∅ [url])
    /\ (e = ConnectionError \/ e = HTTPError \/ e = RuntimeError_status)
    /\ _get_checkpoint "/models" not_found stub_sha256 "vit_b" None
                       (mkWorld ∅ [url])
       = Err e (mkWorld ∅ [url; url]).
Proof.
  intros url not_found.
  apply (failed_request_leaves_no_file "/models" not_found stub_sha256 "vit_b" url
           new_world).
  - vm_compute. reflexivity.
  - vm_compute. reflexivity.
  - intros body. discriminate.
Defined.

End CheckpointFacts.

(** ** Images *)

Module ImageFacts.
Import Image.

Lemma length_triples (l : list Q) :
  length (flat_map (fun x => [x; x; x]) l) = (3 * length l)%nat.
Proof. induction l as [|x l IH]; simpl; [done|]. rewrite IH. lia. Qed.

Lemma lookup_triples (l : list Q) (k c : nat) :
  (c < 3)%nat -> flat_map (fun x => [x; x; x]) l !! (3 * k + c)%nat = l !! k.
Proof.
  intros Hc. revert k. induction l as [|x l IH]; intros k.
  - by rewrite !lookup_nil.
  - destruct k as [|k].
    + destruct c as [|[|[|c]]]; [done|done|done|lia].
    + replace (3 * S k + c)%nat with (S (S (S (3 * k + c)))) by lia.
      simpl. apply IH.
Qed.

Lemma size_snoc (s : list nat) (n : nat) :
  foldr Nat.mul 1%nat (s ++ [n]) = (foldr Nat.mul 1%nat s * n)%nat.
Proof. induction s as [|m s IH]; simpl; [lia|]. rewrite IH. lia. Qed.

Lemma stack3_well_formed (a : ndarray) : well_formed a -> well_formed (stack3 a).
Proof.
  unfold well_formed, stack3. simpl. intros H.
  rewrite length_triples, size_snoc, H. lia.
Qed.

Lemma length_pieces {A} (k n : nat) (l : list A) : length (pieces k n l) = n.
Proof. revert l. induction n as [|n IH]; intros l; simpl; [done|]. by rewrite IH. Qed.

Section ToImage.

Variable rescale : list Q -> list Q.

#[local] Abbreviation _to_image := (_to_image rescale).

#[local] Abbreviation as_uint8 := (as_uint8 rescale).

Lemma as_uint8_dtype (a : ndarray) : dtype_of (as_uint8 a) = UInt8.
Proof. unfold Image.as_uint8. by destruct (dtype_of a) eqn:E. Qed.

Lemma as_uint8_shape (a : ndarray) : shape (as_uint8 a) = shape a.
Proof. unfold Image.as_uint8. by destruct (dtype_of a). Qed.

Lemma as_uint8_fixed (a : ndarray) : dtype_of a = UInt8 -> as_uint8 a = a.
Proof. unfold Image.as_uint8. by intros ->. Qed.

(** An array without elements can be normalised only when it is in
    [uint8] already. *)
Lemma _to_image_no_elements (a : ndarray) :
  dtype_of a = OtherDtype -> data a = [] -> _to_image a = None.
Proof. unfold Image._to_image. by intros -> ->. Qed.

Lemma _to_image_cases (a : ndarray) :
  dtype_of a = UInt8 \/ data a <> [] ->
  (exists h w, shape a = [h; w] /\ _to_image a = Some (stack3 (as_uint8 a)))
  \/ (exists h w, shape a = [h; w; 3%nat] /\ _to_image a = Some (as_uint8 a))
  \/ (length (shape a) <> 2%nat
      /\ ~ (length (shape a) = 3%nat /\ last (shape a) = Some 3%nat)
      /\ _to_image a = None).
Proof.
  intros Hnorm. unfold Image._to_image.
  assert (Hfirst : match dtype_of a, data a with
                   | UInt8, _ => Some a
                   | OtherDtype, [] => None
                   | OtherDtype, _ =>
                       Some (mkArray UInt8 (shape a) (rescale (data a)))
                   end = Some (as_uint8 a)).
  { unfold Image.as_uint8. destruct (dtype_of a); [done|].
    destruct (data a); [by destruct Hnorm|done]. }
  rewrite Hfirst. cbn [mbind option_bind]. unfold ndim.
  rewrite as_uint8_shape.
  destruct (shape a) as [|h [|w [|c [|d rest]]]] eqn:E; simpl length.
  - right; right. split; [done|]. split; [by intros [? _]|done].
  - right; right. split; [done|]. split; [by intros [? _]|done].
  - left. by exists h, w.
  - right. destruct (decide (c = 3%nat)) as [->|Hc].
    + left. by exists h, w.
    + right. split; [done|]. split; [intros [_ [= ?]]; done|].
      cbn [Z.of_nat Z.eqb Pos.of_succ_nat Pos.succ Pos.eqb andb last].
      rewrite bool_decide_eq_false_2; [done|]. by intros [= ?].
  - right; right. split; [done|]. split; [by intros [? _]|].
    destruct (Z.eqb_spec (Z.of_nat (S (S (S (S (length rest)))))) 2); [lia|].
    destruct (Z.eqb_spec (Z.of_nat (S (S (S (S (length rest)))))) 3); [lia|].
    done.
Qed.

Lemma _to_image_Some (a image : ndarray) :
  _to_image a = Some image -> dtype_of a = UInt8 \/ data a <> [].
Proof.
  intros H. destruct (dtype_of a) eqn:Hd; [by left|right].
  intros Hempty. by rewrite (_to_image_no_elements a Hd Hempty) in H.
Qed.

(** X26.  [_to_image] accepts exactly the arrays with two axes and the
    arrays with three axes whose last axis has length 3, provided the
    array is in [uint8] or has an element; it raises on every other
    array. *)
Theorem to_image_accepts_gray_and_rgb_only (a : ndarray) :
  is_Some (_to_image a)
  <-> (dtype_of a = UInt8 \/ data a <> [])
      /\ (length (shape a) = 2%nat
          \/ (length (shape a) = 3%nat /\ last (shape a) = Some 3%nat)).
Proof.
  split.
  - intros [image Himage]. pose proof (_to_image_Some a image Himage) as Hnorm.
    split; [done|].
    destruct (_to_image_cases a Hnorm)
      as [(h & w & Hs & _)|[(h & w & Hs & _)|(_ & _ & Hnone)]].
    + rewrite Hs. by left.
    + rewrite Hs. by right.
    + by rewrite Hnone in Himage.
  - intros [Hnorm Hshape].
    destruct (_to_image_cases a Hnorm)
      as [(h & w & Hs & ->)|[(h & w & Hs & ->)|(Hno2 & Hno3 & _)]];
      [by eexists|by eexists|].
    destruct Hshape as [H|H]; [by destruct Hno2|by destruct Hno3].
Qed.

(** X27.  What [_to_image] returns is an RGB image in [uint8] of the height
    and width of its input, with as many elements as its shape asks for
    when the input had, and [_to_image] maps it to itself. *)
Theorem to_image_returns_rgb_uint8 (a image : ndarray) :
  (forall l, length (rescale l) = length l) ->
  _to_image a = Some image ->
  dtype_of image = UInt8
  /\ (exists h w, shape image = [h; w; 3%nat]
                  /\ (shape a = [h; w] \/ shape a = [h; w; 3%nat]))
  /\ (well_formed a -> well_formed image)
  /\ _to_image image = Some image.
Proof.
  intros Hrescale Himage.
  assert (Hwf : well_formed a -> well_formed (as_uint8 a)).
  { unfold well_formed, Image.as_uint8. destruct (dtype_of a); [done|]. simpl.
    by rewrite Hrescale. }
  destruct (_to_image_cases a (_to_image_Some a image Himage))
    as [(h & w & Hs & Hrun)|[(h & w & Hs & Hrun)|(_ & _ & Hrun)]];
    rewrite Hrun in Himage; [| |done]; injection Himage as <-.
  - split; [apply as_uint8_dtype|].
    split; [exists h, w; cbn [stack3 shape]; rewrite as_uint8_shape, Hs; auto|].
    split; [intros H; by apply stack3_well_formed, Hwf|].
    destruct (_to_image_cases (stack3 (as_uint8 a)))
      as [(h' & w' & Hs' & _)|[(h' & w' & _ & ->)|(_ & Hno & _)]];
      [left; apply as_uint8_dtype| | |].
    + cbn [stack3 shape] in Hs'. by rewrite as_uint8_shape, Hs in Hs'.
    + f_equal. apply as_uint8_fixed. apply as_uint8_dtype.
    + destruct Hno. cbn [stack3 shape]. by rewrite as_uint8_shape, Hs.
  - split; [apply as_uint8_dtype|].
    split; [exists h, w; rewrite as_uint8_shape, Hs; auto|].
    split; [done|].
    destruct (_to_image_cases (as_uint8 a))
      as [(h' & w' & Hs' & _)|[(h' & w' & _ & ->)|(_ & Hno & _)]];
      [left; apply as_uint8_dtype| | |].
    + by rewrite as_uint8_shape, Hs in Hs'.
    + f_equal. apply as_uint8_fixed. apply as_uint8_dtype.
    + destruct Hno. by rewrite as_uint8_shape, Hs.
Qed.

(** X28.  A grayscale image in [uint8] becomes an RGB image whose three
    channels repeat the input: the element at row-major position
    [3 * k + c] of the result, for a channel [c < 3], is element [k] of the
    input. *)
Theorem to_image_repeats_gray_channel (a : ndarray) (h w : nat) :
  dtype_of a = UInt8 -> shape a = [h; w] ->
  exists image,
    _to_image a = Some image
    /\ shape image = [h; w; 3%nat]
    /\ forall k c, (c < 3)%nat -> data image !! (3 * k + c)%nat = data a !! k.
Proof.
  intros Hdtype Hshape.
  destruct (_to_image_cases a (or_introl Hdtype))
    as [(h' & w' & _ & ->)|[(h' & w' & Hs & _)|(Hno & _)]];
    [|by rewrite Hshape in Hs|by rewrite Hshape in Hno].
  rewrite (as_uint8_fixed a Hdtype). eexists. split; [done|].
  cbn [stack3 shape data]. split; [by rewrite Hshape|].
  intros k c Hc. by apply lookup_triples.
Qed.

End ToImage.

Section Dispatch.

Variable rescale : list Q -> list Q.
Variable sam : ndarray -> Util.embedding * Util.image_size * Util.image_size.

#[local] Abbreviation precompute_image_embeddings :=
  (Util.precompute_image_embeddings ndarray ndim slices_of (_to_image rescale)
                                    stack3 sam).

(** X29.  An RGB image in [uint8] of height [h] is taken for an image only
    when [ndim=2] is passed: the encoder then gets the image itself, once.
    Without [ndim] the three axes make it a stack: the encoder is handed
    [h] arrays, one per row of the image, each blown up to the shape
    (width, 3, 3). *)
Theorem rgb_image_without_ndim_is_a_stack (a : ndarray) (h w : nat) p :
  dtype_of a = UInt8 -> shape a = [h; w; 3%nat] -> (0 < h)%nat ->
  precompute_image_embeddings p a None false (Some 2)
  = Done (Util.mkEmbeddings (Util.InMemory [(sam a).1.1])
                            (Some (sam a).2) (Some (sam a).1.2),
          p ++ [a], None)
  /\ exists r images,
      precompute_image_embeddings p a None false None
      = Done (r, p ++ images, None)
      /\ length images = h
      /\ Forall (fun image => shape image = [w; 3; 3]%nat) images.
Proof.
  intros Hdtype Hshape Hh. unfold Util.precompute_image_embeddings. split.
  - cbn [Z.eqb Pos.eqb]. unfold Util._compute_2d.
    destruct (_to_image_cases rescale a (or_introl Hdtype))
      as [(h' & w' & Hs & _)|[(h' & w' & _ & ->)|(_ & Hno & _)]].
    + by rewrite Hshape in Hs.
    + rewrite (as_uint8_fixed rescale a Hdtype). unfold Util.set_image.
      by destruct (sam a) as [[feats osz] isz].
    + destruct Hno. by rewrite Hshape.
  - unfold ndim. rewrite Hshape. cbn [length Z.of_nat Pos.of_succ_nat Pos.succ
      Z.eqb Pos.eqb]. unfold Util._compute_3d.
    assert (Hlen : length (slices_of a) = h
                   /\ Forall (fun z_slice => shape z_slice = [w; 3]%nat)
                             (slices_of a)).
    { unfold slices_of. rewrite Hshape, length_map, length_pieces.
      split; [done|]. rewrite Forall_map. by apply Forall_true. }
    destruct Hlen as [Hlen Hall].
    destruct (slices_of a) as [|first rest]; [simpl in Hlen; lia|].
    rewrite (EmbeddingFacts._compute_3d_fold ndarray stack3 sam (first :: rest)
               [] None None p).
    cbn [app map]. rewrite EmbeddingFacts.mbind_Done.
    eexists _, (map stack3 (first :: rest)). split; [done|].
    rewrite length_map. split; [done|]. rewrite Forall_map.
    eapply Forall_impl; [exact Hall|]. intros z_slice Hs.
    cbn [stack3 shape]. by rewrite Hs.
Qed.

End Dispatch.

Lemma to_image_returns_rgb_uint8_witness :
  _to_image stub_rescale (stack3 gray_2x2) = Some (stack3 gray_2x2).
Proof.
  apply (to_image_returns_rgb_uint8 stub_rescale gray_2x2 (stack3 gray_2x2)).
  - reflexivity.
  - reflexivity.
Defined.

Lemma to_image_repeats_gray_channel_witness :
  exists image,
    _to_image stub_rescale gray_2x2 = Some image
    /\ shape image = [2; 2; 3]%nat
    /\ forall k c, (c < 3)%nat ->
         data image !! (3 * k + c)%nat = data gray_2x2 !! k.
Proof.
  apply (to_image_repeats_gray_channel stub_rescale gray_2x2 2 2).
  - reflexivity.
  - reflexivity.
Defined.

Lemma rgb_image_without_ndim_is_a_stack_witness :
  let sam := fun a : ndarray => ([1], (2, 2), (3, 3)) in
  exists r images,
    Util.precompute_image_embeddings ndarray ndim slices_of (_to_image stub_rescale)
                                     stack3 sam [] rgb_1x2 None false None
    = Done (r, [] ++ images, None)
    /\ length images = 1%nat
    /\ Forall (fun image => shape image = [2; 3; 3]%nat) images.
Proof.
  intros sam.
  destruct (rgb_image_without_ndim_is_a_stack stub_rescale sam rgb_1x2 1 2 [])
    as [_ H]; [reflexivity|reflexivity|lia|exact H].
Defined.

End ImageFacts.
